(** * Catastrophe Loss Radar (src/App.jsx): a shallow embedding

    The single React component [App] of the dashboard and its helpers
    [fmtCurrencyShort], [fmtMonthYY] and [shade] are embedded as pure
    functions and as a transition system over the component state.  Of
    the JSX of the component, what depends on the state is embedded: the
    fill and the name of a polygon, the cache of the centroids, the rows
    of the top counties, what the chart panel shows, and the handlers of
    the search box, of the rows and of the polygons.  The layout, the
    styles and the libraries that draw the map and the chart are not
    embedded.

    Conventions of the embedding.
    - A JavaScript string is the list of its UTF-16 code units.
    - A JavaScript number is [NaN] or a finite value, held as a
      rational; every arithmetic operation rounds its exact result to 53
      significant bits, ties to even, as binary64 does.  Infinities,
      overflow, subnormal numbers and the sign of a zero result are
      outside the embedding; [Math.round] keeps its negative zero because
      [toLocaleString] prints it.
    - Functions of the host that depend on tables not present in the
      repository (Unicode case mapping, the locale of
      [toLocaleString], [Number::toString] for values from 1e21, the
      build-time constant [VITE_API_URL]) are fields of a [Host] record
      that the definitions take as a parameter.
    - The component is modelled while mounted ([mounted] is [true]).
    - [fmtMonthYY] is modelled on the [Date] it formats, seen through
      its two getters; the parsing of [new Date(d)] is not embedded.
      [geoCentroid] of d3-geo is a parameter. *)

From Stdlib Require Import String Ascii Bool Arith NArith ZArith QArith Qround Qpower Qabs List.
From Stdlib Require Import Lia Lqa Permutation Sorted.
Import ListNotations.

Set Implicit Arguments.

(** ** JavaScript strings *)

Module JsString.

Definition t : Type := list N.

(** A literal: each character is its code unit. *)
Fixpoint str (s : string) : t :=
  match s with
  | EmptyString => []
  | String a s' => N_of_ascii a :: str s'
  end.

Fixpoint eqb (a b : t) : bool :=
  match a, b with
  | [], [] => true
  | x :: a', y :: b' => N.eqb x y && eqb a' b'
  | _, _ => false
  end.

(** [s.startsWith(p)] *)
Fixpoint startsWith (s p : t) : bool :=
  match p, s with
  | [], _ => true
  | _ :: _, [] => false
  | y :: p', x :: s' => N.eqb x y && startsWith s' p'
  end.

(** [s.includes(p)]: [p] occurs in [s] as a run of code units. *)
Fixpoint includes (s p : t) : bool :=
  startsWith s p ||
  match s with
  | [] => false
  | _ :: s' => includes s' p
  end.

(** WhiteSpace and LineTerminator code units of ECMAScript, the set
    [String.prototype.trim] strips. *)
Definition is_ws (c : N) : bool :=
  ((9 <=? c) && (c <=? 13) || (c =? 32) || (c =? 160) || (c =? 5760)
   || (8192 <=? c) && (c <=? 8202) || (c =? 8232) || (c =? 8233)
   || (c =? 8239) || (c =? 8287) || (c =? 12288) || (c =? 65279))%N.

Fixpoint trimStart (s : t) : t :=
  match s with
  | [] => []
  | c :: s' => if is_ws c then trimStart s' else s
  end.

Definition trimEnd (s : t) : t := rev (trimStart (rev s)).

(** [s.trim()] *)
Definition trim (s : t) : t := trimEnd (trimStart s).

(** Truthiness of a string: the empty string is falsy. *)
Definition truthy (s : t) : bool :=
  match s with [] => false | _ :: _ => true end.

(** Decimal digits of a natural number, most significant first.  The
    fuel bounds the number of digits. *)
Fixpoint digits_fuel (fuel : nat) (n : N) (acc : t) : t :=
  match fuel with
  | O => acc
  | S fuel' =>
      let acc' := (48 + n mod 10)%N :: acc in
      if (n <? 10)%N then acc' else digits_fuel fuel' (n / 10)%N acc'
  end.

Definition of_N (n : N) : t := digits_fuel (S (N.to_nat (N.log2 n))) n [].

(** The number that decimal digits denote. *)
Definition digits_value (s : t) : N :=
  fold_left (fun acc c => (10 * acc + (c - 48))%N) s 0%N.

(** [String(z)] for an integer. *)
Definition of_Z (z : Z) : t :=
  if (z <? 0)%Z then 45%N :: of_N (Z.to_N (- z)) else of_N (Z.to_N z).

End JsString.

Definition jsstring : Type := JsString.t.
Definition str : string -> jsstring := JsString.str.


(** ** Binary64 rounding

    [fl x] is the number of 53 significant bits nearest to [x], a tie
    going to the even significand (the rounding of every arithmetic
    operation of a JavaScript number).  The exponent is not bounded: the
    embedding has no overflow and no subnormal numbers.  Every result is
    in lowest terms, so that equal results are equal terms. *)

Module Binary64.

(** Round to the nearest integer, a tie going to the even one. *)
Definition rne (u : Q) : Z :=
  let k := Qfloor u in
  match Qcompare (u - inject_Z k) (1 # 2) with
  | Lt => k
  | Gt => (k + 1)%Z
  | Eq => if Z.even k then k else (k + 1)%Z
  end.

(** For [0 < x], the exponent [k] with [2^k <= x < 2^(k+1)]. *)
Definition ilog2 (x : Q) : Z :=
  let d := (Z.log2 (Qnum x) - Z.log2 (Zpos (Qden x)))%Z in
  if Qle_bool (2 ^ d) x then d else (d - 1)%Z.

(** For [0 < x], the significand of [x] is [x / 2^e], between [2^52]
    and [2^53], rounded to an integer. *)
Definition round_pos (x : Q) : Q :=
  let e := (ilog2 x - 52)%Z in
  Qred (inject_Z (rne (x / 2 ^ e)) * 2 ^ e).

Definition fl (x : Q) : Q :=
  match Qcompare x 0 with
  | Eq => 0
  | Gt => round_pos x
  | Lt => Qred (- round_pos (- x))
  end.

End Binary64.

(** ** JavaScript numbers and field values *)

Inductive JsNum : Type :=
| NaN
| Fin (q : Q).

(** A numeric field of a JSON object: absent, [null] or a number. *)
Inductive JsVal : Type :=
| Undefined
| Null
| Num (x : JsNum).

Module JsNumber.

(** Truthiness of a number: [NaN] and zero are falsy. *)
Definition truthy (x : JsNum) : bool :=
  match x with
  | NaN => false
  | Fin q => negb (Qeq_bool q 0)
  end.

(** [x || d] on numbers. *)
Definition or_else (x d : JsNum) : JsNum := if truthy x then x else d.

(** [v || d] where [v] is a field and [d] a number: the result is a
    number, [v] itself when it is a truthy one. *)
Definition field_or (v : JsVal) (d : JsNum) : JsNum :=
  match v with
  | Num x => or_else x d
  | Undefined | Null => d
  end.

(** [Number(v)] *)
Definition Number (v : JsVal) : JsNum :=
  match v with
  | Undefined => NaN
  | Null => Fin 0
  | Num x => x
  end.

(** An arithmetic operation: the exact result, rounded. *)
Definition lift2 (f : Q -> Q -> Q) (x y : JsNum) : JsNum :=
  match x, y with
  | Fin a, Fin b => Fin (Binary64.fl (f a b))
  | _, _ => NaN
  end.

Definition add : JsNum -> JsNum -> JsNum := lift2 Qplus.
Definition sub : JsNum -> JsNum -> JsNum := lift2 Qminus.
Definition mul : JsNum -> JsNum -> JsNum := lift2 Qmult.

(** [x / y]; a zero divisor leaves the finite numbers and is never
    reached by the code below (every divisor is a non-zero constant or
    [max || 1]). *)
Definition div (x y : JsNum) : JsNum :=
  match x, y with
  | Fin a, Fin b => if Qeq_bool b 0 then NaN else Fin (Binary64.fl (a / b))
  | _, _ => NaN
  end.

(** Comparisons are [false] as soon as one side is [NaN]. *)
Definition geb (x y : JsNum) : bool :=
  match x, y with
  | Fin a, Fin b => Qle_bool b a
  | _, _ => false
  end.

Definition gtb (x y : JsNum) : bool :=
  match x, y with
  | Fin a, Fin b => negb (Qle_bool a b)
  | _, _ => false
  end.

(** [Math.min(x, y)] and [Math.max(x, y)] *)
Definition min (x y : JsNum) : JsNum :=
  match x, y with
  | Fin a, Fin b => if Qle_bool a b then Fin a else Fin b
  | _, _ => NaN
  end.

Definition max (x y : JsNum) : JsNum :=
  match x, y with
  | Fin a, Fin b => if Qle_bool a b then Fin b else Fin a
  | _, _ => NaN
  end.

Definition of_Z (z : Z) : JsNum := Fin (inject_Z z).

End JsNumber.

(** The result of [Math.round]: an integral number, whose zero may be
    negative. *)
Inductive Rounded : Type :=
| RNaN
| RNegZero
| RInt (z : Z).

(** ** The host *)

Record Host : Type := {
  (** [import.meta.env.VITE_API_URL] as the template literal prints it *)
  API : jsstring;
  (** [String.prototype.toLowerCase] *)
  toLowerCase : jsstring -> jsstring;
  (** [Number.prototype.toLocaleString] in the locale of the browser, on
      an integral number *)
  toLocaleString : Rounded -> jsstring;
  (** [Number::toString] on a finite number from 1e21 *)
  numberToString : Q -> jsstring
}.

(** ** Helpers of App.jsx *)

Module Helpers.

Import JsNumber.

(** [Math.round(x)]: the nearest integer, a tie going up; [-0] for
    [-0.5 <= x < 0]. *)
Definition Math_round (x : JsNum) : Rounded :=
  match x with
  | NaN => RNaN
  | Fin q =>
      if negb (Qle_bool 0 q) && Qle_bool (- (1 # 2)) q then RNegZero
      else RInt (Qfloor (q + (1 # 2)))
  end.

(** [String(r)] for the number [r], as a template literal prints it. *)
Definition Rounded_toString (r : Rounded) : jsstring :=
  match r with
  | RNaN => str "NaN"
  | RNegZero => str "0"
  | RInt z => JsString.of_Z z
  end.

Definition pow10 (f : nat) : Q := inject_Z (10 ^ Z.of_nat f).

(** The integer [n] for which [n / 10^f - x] is as close to zero as
    possible, the larger one of two. *)
Definition fixed_scaled (x : Q) (f : nat) : Z := Qfloor (x * pow10 f + (1 # 2)).

(** The digits [m] of [n] with the decimal point before the last [f]
    of them, zero-padded on the left to [f + 1] digits. *)
Definition fixed_point (n : Z) (f : nat) : jsstring :=
  let m := JsString.of_Z n in
  match f with
  | O => m
  | S _ =>
      let m := repeat 48%N (f + 1 - List.length m) ++ m in
      let k := List.length m in
      firstn (k - f) m ++ 46%N :: skipn (k - f) m
  end.

(** [x.toFixed(f)] for [0 <= x]. *)
Definition toFixed_abs (h : Host) (x : Q) (f : nat) : jsstring :=
  if Qle_bool (inject_Z (10 ^ 21)) x then numberToString h x
  else fixed_point (fixed_scaled x f) f.

(** [x.toFixed(f)] *)
Definition toFixed (h : Host) (x : JsNum) (f : nat) : jsstring :=
  match x with
  | NaN => str "NaN"
  | Fin q =>
      if negb (Qle_bool 0 q) then 45%N :: toFixed_abs h (- q) f
      else toFixed_abs h q f
  end.

Definition e3 : JsNum := of_Z 1000.
Definition e6 : JsNum := of_Z 1000000.
Definition e9 : JsNum := of_Z 1000000000.

(** [fmtCurrencyShort], App.jsx lines 26-32. *)
Definition fmtCurrencyShort (h : Host) (n : JsVal) : jsstring :=
  let v := Number (Num (field_or n (Fin 0))) in
  if geb v e9 then str "$" ++ toFixed h (div v e9) 2 ++ str "B"
  else if geb v e6 then str "$" ++ toFixed h (div v e6) 2 ++ str "M"
  else if geb v e3 then str "$" ++ toFixed h (div v e3) 1 ++ str "K"
  else str "$" ++ toLocaleString h (Math_round v).

(** The clamped parameter [t] of [shade]. *)
Definition shade_t (value max : JsVal) : JsNum :=
  JsNumber.max (Fin 0)
    (JsNumber.min (Fin 1) (div (field_or value (Fin 0)) (field_or max (Fin 1)))).

(** [mix] inside [shade]. *)
Definition mix (t : JsNum) (a b : Z) : Rounded :=
  Math_round (add (of_Z a) (mul (sub (of_Z b) (of_Z a)) t)).

Definition start : Z * Z * Z := (219, 234, 254)%Z.
Definition end_ : Z * Z * Z := (30, 64, 175)%Z.

Definition rgb (r g b : Rounded) : jsstring :=
  str "rgb(" ++ Rounded_toString r ++ str ", " ++ Rounded_toString g
    ++ str ", " ++ Rounded_toString b ++ str ")".

(** [shade], App.jsx lines 39-48. *)
Definition shade (value max : JsVal) : jsstring :=
  let t := shade_t value max in
  let '(s0, s1, s2) := start in
  let '(e0, e1, e2) := end_ in
  rgb (mix t s0 e0) (mix t s1 e1) (mix t s2 e2).

(** *** A host with the en-US locale and the ASCII case table *)

(** Digits in groups of three from the right, separated by commas. *)
Fixpoint group3_rev (ds : jsstring) : jsstring :=
  match ds with
  | a :: b :: c :: ((_ :: _) as rest) => a :: b :: c :: 44%N :: group3_rev rest
  | _ => ds
  end.

Definition group3 (ds : jsstring) : jsstring := rev (group3_rev (rev ds)).

Definition toLocaleString_enUS (r : Rounded) : jsstring :=
  match r with
  | RNaN => str "NaN"
  | RNegZero => str "-0"
  | RInt z =>
      if (z <? 0)%Z then 45%N :: group3 (JsString.of_N (Z.to_N (- z)))
      else group3 (JsString.of_N (Z.to_N z))
  end.

Definition toLowerCase_ascii (s : jsstring) : jsstring :=
  map (fun c => if (65 <=? c)%N && (c <=? 90)%N then (c + 32)%N else c) s.

(** [Number::toString] from 1e21 on, for the fixtures: the fewest
    digits [s], at most 17, for which [s * 10^(n - k)] rounds to [x], in
    exponential notation. *)
Fixpoint shortest_digits (fuel k : nat) (n : nat) (x : Q) : Z * Z :=
  let scale := inject_Z (10 ^ Z.of_nat (n - k)) in
  let s := Qfloor (x / scale + (1 # 2)) in
  match fuel with
  | O => (s, Z.of_nat n - 1)%Z
  | S fuel' =>
      if Qeq_bool (Binary64.fl (inject_Z s * scale)) x then
        if (s =? 10 ^ Z.of_nat k)%Z then (1, Z.of_nat n)%Z else (s, Z.of_nat n - 1)%Z
      else shortest_digits fuel' (S k) n x
  end.

Definition numberToString_exp (x : Q) : jsstring :=
  let n := List.length (JsString.of_Z (Qfloor x)) in
  let '(s, e) := shortest_digits 16 1 n x in
  match JsString.of_Z s with
  | [] => []
  | [d] => d :: str "e+" ++ JsString.of_Z e
  | d :: ds => d :: 46%N :: ds ++ str "e+" ++ JsString.of_Z e
  end.

Definition en_US (api : jsstring) : Host :=
  {| API := api;
     toLowerCase := toLowerCase_ascii;
     toLocaleString := toLocaleString_enUS;
     numberToString := numberToString_exp |}.

End Helpers.


(** ** Host functions on strings used by the component *)

Module Uri.

(** [uriUnescaped] followed by nothing else: letters, digits and
    [- _ . ! ~ * ' ( )] are kept by [encodeURIComponent]. *)
Definition is_unreserved (c : N) : bool :=
  ((65 <=? c) && (c <=? 90) || (97 <=? c) && (c <=? 122) || (48 <=? c) && (c <=? 57)
   || (c =? 45) || (c =? 95) || (c =? 46) || (c =? 33) || (c =? 126)
   || (c =? 42) || (c =? 39) || (c =? 40) || (c =? 41))%N.

Definition hex_digit (n : N) : N := (if n <? 10 then 48 + n else 55 + n)%N.

(** An octet as [%XX]. *)
Definition percent (b : N) : jsstring := [37%N; hex_digit (b / 16); hex_digit (b mod 16)].

(** The octets of the UTF-8 encoding of a code point. *)
Definition utf8 (v : N) : list N :=
  (if v <? 128 then [v]
   else if v <? 2048 then
     [N.lor 192 (N.shiftr v 6); N.lor 128 (N.land v 63)]
   else if v <? 65536 then
     [N.lor 224 (N.shiftr v 12); N.lor 128 (N.land (N.shiftr v 6) 63);
      N.lor 128 (N.land v 63)]
   else
     [N.lor 240 (N.shiftr v 18); N.lor 128 (N.land (N.shiftr v 12) 63);
      N.lor 128 (N.land (N.shiftr v 6) 63); N.lor 128 (N.land v 63)])%N.

Definition escape (v : N) : jsstring := concat (map percent (utf8 v)).

Definition is_high_surrogate (c : N) : bool := ((55296 <=? c) && (c <=? 56319))%N.
Definition is_low_surrogate (c : N) : bool := ((56320 <=? c) && (c <=? 57343))%N.

(** [encodeURIComponent(s)]; [None] is the URIError thrown on a lone
    surrogate. *)
Fixpoint encodeURIComponent (s : jsstring) : option jsstring :=
  match s with
  | [] => Some []
  | c :: rest =>
      if is_unreserved c then option_map (cons c) (encodeURIComponent rest)
      else if is_low_surrogate c then None
      else if is_high_surrogate c then
        match rest with
        | [] => None
        | c2 :: rest' =>
            if is_low_surrogate c2 then
              option_map
                (app (escape ((c - 55296) * 1024 + (c2 - 56320) + 65536)%N))
                (encodeURIComponent rest')
            else None
        end
      else option_map (app (escape c)) (encodeURIComponent rest)
  end.

(** *** Decoding, as the receiver of the URL does it *)

Definition hex_value (c : N) : option N :=
  (if (48 <=? c) && (c <=? 57) then Some (c - 48)
   else if (65 <=? c) && (c <=? 70) then Some (c - 55)
   else if (97 <=? c) && (c <=? 102) then Some (c - 87)
   else None)%N.

(** A character of the encoded text that stands for itself, or an
    octet written [%XX]. *)
Inductive Token : Type :=
| Lit (c : N)
| Octet (b : N).

Fixpoint tokens (s : jsstring) : option (list Token) :=
  match s with
  | [] => Some []
  | c :: rest =>
      if (c =? 37)%N then
        match rest with
        | h1 :: h2 :: rest' =>
            match hex_value h1, hex_value h2 with
            | Some a, Some b => option_map (cons (Octet (16 * a + b)%N)) (tokens rest')
            | _, _ => None
            end
        | _ => None
        end
      else option_map (cons (Lit c)) (tokens rest)
  end.

Definition is_continuation (b : N) : bool := ((128 <=? b) && (b <=? 191))%N.

(** The code units of a code point. *)
Definition units (v : N) : jsstring :=
  (if v <? 65536 then [v]
   else [55296 + N.shiftr (v - 65536) 10; 56320 + N.land (v - 65536) 1023])%N.

Fixpoint decode_tokens (ts : list Token) : option jsstring :=
  match ts with
  | [] => Some []
  | Lit c :: r => option_map (cons c) (decode_tokens r)
  | Octet b1 :: r1 =>
      if (b1 <? 128)%N then option_map (cons b1) (decode_tokens r1)
      else if ((194 <=? b1) && (b1 <=? 223))%N then
        match r1 with
        | Octet b2 :: r2 =>
            if is_continuation b2 then
              option_map (app (units (N.lor (N.shiftl (N.land b1 31) 6) (N.land b2 63))))
                         (decode_tokens r2)
            else None
        | _ => None
        end
      else if ((224 <=? b1) && (b1 <=? 239))%N then
        match r1 with
        | Octet b2 :: Octet b3 :: r3 =>
            let v := N.lor (N.shiftl (N.land b1 15) 12)
                       (N.lor (N.shiftl (N.land b2 63) 6) (N.land b3 63)) in
            if is_continuation b2 && is_continuation b3 && (2048 <=? v)%N
               && negb ((55296 <=? v) && (v <=? 57343))%N
            then option_map (app (units v)) (decode_tokens r3)
            else None
        | _ => None
        end
      else if ((240 <=? b1) && (b1 <=? 244))%N then
        match r1 with
        | Octet b2 :: Octet b3 :: Octet b4 :: r4 =>
            let v := N.lor (N.shiftl (N.land b1 7) 18)
                       (N.lor (N.shiftl (N.land b2 63) 12)
                          (N.lor (N.shiftl (N.land b3 63) 6) (N.land b4 63))) in
            if is_continuation b2 && is_continuation b3 && is_continuation b4
               && (65536 <=? v)%N && (v <=? 1114111)%N
            then option_map (app (units v)) (decode_tokens r4)
            else None
        | _ => None
        end
      else None
  end.

(** [decodeURIComponent(s)]; [None] is the URIError of a malformed
    text. *)
Definition decodeURIComponent (s : jsstring) : option jsstring :=
  match tokens s with
  | Some ts => decode_tokens ts
  | None => None
  end.

(** The text is made of 16-bit code units. *)
Definition well_formed (s : jsstring) : Prop := Forall (fun c => (c < 65536)%N) s.

(** The leading bits [k] of an octet of UTF-8 leave the payload [x]
    below [m] intact. *)
Definition lead_ok (k m x : N) : bool :=
  ((N.lor k x =? k + x) && (N.land (k + x) (m - 1) =? x))%N.

End Uri.

(** ** Data model *)

(** A string field of a JSON object: absent, [null] or a string. *)
Inductive StrField : Type :=
| SUndefined
| SNull
| SStr (s : jsstring).

(** [v || d] where [v] is a string field and [d] a string. *)
Definition strfield_or (v : StrField) (d : jsstring) : jsstring :=
  match v with
  | SStr s => if JsString.truthy s then s else d
  | SUndefined | SNull => d
  end.

(** [v || w] where both are string fields. *)
Definition strfield_or_field (v w : StrField) : StrField :=
  match v with
  | SStr s => if JsString.truthy s then v else w
  | SUndefined | SNull => w
  end.

(** CountySummary *)
Record County : Type := {
  fips : jsstring;
  name : StrField;
  el_total_sum : JsVal
}.

(** CountiesResponse *)
Record CountiesResponse : Type := {
  run : StrField;
  counties : option (list County)
}.

(** A point of the series as the API sends it. *)
Record RawPoint : Type := {
  raw_dt : jsstring;
  raw_el_total : JsVal
}.

(** The body of a series response; [series] may be absent. *)
Record SeriesBody : Type := {
  body_series : option (list RawPoint)
}.

(** [new Date(s.dt)] *)
Inductive JsDate : Type :=
| NewDate (dt : jsstring).

(** A point of the series as the chart receives it. *)
Record Point : Type := {
  dt : JsDate;
  el_total : JsNum;
  cum : JsNum
}.

(** Selection *)
Record Selection : Type := {
  sel_fips : jsstring;
  sel_name : jsstring
}.

(** A series request in flight, with the arguments of the call of
    [loadCounty] that issued it. *)
Record Request : Type := {
  url : jsstring;
  req_fips : jsstring;
  req_name : jsstring
}.

(** The state of [App]: its [useState] cells, the series requests in
    flight, whether the list request is in flight, and the log of every
    series request issued. *)
Record State : Type := {
  countiesMeta : option CountiesResponse;
  runId : option jsstring;
  selected : option Selection;
  series : option (list Point);
  loading : bool;
  error : jsstring;
  listPending : bool;
  pending : list Request;
  sent : list Request
}.

(** ** The component *)

Module App.

Import JsNumber.

(** The state at mount: the effect has issued the list request. *)
Definition init : State :=
  {| countiesMeta := None; runId := None; selected := None; series := None;
     loading := true; error := []; listPending := true;
     pending := []; sent := [] |}.

(** [countiesMeta?.counties] when truthy. *)
Definition counties_of (cm : option CountiesResponse) : option (list County) :=
  match cm with
  | Some d => counties d
  | None => None
  end.

(** [countyIndex.get(fips)]: the map is filled in list order, a later
    county replacing an earlier one of the same fips. *)
Fixpoint countyIndex_get_from (found : option County) (cs : list County)
    (f : jsstring) : option County :=
  match cs with
  | [] => found
  | c :: cs' =>
      countyIndex_get_from (if JsString.eqb (fips c) f then Some c else found) cs' f
  end.

Definition countyIndex_get (cm : option CountiesResponse) (f : jsstring) : option County :=
  match counties_of cm with
  | Some cs => countyIndex_get_from None cs f
  | None => None
  end.

(** The key of the two sorts: [c.el_total_sum || 0]. *)
Definition loss (c : County) : JsNum := field_or (el_total_sum c) (Fin 0).

(** [maxSum], lines 95-98. *)
Definition maxSum (cm : option CountiesResponse) : JsNum :=
  match counties_of cm with
  | None | Some [] => Fin 1
  | Some cs => fold_right (fun c m => JsNumber.max (loss c) m) (Fin 1) cs
  end.

(** The comparator of both sorts:
    [(a, b) => (b.el_total_sum || 0) - (a.el_total_sum || 0)]. *)
Definition by_loss_desc (a b : County) : JsNum := sub (loss b) (loss a).

(** [Array.prototype.sort(comparefn)].  ECMAScript requires a stable
    sort: for a consistent comparator the result is determined, and it
    is the one of this insertion sort.  [a] goes behind [b] exactly when
    [comparefn(a, b) > 0]. *)
Section Sort.

Variable A : Type.
Variable comparefn : A -> A -> JsNum.

Fixpoint insert (x : A) (l : list A) : list A :=
  match l with
  | [] => [x]
  | y :: l' => if gtb (comparefn x y) (Fin 0) then y :: insert x l' else x :: l
  end.

Fixpoint sort (l : list A) : list A :=
  match l with
  | [] => []
  | x :: l' => insert x (sort l')
  end.

End Sort.

(** [topSorted], lines 101-105. *)
Definition topSorted (cm : option CountiesResponse) : list County :=
  let arr := match counties_of cm with Some cs => cs | None => [] end in
  sort by_loss_desc arr.

(** [suggestions], lines 108-115. *)
Definition suggestions (h : Host) (q : jsstring) (cm : option CountiesResponse)
    : list County :=
  match JsString.trim q, counties_of cm with
  | _ :: _, Some cs =>
      let t := toLowerCase h (JsString.trim q) in
      firstn 3
        (sort by_loss_desc
           (filter (fun c => JsString.includes (toLowerCase h (strfield_or (name c) [])) t)
              cs))
  | _, _ => []
  end.

(** [Number(s.el_total) || 0] *)
Definition step_of (s : RawPoint) : JsNum := JsNumber.or_else (Number (raw_el_total s)) (Fin 0).

(** The running sum inside [loadCounty], lines 125-130. *)
Fixpoint cumulative_from (cum : JsNum) (l : list RawPoint) : list Point :=
  match l with
  | [] => []
  | s :: l' =>
      let step := step_of s in
      let cum := add cum step in
      {| dt := NewDate (raw_dt s); el_total := step; cum := cum |}
        :: cumulative_from cum l'
  end.

Definition cumulative (l : list RawPoint) : list Point := cumulative_from (Fin 0) l.

(** The series of a response body: [(r.data.series || []).map(...)]. *)
Definition series_of (b : SeriesBody) : list Point :=
  cumulative (match body_series b with Some l => l | None => [] end).

(** The message of the [catch] of [loadCounty]. *)
Definition no_timeseries (name fips : jsstring) : jsstring :=
  str "No timeseries for " ++ name ++ str " (" ++ fips ++ str ")".

(** The query suffix [q] of [loadCounty], line 123; [None] when
    [encodeURIComponent] throws. *)
Definition run_suffix (runId : option jsstring) : option jsstring :=
  match runId with
  | Some ((_ :: _) as r) => option_map (app (str "&run=")) (Uri.encodeURIComponent r)
  | _ => Some []
  end.

Definition series_url (h : Host) (fips q : jsstring) : jsstring :=
  API h ++ str "/loss/county?fips=" ++ fips ++ q.

Definition set_error (s : State) (e : jsstring) : State :=
  {| countiesMeta := countiesMeta s; runId := runId s; selected := selected s;
     series := series s; loading := loading s; error := e;
     listPending := listPending s; pending := pending s; sent := sent s |}.

Definition set_series (s : State) (d : option (list Point)) : State :=
  {| countiesMeta := countiesMeta s; runId := runId s; selected := selected s;
     series := d; loading := loading s; error := error s;
     listPending := listPending s; pending := pending s; sent := sent s |}.

Definition set_pending (s : State) (p : list Request) : State :=
  {| countiesMeta := countiesMeta s; runId := runId s; selected := selected s;
     series := series s; loading := loading s; error := error s;
     listPending := listPending s; pending := p; sent := sent s |}.

(** [loadCounty(fips, name)] up to its [await], lines 118-124: the
    selection is set, series and error are cleared, and the request is
    issued unless building its URL throws. *)
Definition loadCounty (h : Host) (s : State) (fips name : jsstring) : State :=
  let s1 :=
    {| countiesMeta := countiesMeta s; runId := runId s;
       selected := Some {| sel_fips := fips; sel_name := name |};
       series := None; loading := loading s; error := [];
       listPending := listPending s; pending := pending s; sent := sent s |} in
  match run_suffix (runId s) with
  | None => set_error s1 (no_timeseries name fips)
  | Some q =>
      let rq := {| url := series_url h fips q; req_fips := fips; req_name := name |} in
      {| countiesMeta := countiesMeta s1; runId := runId s1; selected := selected s1;
         series := series s1; loading := loading s1; error := error s1;
         listPending := listPending s1;
         pending := pending s1 ++ [rq]; sent := sent s1 ++ [rq] |}
  end.

(** [meta?.name] for [meta = countyIndex.get(fips)]. *)
Definition meta_name (cm : option CountiesResponse) (fips : jsstring) : StrField :=
  match countyIndex_get cm fips with
  | Some meta => name meta
  | None => SUndefined
  end.

(** [meta?.name || fallbackName || fips] *)
Definition shown_name (s : State) (fips : jsstring) (fallbackName : StrField) : jsstring :=
  strfield_or (strfield_or_field (meta_name (countiesMeta s) fips) fallbackName) fips.

(** [selectWithoutZoom(fips, fallbackName)], lines 138-141. *)
Definition selectWithoutZoom (h : Host) (s : State) (fips : jsstring)
    (fallbackName : StrField) : State :=
  loadCounty h s fips (shown_name s fips fallbackName).

(** [loadCounty] after its [await], lines 125-135, for the request
    [rq]: the response [Some body] is committed as the cumulative series;
    a body that is not an object makes [r.data.series] throw, and the
    [catch] sets the error. *)
Definition series_resolved (s : State) (rq : Request) (data : option SeriesBody) : State :=
  match data with
  | Some body => set_series s (Some (series_of body))
  | None => set_error s (no_timeseries (req_name rq) (req_fips rq))
  end.

(** The [catch] of [loadCounty] for a request that failed (timeout,
    network error, status outside 2xx). *)
Definition series_rejected (s : State) (rq : Request) : State :=
  set_error s (no_timeseries (req_name rq) (req_fips rq)).

(** The list effect after its [await], lines 77-78 and 83. *)
Definition list_resolved (s : State) (data : option CountiesResponse) : State :=
  {| countiesMeta := data;
     runId :=
       match data with
       | Some d =>
           match run d with
           | SStr ((_ :: _) as r) => Some r
           | _ => None
           end
       | None => None
       end;
     selected := selected s; series := series s; loading := false;
     error := error s; listPending := false;
     pending := pending s; sent := sent s |}.

(** The [catch] of the list effect, lines 80-83. *)
Definition list_rejected (s : State) : State :=
  {| countiesMeta := countiesMeta s; runId := runId s; selected := selected s;
     series := series s; loading := false;
     error := str "Failed to load /loss/counties"; listPending := false;
     pending := pending s; sent := sent s |}.

(** What can happen to the mounted component. *)
Inductive Event : Type :=
| ListResolve (data : option CountiesResponse)
| ListReject
| Select (fips : jsstring) (fallbackName : StrField)
| SeriesResolve (i : nat) (data : option SeriesBody)
| SeriesReject (i : nat).

(** The list [l] without its [i]-th element. *)
Definition remove_nth {A : Type} (i : nat) (l : list A) : list A :=
  firstn i l ++ skipn (S i) l.

(** One event; [None] when the event cannot happen in [s] (a response
    to a request that is not in flight). *)
Definition step (h : Host) (s : State) (e : Event) : option State :=
  match e with
  | ListResolve data => if listPending s then Some (list_resolved s data) else None
  | ListReject => if listPending s then Some (list_rejected s) else None
  | Select fips fallbackName => Some (selectWithoutZoom h s fips fallbackName)
  | SeriesResolve i data =>
      match nth_error (pending s) i with
      | Some rq => Some (series_resolved (set_pending s (remove_nth i (pending s))) rq data)
      | None => None
      end
  | SeriesReject i =>
      match nth_error (pending s) i with
      | Some rq => Some (series_rejected (set_pending s (remove_nth i (pending s))) rq)
      | None => None
      end
  end.

Fixpoint steps (h : Host) (s : State) (es : list Event) : option State :=
  match es with
  | [] => Some s
  | e :: es' =>
      match step h s e with
      | Some s' => steps h s' es'
      | None => None
      end
  end.

End App.

(** ** What the output of [fmtCurrencyShort] denotes *)

Module Forms.

Import JsNumber Helpers.

(** [Number(n || 0)] as a rational: it is always a finite number. *)
Definition amount (n : JsVal) : Q :=
  match Number (Num (field_or n (Fin 0))) with
  | Fin q => q
  | NaN => 0
  end.

(** The two shapes of [x.toFixed(f)] for [0 <= x]: the digits of an
    integer [k] with the point before the last [f], which denote
    [k / 10^f]; or, from 1e21, the digits that [Number::toString] gives
    [x], which read back as [x]. *)
Inductive Mantissa : Type :=
| Fixed (k : Z) (f : nat)
| Exponential (x : Q).

Definition mantissa (x : Q) (f : nat) : Mantissa :=
  if Qle_bool (inject_Z (10 ^ 21)) x then Exponential x
  else Fixed (fixed_scaled x f) f.

Definition render_mantissa (h : Host) (m : Mantissa) : jsstring :=
  match m with
  | Fixed k f => fixed_point k f
  | Exponential x => numberToString h x
  end.

Definition mantissa_value (m : Mantissa) : Q :=
  match m with
  | Fixed k f => inject_Z k / pow10 f
  | Exponential x => x
  end.

(** The four forms of the output. *)
Inductive ShortForm : Type :=
| Billions (m : Mantissa)
| Millions (m : Mantissa)
| Thousands (m : Mantissa)
| Units (r : Rounded).

Definition render (h : Host) (o : ShortForm) : jsstring :=
  match o with
  | Billions m => str "$" ++ render_mantissa h m ++ str "B"
  | Millions m => str "$" ++ render_mantissa h m ++ str "M"
  | Thousands m => str "$" ++ render_mantissa h m ++ str "K"
  | Units r => str "$" ++ toLocaleString h r
  end.

Definition rounded_value (r : Rounded) : Q :=
  match r with
  | RInt z => inject_Z z
  | RNegZero | RNaN => 0
  end.

(** The amount that a form denotes. *)
Definition denoted (o : ShortForm) : Q :=
  match o with
  | Billions m => mantissa_value m * inject_Z 1000000000
  | Millions m => mantissa_value m * inject_Z 1000000
  | Thousands m => mantissa_value m * inject_Z 1000
  | Units r => rounded_value r
  end.

(** The form of the output for the amount [v]. *)
Definition short_form (v : Q) : ShortForm :=
  if Qle_bool (inject_Z 1000000000) v then
    Billions (mantissa (Binary64.fl (v / inject_Z 1000000000)) 2)
  else if Qle_bool (inject_Z 1000000) v then
    Millions (mantissa (Binary64.fl (v / inject_Z 1000000)) 2)
  else if Qle_bool (inject_Z 1000) v then
    Thousands (mantissa (Binary64.fl (v / inject_Z 1000)) 1)
  else Units (Math_round (Fin v)).






End Forms.

(** ** Requests, scenarios and orders *)

Module Spec.

Import App.

(** A request carries the run [r]: its URL ends in [&run=] followed by
    the URI-encoded [r], which decodes to [r]. *)
Definition carries_run (h : Host) (r : jsstring) (rq : Request) : Prop :=
  exists e, Uri.encodeURIComponent r = Some e /\
            Uri.decodeURIComponent e = Some r /\
            url rq = API h ++ str "/loss/county?fips=" ++ req_fips rq ++ str "&run=" ++ e.

(** A request carries no run: its URL stops after the fips. *)
Definition carries_no_run (h : Host) (rq : Request) : Prop :=
  url rq = API h ++ str "/loss/county?fips=" ++ req_fips rq.

(** The requests that [s'] has issued since [s] all satisfy [P]. *)
Definition issued_since (P : Request -> Prop) (s s' : State) : Prop :=
  exists new, sent s' = sent s ++ new /\ Forall P new.

(** The run field of the list response is absent, [null] or empty (an
    absent body has no run field). *)
Definition run_missing (data : option CountiesResponse) : Prop :=
  match data with
  | Some d => run d = SUndefined \/ run d = SNull \/ run d = SStr []
  | None => True
  end.

(** How a series request ends. *)
Inductive Outcome : Type :=
| Succeeds (body : SeriesBody)
| Fails.

Definition arrival (i : nat) (o : Outcome) : Event :=
  match o with
  | Succeeds b => SeriesResolve i (Some b)
  | Fails => SeriesReject i
  end.

(** County A is activated, then county B before the response for A
    arrives; then both responses arrive, the one for A first or
    second. *)
Definition race (h : Host) (s : State) (fA : jsstring) (nA : StrField)
    (fB : jsstring) (nB : StrField) (oA oB : Outcome) (a_first : bool) : option State :=
  let n := List.length (pending s) in
  steps h s
    (Select fA nA :: Select fB nB ::
       if a_first then [arrival n oA; arrival n oB]
       else [arrival (S n) oB; arrival n oA]).

(** The loss of a county as a rational: [el_total_sum || 0] is always a
    finite number. *)
Definition loss_q (c : County) : Q :=
  match loss c with
  | Fin q => q
  | NaN => 0
  end.

(** A list is in descending order of [key] when [descending key] holds
    between each element and every later one. *)
Definition descending {A : Type} (key : A -> Q) (x y : A) : Prop := key y <= key x.

(** The elements whose key is [k] are those that pass [has_key key k]. *)
Definition has_key {A : Type} (key : A -> Q) (k : Q) (x : A) : bool := Qeq_bool (key x) k.

End Spec.

(** ** Fixtures *)

Module Fixtures.

Import Helpers.

Definition host0 : Host := en_US (str "https://api.example").

Definition collin : County :=
  {| fips := str "48085"; name := SStr (str "Collin"); el_total_sum := Num (Fin 5) |}.
Definition dallas : County :=
  {| fips := str "48113"; name := SStr (str "Dallas"); el_total_sum := Num (Fin 9) |}.
Definition coleman : County :=
  {| fips := str "48083"; name := SStr (str "Coleman"); el_total_sum := Num (Fin 5) |}.

Definition counties0 : CountiesResponse :=
  {| run := SStr (str "run_dt=20240101T000000Z");
     counties := Some [collin; dallas; coleman] |}.

Definition raw (steps : list Z) : list RawPoint :=
  map (fun z => {| raw_dt := str "2024-01-01T00:00:00Z";
                   raw_el_total := Num (JsNumber.of_Z z) |}) steps.

Definition body_collin : SeriesBody := {| body_series := Some (raw [100; 200; 50]%Z) |}.
Definition body_dallas : SeriesBody := {| body_series := Some (raw [7; 8]%Z) |}.

End Fixtures.


(** ** More of the host: padding, slicing, dates, maps *)

Module JsHost.

(** [s.padStart(n, fill)]: [fill] repeated and cut to the missing
    length, in front of [s]. *)
Definition padStart (s : jsstring) (n : nat) (fill : jsstring) : jsstring :=
  if (n <=? List.length s)%nat then s
  else
    match fill with
    | [] => s
    | _ :: _ =>
        let k := (n - List.length s)%nat in
        firstn k (concat (repeat fill k)) ++ s
    end.

(** [s.slice(start)]: from [start], counted from the end when
    negative. *)
Definition slice_from (s : jsstring) (start : Z) : jsstring :=
  let len := Z.of_nat (List.length s) in
  let from := if (start <? 0)%Z then Z.max (len + start) 0 else Z.min start len in
  skipn (Z.to_nat from) s.

(** [String(x)] for a number that is [NaN] or an integer. *)
Definition String_of_int (x : option Z) : jsstring :=
  match x with
  | Some z => JsString.of_Z z
  | None => str "NaN"
  end.

(** A [Date] as the two getters of [fmtMonthYY] see it: invalid (every
    getter gives [NaN]), or with a UTC year and a UTC month from 0 to
    11. *)
Inductive DateValue : Type :=
| InvalidDate
| UtcDate (fullYear month : Z).

Definition getUTCMonth (d : DateValue) : option Z :=
  match d with
  | InvalidDate => None
  | UtcDate _ m => Some m
  end.

Definition getUTCFullYear (d : DateValue) : option Z :=
  match d with
  | InvalidDate => None
  | UtcDate y _ => Some y
  end.

(** A JavaScript [Map] with string keys: its entries in insertion
    order, one per key. *)
Section JsMap.

Variable V : Type.

Definition JsMap : Type := list (jsstring * V).

Fixpoint map_get (m : JsMap) (k : jsstring) : option V :=
  match m with
  | [] => None
  | (k', v) :: m' => if JsString.eqb k' k then Some v else map_get m' k
  end.

Definition map_has (m : JsMap) (k : jsstring) : bool :=
  match map_get m k with
  | Some _ => true
  | None => false
  end.

(** [m.set(k, v)]: the value of an existing key is replaced in place, a
    new key goes to the end. *)
Fixpoint map_set (m : JsMap) (k : jsstring) (v : V) : JsMap :=
  match m with
  | [] => [(k, v)]
  | (k', v') :: m' =>
      if JsString.eqb k' k then (k', v) :: m' else (k', v') :: map_set m' k v
  end.

End JsMap.

End JsHost.

(** ** The rest of the component: formatting of dates, the map layer,
    the panels and the search box *)

Module Views.

Import JsNumber Helpers App JsHost.

(** [fmtMonthYY], App.jsx lines 33-38, on the [Date] it formats. *)
Definition fmtMonthYY (dt : DateValue) : jsstring :=
  let mm := padStart (String_of_int (option_map (Z.add 1) (getUTCMonth dt))) 2 (str "0") in
  let yy := slice_from (String_of_int (getUTCFullYear dt)) (-2) in
  mm ++ str "/" ++ yy.

(** The id of a polygon of the topology: a number (a non-negative
    integer below 1e21, which [String] prints as its decimal digits) or
    a string. *)
Inductive GeoId : Type :=
| IdNum (n : N)
| IdStr (s : jsstring).

(** A polygon: its id and [properties?.NAME]. *)
Record Geo : Type := {
  geo_id : GeoId;
  geo_NAME : StrField
}.

(** [String(g.id).padStart(5, "0")] *)
Definition geo_fips (g : Geo) : jsstring :=
  padStart (match geo_id g with IdNum n => JsString.of_N n | IdStr s => s end) 5 (str "0").

(** The polygons of the layer, lines 227 and 236:
    [.filter(g => String(g.id).padStart(5, "0").startsWith("48"))]. *)
Definition texas (geographies : list Geo) : list Geo :=
  filter (fun g => JsString.startsWith (geo_fips g) (str "48")) geographies.

(** The body of the first pass over the polygons, lines 229-232: a
    centroid is computed for a polygon that has none in the cache. *)
Definition cache_visit {C : Type} (geoCentroid : Geo -> C)
    (cache : JsMap C) (g : Geo) : JsMap C :=
  let fips := geo_fips g in
  if map_has cache fips then cache else map_set cache fips (geoCentroid g).

(** The first pass, lines 226-233: [.filter(...).forEach(...)]. *)
Definition cache_centroids {C : Type} (geoCentroid : Geo -> C)
    (cache : JsMap C) (geographies : list Geo) : JsMap C :=
  fold_left (cache_visit geoCentroid) (texas geographies) cache.

Definition baseFill : jsstring := str "rgb(243, 244, 246)".

(** [name], line 240: [geo.properties?.NAME || meta?.name || fips]. *)
Definition geo_name (cm : option CountiesResponse) (g : Geo) : jsstring :=
  strfield_or (strfield_or_field (geo_NAME g) (meta_name cm (geo_fips g))) (geo_fips g).

(** [fill], line 242. *)
Definition geo_fill (cm : option CountiesResponse) (g : Geo) : jsstring :=
  match countyIndex_get cm (geo_fips g) with
  | Some meta => shade (Num (field_or (el_total_sum meta) (Fin 0))) (Num (maxSum cm))
  | None => baseFill
  end.

(** [isActive], line 243: [selected?.fips === fips]. *)
Definition geo_active (s : State) (g : Geo) : bool :=
  match selected s with
  | Some sel => JsString.eqb (sel_fips sel) (geo_fips g)
  | None => false
  end.

(** The click on a polygon, line 248. *)
Definition geo_click (h : Host) (s : State) (g : Geo) : State :=
  selectWithoutZoom h s (geo_fips g) (SStr (geo_name (countiesMeta s) g)).

(** A row of the list of the top counties, lines 334-347. *)
Record Row : Type := {
  row_key : jsstring;
  row_label : jsstring;
  row_fips : jsstring;
  row_amount : jsstring
}.

(** The counties of the rows: [topSorted.slice(0, 12)]. *)
Definition top_counties (cm : option CountiesResponse) : list County :=
  firstn 12 (topSorted cm).

Definition top_rows (h : Host) (cm : option CountiesResponse) : list Row :=
  map (fun c => {| row_key := fips c;
                   row_label := strfield_or (name c) (fips c);
                   row_fips := fips c;
                   row_amount := fmtCurrencyShort h (el_total_sum c) |})
      (top_counties cm).

(** The click on the row of [c], line 338. *)
Definition row_click (h : Host) (s : State) (c : County) : State :=
  selectWithoutZoom h s (fips c) (SStr (strfield_or (name c) (fips c))).

(** What the chart panel shows, lines 296-323: a placeholder, the
    error, the chart. *)
Record ChartPanel : Type := {
  placeholder : option jsstring;
  error_text : option jsstring;
  chart : option (list Point)
}.

Definition loading_text : jsstring := str "Loading" ++ [8230%N].
Definition pick_text : jsstring := str "Pick a county".

Definition chart_panel (s : State) : ChartPanel :=
  {| placeholder :=
       match series s, error s with
       | None, [] => Some (match selected s with Some _ => loading_text | None => pick_text end)
       | _, _ => None
       end;
     error_text := match error s with [] => None | _ :: _ => Some (error s) end;
     chart :=
       match series s with
       | Some ((_ :: _) as l) => Some l
       | _ => None
       end |}.

(** *** The search box, lines 65-67, 144-161, 183-185 and 195 *)

Record Ui : Type := {
  ctl : State;
  q : jsstring;
  openSug : bool;
  activeSug : nat;
  (** the timers that [onBlur] has set and that have not fired *)
  blurTimers : nat
}.

Definition ui_init : Ui :=
  {| ctl := init; q := []; openSug := false; activeSug := 0; blurTimers := 0 |}.

Inductive Key : Type :=
| ArrowDown
| ArrowUp
| Enter
| Escape
| OtherKey.

Definition ui_suggestions (h : Host) (u : Ui) : list County :=
  suggestions h (q u) (countiesMeta (ctl u)).

Definition set_app (u : Ui) (a : State) : Ui :=
  {| ctl := a; q := q u; openSug := openSug u; activeSug := activeSug u;
     blurTimers := blurTimers u |}.

Definition set_open (u : Ui) (o : bool) : Ui :=
  {| ctl := ctl u; q := q u; openSug := o; activeSug := activeSug u;
     blurTimers := blurTimers u |}.

Definition set_active (u : Ui) (i : nat) : Ui :=
  {| ctl := ctl u; q := q u; openSug := openSug u; activeSug := i;
     blurTimers := blurTimers u |}.

(** [onChange], line 183. *)
Definition onChange (u : Ui) (value : jsstring) : Ui :=
  {| ctl := ctl u; q := value; openSug := true; activeSug := 0;
     blurTimers := blurTimers u |}.

(** [onSearchKeyDown], lines 144-161; the boolean tells whether
    [e.preventDefault()] was called. *)
Definition onSearchKeyDown (h : Host) (u : Ui) (key : Key) : Ui * bool :=
  let sugs := ui_suggestions h u in
  if negb (openSug u) && match key with ArrowDown | Enter => true | _ => false end
  then (set_open u true, false)
  else if openSug u && negb (Nat.eqb (List.length sugs) 0) then
    match key with
    | ArrowDown => (set_active u (Nat.min (activeSug u + 1) (List.length sugs - 1)), false)
    | ArrowUp => (set_active u (Nat.max (activeSug u - 1) 0), false)
    | Enter =>
        match (match nth_error sugs (activeSug u) with
               | Some c => Some c
               | None => nth_error sugs 0
               end) with
        | Some pick =>
            (set_open (set_app u (selectWithoutZoom h (ctl u) (fips pick) (name pick))) false,
             true)
        | None => (u, false)
        end
    | Escape => (set_open u false, false)
    | OtherKey => (u, false)
    end
  else (u, false).

(** [onMouseDown] of the suggestion [c], line 195. *)
Definition suggestion_mouseDown (h : Host) (u : Ui) (c : County) : Ui :=
  set_open (set_app u (selectWithoutZoom h (ctl u) (fips c) (name c))) false.

(** What can happen to the page. *)
Inductive UiEvent : Type :=
| Typed (value : jsstring)
| KeyDown (key : Key)
| Blur
| BlurTimeout
| SuggestionMouseDown (i : nat)
| RowClick (i : nat)
| GeoClick (g : Geo)
| ListResolved (data : option CountiesResponse)
| ListRejected
| SeriesResolved (i : nat) (data : option SeriesBody)
| SeriesRejected (i : nat).

Definition lift_app (u : Ui) (a : option State) : option Ui :=
  option_map (set_app u) a.

(** One event; [None] when the event cannot happen: a timer that was
    not set, a click on what is not on the page, a response to a request
    that is not in flight.  The popover is on the page when
    [openSug && suggestions.length > 0]; the polygons of the layer are
    those of [texas]. *)
Definition ui_step (h : Host) (u : Ui) (e : UiEvent) : option Ui :=
  match e with
  | Typed value => Some (onChange u value)
  | KeyDown key => Some (fst (onSearchKeyDown h u key))
  | Blur =>
      Some {| ctl := ctl u; q := q u; openSug := openSug u; activeSug := activeSug u;
              blurTimers := S (blurTimers u) |}
  | BlurTimeout =>
      match blurTimers u with
      | O => None
      | S n =>
          Some {| ctl := ctl u; q := q u; openSug := false; activeSug := activeSug u;
                  blurTimers := n |}
      end
  | SuggestionMouseDown i =>
      if openSug u then
        option_map (suggestion_mouseDown h u) (nth_error (ui_suggestions h u) i)
      else None
  | RowClick i =>
      option_map (fun c => set_app u (row_click h (ctl u) c))
                 (nth_error (top_counties (countiesMeta (ctl u))) i)
  | GeoClick g =>
      if JsString.startsWith (geo_fips g) (str "48")
      then Some (set_app u (geo_click h (ctl u) g)) else None
  | ListResolved data => lift_app u (step h (ctl u) (ListResolve data))
  | ListRejected => lift_app u (step h (ctl u) ListReject)
  | SeriesResolved i data => lift_app u (step h (ctl u) (SeriesResolve i data))
  | SeriesRejected i => lift_app u (step h (ctl u) (SeriesReject i))
  end.

Fixpoint ui_steps (h : Host) (u : Ui) (es : list UiEvent) : option Ui :=
  match es with
  | [] => Some u
  | e :: es' =>
      match ui_step h u e with
      | Some u' => ui_steps h u' es'
      | None => None
      end
  end.

End Views.

(** ** Notions used to state the properties of the views *)

Module Props.

Import JsNumber Helpers App Views.

(** A number as a rational; [NaN] counts as 0. *)
Definition num_q (x : JsNum) : Q :=
  match x with
  | Fin q => q
  | NaN => 0
  end.

(** The county passes the filter of [suggestions] for the query [q]. *)
Definition query_matches (h : Host) (q : jsstring) (c : County) : bool :=
  JsString.includes (toLowerCase h (strfield_or (name c) []))
                    (toLowerCase h (JsString.trim q)).

(** The characters of an encoded URI component: the unreserved ones,
    [%] and the upper-case hexadecimal digits. *)
Definition is_upper_hex (c : N) : bool :=
  ((48 <=? c) && (c <=? 57) || (65 <=? c) && (c <=? 70))%N.

Definition url_safe (c : N) : bool :=
  Uri.is_unreserved c || (c =? 37)%N || is_upper_hex c.

(** [s.isWellFormed()]: every surrogate of [s] is half of a pair, a
    high one followed by a low one. *)
Fixpoint isWellFormed (s : jsstring) : bool :=
  match s with
  | [] => true
  | c :: rest =>
      if Uri.is_low_surrogate c then false
      else if Uri.is_high_surrogate c then
        match rest with
        | c2 :: rest' => Uri.is_low_surrogate c2 && isWellFormed rest'
        | [] => false
        end
      else isWellFormed rest
  end.

(** The event is not the arrival of the list. *)
Definition not_list_resolve (e : Event) : Prop :=
  match e with
  | ListResolve _ => False
  | _ => True
  end.

(** The event is not the activation of a county. *)
Definition not_select (e : Event) : Prop :=
  match e with
  | Select _ _ => False
  | _ => True
  end.




Definition is_digit (c : N) : bool := ((48 <=? c) && (c <=? 57))%N.

(** What holds of the state of the component at every moment of a
    session: the loading flag follows the list request; while the list
    request is in flight there is neither a list nor a run; without a
    selection there is no series and no series request. *)
Definition consistent (s : State) : Prop :=
  loading s = listPending s /\
  (listPending s = true -> countiesMeta s = None /\ runId s = None) /\
  (selected s = None -> series s = None /\ sent s = [] /\ pending s = []).

(** The highlighted suggestion exists, or the highlight is on the first
    row. *)
Definition highlight_valid (h : Host) (u : Ui) : Prop :=
  (listPending (ctl u) = true -> countiesMeta (ctl u) = None) /\
  (countiesMeta (ctl u) = None -> activeSug u = 0%nat) /\
  (activeSug u = 0%nat \/ (activeSug u < List.length (ui_suggestions h u))%nat).

(** The events of the search box that are no activation: typing, a key
    other than Enter, Enter on the closed popover, the loss of focus and
    its timer. *)
Definition passive (u : Ui) (e : UiEvent) : Prop :=
  match e with
  | Typed _ | Blur | BlurTimeout => True
  | KeyDown Enter => openSug u = false
  | KeyDown _ => True
  | _ => False
  end.

End Props.
(** * Facts

    ** Binary64 rounding *)

Module Binary64Facts.

Import Binary64.

Lemma two_pow_pos (k : Z) : 0 < 2 ^ k.
Proof. apply Qpower_0_lt. reflexivity. Qed.

Lemma two_pow_succ (k : Z) : 2 ^ (k + 1) == 2 * 2 ^ k.
Proof. rewrite Qpower_plus by discriminate. simpl. ring. Qed.

Lemma two_pow_log2 (n : Z) :
  (0 < n)%Z -> 2 ^ Z.log2 n <= inject_Z n /\ inject_Z n < 2 * 2 ^ Z.log2 n.
Proof.
  intros Hn. destruct (Z.log2_spec n Hn) as [Hlo Hhi].
  pose proof (Z.log2_nonneg n) as Hnn.
  assert (E : inject_Z (2 ^ Z.log2 n) == 2 ^ Z.log2 n)
    by (rewrite Zpower_Qpower by assumption; reflexivity).
  split.
  - rewrite <- E. rewrite <- Zle_Qle. assumption.
  - rewrite <- E. change 2 with (inject_Z 2) at 1. rewrite <- inject_Z_mult.
    rewrite <- Zlt_Qlt. rewrite Z.pow_succ_r in Hhi by assumption. assumption.
Qed.

Lemma ilog2_spec (x : Q) :
  0 < x -> 2 ^ ilog2 x <= x /\ x < 2 ^ (ilog2 x + 1).
Proof.
  intros Hx. unfold ilog2.
  set (a := Z.log2 (Qnum x)). set (b := Z.log2 (Zpos (Qden x))).
  assert (Hp : (0 < Qnum x)%Z).
  { destruct x as [p q]. unfold Qlt in Hx. simpl in *. lia. }
  destruct (two_pow_log2 Hp) as [Ha1 Ha2]. fold a in Ha1, Ha2.
  destruct (@two_pow_log2 (Zpos (Qden x)) eq_refl) as [Hb1 Hb2]. fold b in Hb1, Hb2.
  pose proof (two_pow_pos a) as HA. pose proof (two_pow_pos b) as HB.
  assert (Hx' : x * inject_Z (Zpos (Qden x)) == inject_Z (Qnum x)).
  { destruct x as [p q]. unfold Qeq, Qmult, inject_Z. simpl. lia. }
  assert (HQ : 0 < inject_Z (Zpos (Qden x))) by (unfold Qlt; simpl; lia).
  assert (HT : 2 ^ (a - b) * 2 ^ b == 2 ^ a).
  { rewrite <- Qpower_plus by discriminate. now replace (a - b + b)%Z with a by lia. }
  pose proof (two_pow_pos (a - b)) as HT0.
  destruct (Qle_bool (2 ^ (a - b)) x) eqn:Hc.
  - apply Qle_bool_iff in Hc. split; [assumption|].
    rewrite two_pow_succ. nra.
  - assert (Hlt : x < 2 ^ (a - b)).
    { apply Qnot_le_lt. intros H. apply Qle_bool_iff in H. congruence. }
    replace (a - b - 1 + 1)%Z with (a - b)%Z by lia. split; [|assumption].
    assert (E : 2 ^ (a - b) == 2 * 2 ^ (a - b - 1)).
    { rewrite <- two_pow_succ. now replace (a - b - 1 + 1)%Z with (a - b)%Z by lia. }
    pose proof (two_pow_pos (a - b - 1)). nra.
Qed.

Lemma two_pow_lt_inv (k l : Z) : 2 ^ k < 2 ^ l -> (k < l)%Z.
Proof.
  intros H. destruct (Z_lt_le_dec k l) as [?|Hle]; [assumption|].
  exfalso. apply (Qpower_le_compat_l 2) in Hle; [|discriminate].
  apply (Qlt_irrefl (2 ^ k)). eapply Qlt_le_trans; eassumption.
Qed.

Lemma ilog2_unique (x : Q) (k : Z) :
  2 ^ k <= x -> x < 2 ^ (k + 1) -> ilog2 x = k.
Proof.
  intros Hlo Hhi.
  assert (Hx : 0 < x) by (eapply Qlt_le_trans; [apply two_pow_pos|eassumption]).
  destruct (ilog2_spec Hx) as [Hlo' Hhi'].
  assert (k < ilog2 x + 1)%Z
    by (apply two_pow_lt_inv; eapply Qle_lt_trans; eassumption).
  assert (ilog2 x < k + 1)%Z
    by (apply two_pow_lt_inv; eapply Qle_lt_trans; eassumption).
  lia.
Qed.

Lemma ilog2_comp (x y : Q) : 0 < x -> x == y -> ilog2 x = ilog2 y.
Proof.
  intros Hx E. symmetry. destruct (ilog2_spec Hx) as [Hlo Hhi].
  apply ilog2_unique; rewrite <- E; assumption.
Qed.

Lemma ilog2_mono (x y : Q) : 0 < x -> x <= y -> (ilog2 x <= ilog2 y)%Z.
Proof.
  intros Hx Hxy.
  assert (Hy : 0 < y) by (eapply Qlt_le_trans; eassumption).
  destruct (ilog2_spec Hx) as [Hlo _]. destruct (ilog2_spec Hy) as [_ Hhi].
  assert (ilog2 x < ilog2 y + 1)%Z; [|lia].
  apply two_pow_lt_inv. eapply Qle_lt_trans; [eassumption|].
  eapply Qle_lt_trans; eassumption.
Qed.

Lemma rne_bounds (u : Q) : (Qfloor u <= rne u <= Qfloor u + 1)%Z.
Proof.
  unfold rne. destruct (_ ?= _); [destruct (Z.even _)| |]; lia.
Qed.

Lemma rne_comp (u v : Q) : u == v -> rne u = rne v.
Proof.
  intros E. unfold rne. rewrite (Qfloor_comp _ _ E).
  assert (E' : u - inject_Z (Qfloor v) == v - inject_Z (Qfloor v)) by (rewrite E; reflexivity).
  rewrite (Qcompare_comp _ _ E' (1 # 2) (1 # 2) (Qeq_refl _)). reflexivity.
Qed.

Lemma rne_mono (u v : Q) : u <= v -> (rne u <= rne v)%Z.
Proof.
  intros Huv. pose proof (Qfloor_resp_le _ _ Huv) as Hf.
  destruct (Z.eq_dec (Qfloor u) (Qfloor v)) as [E|NE].
  - unfold rne. rewrite E.
    destruct (Qcompare_spec (u - inject_Z (Qfloor v)) (1 # 2)) as [H1|H1|H1];
      destruct (Qcompare_spec (v - inject_Z (Qfloor v)) (1 # 2)) as [H2|H2|H2];
      try destruct (Z.even (Qfloor v)); try lia; exfalso; lra.
  - pose proof (rne_bounds u). pose proof (rne_bounds v). lia.
Qed.

Lemma rne_inject_Z (z : Z) : rne (inject_Z z) = z.
Proof.
  unfold rne. rewrite Qfloor_Z.
  destruct (Qcompare_spec (inject_Z z - inject_Z z) (1 # 2)) as [H|H|H];
    [exfalso; lra | reflexivity | exfalso; lra].
Qed.

(** The significand of a positive number lies in [2^52, 2^53]. *)
Lemma significand_range (x : Q) :
  0 < x ->
  (2 ^ 52 <= rne (x / 2 ^ (ilog2 x - 52)) <= 2 ^ 53)%Z.
Proof.
  intros Hx. destruct (ilog2_spec Hx) as [Hlo Hhi].
  set (e := (ilog2 x - 52)%Z) in *.
  pose proof (two_pow_pos e) as He.
  assert (E1 : 2 ^ ilog2 x == inject_Z (2 ^ 52) * 2 ^ e).
  { unfold e. rewrite Qpower_minus by discriminate.
    change (2 ^ 52)%Q with (inject_Z (2 ^ 52)). field. discriminate. }
  assert (E2 : 2 ^ (ilog2 x + 1) == inject_Z (2 ^ 53) * 2 ^ e).
  { rewrite two_pow_succ, E1. change (inject_Z (2 ^ 53)) with (2 * inject_Z (2 ^ 52)). ring. }
  assert (H1 : inject_Z (2 ^ 52) <= x / 2 ^ e).
  { apply Qle_shift_div_l; [assumption|]. rewrite <- E1. assumption. }
  assert (H2 : x / 2 ^ e < inject_Z (2 ^ 53)).
  { apply Qlt_shift_div_r; [assumption|]. rewrite <- E2. assumption. }
  pose proof (rne_bounds (x / 2 ^ e)) as Hb.
  apply Qfloor_resp_le in H1. rewrite Qfloor_Z in H1.
  assert (Qfloor (x / 2 ^ e) < 2 ^ 53)%Z.
  { rewrite Zlt_Qlt. eapply Qle_lt_trans; [apply Qfloor_le|assumption]. }
  lia.
Qed.

Lemma round_pos_value (x : Q) :
  round_pos x == inject_Z (rne (x / 2 ^ (ilog2 x - 52))) * 2 ^ (ilog2 x - 52).
Proof. unfold round_pos. apply Qred_correct. Qed.

Lemma round_pos_comp (x y : Q) : 0 < x -> x == y -> round_pos x = round_pos y.
Proof.
  intros Hx E. unfold round_pos. apply Qred_complete.
  rewrite (ilog2_comp Hx E).
  rewrite (@rne_comp (x / 2 ^ (ilog2 y - 52)) (y / 2 ^ (ilog2 y - 52)))
    by (rewrite E; reflexivity).
  reflexivity.
Qed.

Lemma round_pos_pos (x : Q) : 0 < x -> 0 < round_pos x.
Proof.
  intros Hx. rewrite round_pos_value.
  pose proof (significand_range Hx) as [Hm _].
  pose proof (two_pow_pos (ilog2 x - 52)).
  apply Qmult_lt_0_compat; [|assumption].
  change 0 with (inject_Z 0). rewrite <- Zlt_Qlt. lia.
Qed.

Lemma round_pos_mono (x y : Q) : 0 < x -> x <= y -> round_pos x <= round_pos y.
Proof.
  intros Hx Hxy.
  assert (Hy : 0 < y) by (eapply Qlt_le_trans; eassumption).
  rewrite !round_pos_value.
  pose proof (ilog2_mono Hx Hxy) as He.
  pose proof (significand_range Hx) as [_ Hmx].
  pose proof (significand_range Hy) as [Hmy _].
  set (ex := (ilog2 x - 52)%Z) in *. set (ey := (ilog2 y - 52)%Z) in *.
  pose proof (two_pow_pos ex) as Hpx. pose proof (two_pow_pos ey) as Hpy.
  destruct (Z.eq_dec ex ey) as [E|NE].
  - rewrite E. apply Qmult_le_compat_r; [|apply Qlt_le_weak; assumption].
    rewrite <- Zle_Qle. apply rne_mono.
    apply Qmult_le_compat_r; [assumption|].
    apply Qlt_le_weak, Qinv_lt_0_compat. rewrite <- E. assumption.
  - assert (Hlt : (ex + 1 <= ey)%Z) by (unfold ex, ey in *; lia).
    apply (Qpower_le_compat_l 2) in Hlt; [|discriminate].
    rewrite two_pow_succ in Hlt.
    apply Qle_trans with (inject_Z (2 ^ 53) * 2 ^ ex).
    + apply Qmult_le_compat_r; [|apply Qlt_le_weak; assumption].
      rewrite <- Zle_Qle. assumption.
    + apply Qle_trans with (inject_Z (2 ^ 52) * 2 ^ ey).
      * change (inject_Z (2 ^ 53)) with (2 * inject_Z (2 ^ 52)).
        assert (0 < inject_Z (2 ^ 52)) by reflexivity. nra.
      * apply Qmult_le_compat_r; [|apply Qlt_le_weak; assumption].
        rewrite <- Zle_Qle. assumption.
Qed.

Lemma fl_comp (x y : Q) : x == y -> fl x = fl y.
Proof.
  intros E. unfold fl. rewrite (Qcompare_comp _ _ E 0 0 (Qeq_refl 0)).
  destruct (Qcompare_spec y 0) as [H|H|H].
  - reflexivity.
  - f_equal. f_equal. apply round_pos_comp; [|rewrite E; reflexivity].
    rewrite E. lra.
  - apply round_pos_comp; [rewrite E|]; assumption.
Qed.

Lemma fl_pos (x : Q) : 0 < x -> 0 < fl x.
Proof.
  intros Hx. unfold fl. destruct (Qcompare_spec x 0) as [H|H|H]; try (exfalso; lra).
  apply round_pos_pos; assumption.
Qed.

Lemma Qred_involutive (q : Q) : Qred (Qred q) = Qred q.
Proof. apply Qred_complete, Qred_correct. Qed.

Lemma Qopp_opp_eq (q : Q) : - - q = q.
Proof. destruct q as [a b]. unfold Qopp. simpl. now rewrite Z.opp_involutive. Qed.

Lemma fl_opp (x : Q) : fl (- x) = Qred (- fl x).
Proof.
  unfold fl. destruct (Qcompare_spec x 0) as [H|H|H];
    destruct (Qcompare_spec (- x) 0) as [H'|H'|H']; try (exfalso; lra).
  - reflexivity.
  - rewrite !Qred_opp, Qopp_opp_eq. unfold round_pos.
    rewrite !Qred_involutive. reflexivity.
  - rewrite Qopp_opp_eq. reflexivity.
Qed.


Lemma fl_neg (x : Q) : x < 0 -> fl x < 0.
Proof.
  intros Hx. assert (H : 0 < fl (- x)) by (apply fl_pos; lra).
  rewrite fl_opp, Qred_correct in H. lra.
Qed.

Lemma fl_zero (x : Q) : x == 0 -> fl x = 0.
Proof. intros E. rewrite (fl_comp E). reflexivity. Qed.

Lemma fl_mono (x y : Q) : x <= y -> fl x <= fl y.
Proof.
  intros Hxy. destruct (Qcompare_spec x 0) as [Hx|Hx|Hx];
    destruct (Qcompare_spec y 0) as [Hy|Hy|Hy]; try (exfalso; lra).
  - rewrite (fl_zero Hx), (fl_zero Hy). lra.
  - rewrite (fl_zero Hx). apply Qlt_le_weak, fl_pos; assumption.
  - rewrite (fl_zero Hy). apply Qlt_le_weak, fl_neg; assumption.
  - assert (H : fl (- y) <= fl (- x)).
    { unfold fl. destruct (Qcompare_spec (- y) 0); try (exfalso; lra).
      destruct (Qcompare_spec (- x) 0); try (exfalso; lra).
      apply round_pos_mono; lra. }
    rewrite !fl_opp, !Qred_correct in H. lra.
  - apply Qlt_le_weak. apply Qlt_trans with 0; [apply fl_neg|apply fl_pos]; assumption.
  - unfold fl. destruct (Qcompare_spec x 0); try (exfalso; lra).
    destruct (Qcompare_spec y 0); try (exfalso; lra).
    apply round_pos_mono; assumption.
Qed.

Lemma fl_canonical (x : Q) : Qred (fl x) = fl x.
Proof.
  unfold fl. destruct (x ?= 0); [reflexivity| |]; unfold round_pos;
    rewrite ?Qred_involutive; reflexivity.
Qed.

(** The sign of a rounded number is the sign of the number. *)
Lemma fl_sign (x : Q) : (fl x ?= 0) = (x ?= 0).
Proof.
  destruct (Qcompare_spec x 0) as [H|H|H].
  - rewrite (fl_zero H). reflexivity.
  - apply Qlt_alt, fl_neg; assumption.
  - apply Qgt_alt, fl_pos; assumption.
Qed.

(** *** The rounding is a rounding *)

(** A number of 53 significant bits is its own rounding. *)
Lemma fl_representable (m e : Z) :
  (2 ^ 52 <= m < 2 ^ 53)%Z -> fl (inject_Z m * 2 ^ e) == inject_Z m * 2 ^ e.
Proof.
  intros Hm. pose proof (two_pow_pos e) as He.
  assert (Hpos : 0 < inject_Z m * 2 ^ e).
  { apply Qmult_lt_0_compat; [|assumption]. change 0 with (inject_Z 0).
    rewrite <- Zlt_Qlt. lia. }
  unfold fl. destruct (Qcompare_spec (inject_Z m * 2 ^ e) 0) as [H|H|H];
    try (exfalso; lra).
  rewrite round_pos_value.
  assert (El : ilog2 (inject_Z m * 2 ^ e) = (e + 52)%Z).
  { apply ilog2_unique.
    - rewrite Qpower_plus by discriminate.
      change (2 ^ 52) with (inject_Z (2 ^ 52)).
      assert (inject_Z (2 ^ 52) <= inject_Z m) by (rewrite <- Zle_Qle; lia). nra.
    - replace (e + 52 + 1)%Z with (e + 53)%Z by lia. rewrite Qpower_plus by discriminate.
      change (2 ^ 53) with (inject_Z (2 ^ 53)).
      assert (inject_Z m < inject_Z (2 ^ 53)) by (rewrite <- Zlt_Qlt; lia). nra. }
  rewrite El. replace (e + 52 - 52)%Z with e by lia.
  rewrite (@rne_comp (inject_Z m * 2 ^ e / 2 ^ e) (inject_Z m)) by (field; lra).
  now rewrite rne_inject_Z.
Qed.

(** Rounding twice is rounding once. *)
Lemma fl_idempotent (x : Q) : fl (fl x) = fl x.
Proof.
  assert (P : forall y, 0 < y -> fl (round_pos y) == round_pos y).
  { intros y Hy. pose proof (significand_range Hy) as [Hlo Hhi].
    set (e := (ilog2 y - 52)%Z) in *. set (m := rne (y / 2 ^ e)) in *.
    rewrite (fl_comp (round_pos_value y)). fold e m.
    apply Qeq_trans with (inject_Z m * 2 ^ e);
      [|symmetry; apply round_pos_value].
    destruct (Z.eq_dec m (2 ^ 53)) as [E|NE].
    - assert (E2 : inject_Z m * 2 ^ e == inject_Z (2 ^ 52) * 2 ^ (e + 1)).
      { rewrite E, two_pow_succ. change (inject_Z (2 ^ 53)) with (2 * inject_Z (2 ^ 52)).
        ring. }
      rewrite (fl_comp E2), E2. apply fl_representable. lia.
    - apply fl_representable. lia. }
  transitivity (Qred (fl (fl x))); [symmetry; apply fl_canonical|].
  transitivity (Qred (fl x)); [|apply fl_canonical].
  apply Qred_complete. unfold fl at 2 3.
  destruct (Qcompare_spec x 0) as [H|H|H].
  - reflexivity.
  - rewrite (fl_comp (Qred_correct _)), fl_opp, !Qred_correct, P by lra. reflexivity.
  - apply P. assumption.
Qed.


End Binary64Facts.

(** ** Decimal digits *)

Module DigitsFacts.

Import JsString.
Local Open Scope N_scope.

Lemma digits_value_from (s : jsstring) :
  forall acc,
    fold_left (fun a c => 10 * a + (c - 48)) s acc
    = acc * 10 ^ N.of_nat (List.length s) + digits_value s.
Proof.
  unfold digits_value. induction s as [|c s IH]; intros acc.
  - simpl. lia.
  - cbn [fold_left List.length]. rewrite IH, (IH (10 * 0 + (c - 48))).
    rewrite Nat2N.inj_succ, N.pow_succ_r'. lia.
Qed.

Lemma digits_value_app (a b : jsstring) :
  digits_value (a ++ b) = digits_value a * 10 ^ N.of_nat (List.length b) + digits_value b.
Proof. unfold digits_value at 1. rewrite fold_left_app. apply digits_value_from. Qed.

Lemma digits_value_cons (c : N) (s : jsstring) :
  digits_value (c :: s) = (c - 48) * 10 ^ N.of_nat (List.length s) + digits_value s.
Proof. change (c :: s) with ([c] ++ s). rewrite digits_value_app. reflexivity. Qed.

Lemma digits_value_zeros (k : nat) (s : jsstring) :
  digits_value (repeat 48 k ++ s) = digits_value s.
Proof.
  induction k as [|k IH]; [reflexivity|]. cbn [repeat app].
  rewrite digits_value_cons, IH. lia.
Qed.

Lemma digit_code (d : N) : 48 + d - 48 = d.
Proof. lia. Qed.

Lemma digits_fuel_value (fuel : nat) :
  forall n acc,
    n < 10 ^ N.of_nat fuel ->
    digits_value (digits_fuel fuel n acc)
    = n * 10 ^ N.of_nat (List.length acc) + digits_value acc.
Proof.
  induction fuel as [|fuel IH]; intros n acc Hn.
  - simpl in *. assert (n = 0) by lia. subst. lia.
  - cbn [digits_fuel]. rewrite Nat2N.inj_succ, N.pow_succ_r' in Hn.
    pose proof (N.div_mod n 10 ltac:(discriminate)) as Hdm.
    pose proof (N.mod_upper_bound n 10 ltac:(discriminate)) as Hm.
    destruct (N.ltb_spec n 10) as [Hs|Hs].
    + rewrite digits_value_cons. rewrite digit_code.
      rewrite N.mod_small by assumption. reflexivity.
    + rewrite IH by (apply N.Div0.div_lt_upper_bound; lia).
      rewrite digits_value_cons. rewrite digit_code.
      cbn [List.length]. rewrite Nat2N.inj_succ, N.pow_succ_r'.
      set (p := 10 ^ N.of_nat (List.length acc)).
      set (a := n / 10) in *. set (b := n mod 10) in *. clearbody a b.
      rewrite Hdm. ring.
Qed.

(** The digits of [n] denote [n]. *)
Lemma digits_value_of_N (n : N) : digits_value (of_N n) = n.
Proof.
  unfold of_N. rewrite digits_fuel_value;
    [change (digits_value []) with 0; change (N.of_nat (List.length (@nil N))) with 0;
     rewrite N.pow_0_r; lia|].
  rewrite Nat2N.inj_succ, N2Nat.id.
  destruct (N.eq_dec n 0) as [->|Hn]; [reflexivity|].
  apply N.lt_le_trans with (2 ^ N.succ (N.log2 n)).
  - apply N.log2_spec. lia.
  - apply N.pow_le_mono_l. lia.
Qed.

End DigitsFacts.

(** ** URI encoding *)

Module UriFacts.

Import Uri.
Local Open Scope N_scope.
Local Open Scope list_scope.

(** *** Small ranges, by enumeration *)

Lemma forall_below (n : nat) (p : N -> bool) :
  forallb p (map N.of_nat (seq 0 n)) = true ->
  forall x, x < N.of_nat n -> p x = true.
Proof.
  intros H x Hx. rewrite forallb_forall in H. apply H.
  rewrite <- (N2Nat.id x). apply in_map, in_seq. lia.
Qed.

Lemma hex_roundtrip (x : N) : x < 16 -> hex_value (hex_digit x) = Some x.
Proof.
  intros Hx.
  pose proof (@forall_below 16
                (fun x => match hex_value (hex_digit x) with
                          | Some y => y =? x | None => false end)
                eq_refl x Hx) as H.
  simpl in H. destruct (hex_value (hex_digit x)); [|discriminate].
  apply N.eqb_eq in H. now subst.
Qed.

Lemma lead_bits (k m : N) (x : N) :
  (k, m) = (128, 64) \/ (k, m) = (192, 32) \/ (k, m) = (224, 16) \/ (k, m) = (240, 8) ->
  x < m -> N.lor k x = k + x /\ N.land (k + x) (m - 1) = x.
Proof.
  intros Hk Hx.
  assert (H : lead_ok k m x = true).
  { destruct Hk as [E|[E|[E|E]]]; injection E as -> ->.
    - exact (@forall_below 64 (lead_ok 128 64) eq_refl x ltac:(lia)).
    - exact (@forall_below 32 (lead_ok 192 32) eq_refl x ltac:(lia)).
    - exact (@forall_below 16 (lead_ok 224 16) eq_refl x ltac:(lia)).
    - exact (@forall_below 8 (lead_ok 240 8) eq_refl x ltac:(lia)). }
  unfold lead_ok in H. apply andb_true_iff in H as [H1 H2].
  apply N.eqb_eq in H1, H2. now split.
Qed.

(** *** Six bits at a time *)

Lemma split6 (v : N) : N.lor (N.shiftl (N.shiftr v 6) 6) (N.land v 63) = v.
Proof.
  change 63 with (N.ones 6). rewrite <- N.ldiff_ones_r. apply N.lor_ldiff_and.
Qed.

Lemma split12 (v : N) :
  N.lor (N.shiftl (N.shiftr v 12) 12)
        (N.lor (N.shiftl (N.land (N.shiftr v 6) 63) 6) (N.land v 63)) = v.
Proof.
  rewrite N.lor_assoc.
  change 12 with (6 + 6) at 2. rewrite <- N.shiftl_shiftl, <- N.shiftl_lor.
  change 12 with (6 + 6). rewrite <- N.shiftr_shiftr. rewrite split6. apply split6.
Qed.

Lemma split18 (v : N) :
  N.lor (N.shiftl (N.shiftr v 18) 18)
        (N.lor (N.shiftl (N.land (N.shiftr v 12) 63) 12)
               (N.lor (N.shiftl (N.land (N.shiftr v 6) 63) 6) (N.land v 63))) = v.
Proof.
  pose proof (split12 (N.shiftr v 6)) as Ew. rewrite !N.shiftr_shiftr in Ew.
  change (6 + 12) with 18 in Ew. change (6 + 6) with 12 in Ew.
  pose proof (split6 v) as E6.
  set (h := N.shiftr v 18) in *. set (m1 := N.land (N.shiftr v 12) 63) in *.
  set (m2 := N.land (N.shiftr v 6) 63) in *. set (l := N.land v 63) in *.
  rewrite <- Ew in E6. rewrite !N.shiftl_lor, !N.shiftl_shiftl in E6.
  change (12 + 6) with 18 in E6. change (6 + 6) with 12 in E6.
  etransitivity; [|exact E6]. now rewrite !N.lor_assoc.
Qed.


(** *** One code point *)

Lemma shiftr_bounds (v : N) :
  N.shiftr v 6 = v / 64 /\ N.shiftr v 12 = v / 4096 /\ N.shiftr v 18 = v / 262144 /\
  N.land v 63 < 64 /\ N.land (N.shiftr v 6) 63 < 64 /\ N.land (N.shiftr v 12) 63 < 64.
Proof.
  rewrite !N.shiftr_div_pow2. change 63 with (N.ones 6). rewrite !N.land_ones.
  change (2 ^ 6) with 64. change (2 ^ 12) with 4096. change (2 ^ 18) with 262144.
  repeat split; try reflexivity; apply N.mod_upper_bound; discriminate.
Qed.

Lemma decode_utf8 (v : N) (ts : list Token) :
  v <= 1114111 -> ~ (55296 <= v /\ v <= 57343) ->
  decode_tokens (map Octet (utf8 v) ++ ts) = option_map (app (units v)) (decode_tokens ts).
Proof.
  intros Hmax Hsur. destruct (shiftr_bounds v) as (E6 & E12 & E18 & Hl & Hm & Hh).
  unfold utf8.
  destruct (N.ltb_spec v 128) as [H1|H1].
  { cbn [map app decode_tokens]. rewrite (proj2 (N.ltb_lt v 128) H1). unfold units.
    rewrite (proj2 (N.ltb_lt v 65536)) by lia. reflexivity. }
  destruct (N.ltb_spec v 2048) as [H2|H2].
  { assert (Hhi : N.shiftr v 6 < 32) by (rewrite E6; apply N.Div0.div_lt_upper_bound; lia).
    assert (Hlo : 2 <= N.shiftr v 6) by (rewrite E6; apply N.div_le_lower_bound; lia).
    destruct (@lead_bits 192 32 (N.shiftr v 6)) as [L1 L2]; [auto | assumption|].
    destruct (@lead_bits 128 64 (N.land v 63)) as [L3 L4]; [auto | assumption|].
    cbn [map app decode_tokens]. rewrite L1, L3.
    replace (192 + N.shiftr v 6 <? 128) with false by (symmetry; apply N.ltb_ge; lia).
    replace ((194 <=? 192 + N.shiftr v 6) && (192 + N.shiftr v 6 <=? 223)) with true
      by (symmetry; apply andb_true_iff; split; apply N.leb_le; lia).
    replace (is_continuation (128 + N.land v 63)) with true
      by (symmetry; apply andb_true_iff; split; apply N.leb_le; lia).
    change (32 - 1) with 31 in L2. change (64 - 1) with 63 in L4.
    rewrite L2, L4, split6. reflexivity. }
  destruct (N.ltb_spec v 65536) as [H3|H3].
  { assert (Hhi : N.shiftr v 12 < 16) by (rewrite E12; apply N.Div0.div_lt_upper_bound; lia).
    destruct (@lead_bits 224 16 (N.shiftr v 12)) as [L1 L2]; [auto | assumption|].
    destruct (@lead_bits 128 64 (N.land (N.shiftr v 6) 63)) as [L3 L4]; [auto | assumption|].
    destruct (@lead_bits 128 64 (N.land v 63)) as [L5 L6]; [auto | assumption|].
    cbn [map app decode_tokens]. rewrite L1, L3, L5.
    replace (224 + N.shiftr v 12 <? 128) with false by (symmetry; apply N.ltb_ge; lia).
    replace ((194 <=? 224 + N.shiftr v 12) && (224 + N.shiftr v 12 <=? 223)) with false
      by (symmetry; apply andb_false_iff; right; apply N.leb_gt; lia).
    replace ((224 <=? 224 + N.shiftr v 12) && (224 + N.shiftr v 12 <=? 239)) with true
      by (symmetry; apply andb_true_iff; split; apply N.leb_le; lia).
    change (16 - 1) with 15 in L2. change (64 - 1) with 63 in L4, L6.
    rewrite L2, L4, L6, split12.
    replace (is_continuation (128 + N.land (N.shiftr v 6) 63)) with true
      by (symmetry; apply andb_true_iff; split; apply N.leb_le; lia).
    replace (is_continuation (128 + N.land v 63)) with true
      by (symmetry; apply andb_true_iff; split; apply N.leb_le; lia).
    replace (2048 <=? v) with true by (symmetry; apply N.leb_le; lia).
    replace ((55296 <=? v) && (v <=? 57343)) with false.
    - reflexivity.
    - symmetry. apply andb_false_iff.
      destruct (N.leb_spec 55296 v); [right; apply N.leb_gt; lia | now left]. }
  assert (Hhi : N.shiftr v 18 < 5) by (rewrite E18; apply N.Div0.div_lt_upper_bound; lia).
  destruct (@lead_bits 240 8 (N.shiftr v 18)) as [L1 L2]; [auto | lia|].
  destruct (@lead_bits 128 64 (N.land (N.shiftr v 12) 63)) as [L3 L4]; [auto | assumption|].
  destruct (@lead_bits 128 64 (N.land (N.shiftr v 6) 63)) as [L5 L6]; [auto | assumption|].
  destruct (@lead_bits 128 64 (N.land v 63)) as [L7 L8]; [auto | assumption|].
  cbn [map app decode_tokens]. rewrite L1, L3, L5, L7.
  replace (240 + N.shiftr v 18 <? 128) with false by (symmetry; apply N.ltb_ge; lia).
  replace ((194 <=? 240 + N.shiftr v 18) && (240 + N.shiftr v 18 <=? 223)) with false
    by (symmetry; apply andb_false_iff; right; apply N.leb_gt; lia).
  replace ((224 <=? 240 + N.shiftr v 18) && (240 + N.shiftr v 18 <=? 239)) with false
    by (symmetry; apply andb_false_iff; right; apply N.leb_gt; lia).
  replace ((240 <=? 240 + N.shiftr v 18) && (240 + N.shiftr v 18 <=? 244)) with true
    by (symmetry; apply andb_true_iff; split; apply N.leb_le; lia).
  change (8 - 1) with 7 in L2. change (64 - 1) with 63 in L4, L6, L8.
  rewrite L2, L4, L6, L8, split18.
  replace (is_continuation (128 + N.land (N.shiftr v 12) 63)) with true
    by (symmetry; apply andb_true_iff; split; apply N.leb_le; lia).
  replace (is_continuation (128 + N.land (N.shiftr v 6) 63)) with true
    by (symmetry; apply andb_true_iff; split; apply N.leb_le; lia).
  replace (is_continuation (128 + N.land v 63)) with true
    by (symmetry; apply andb_true_iff; split; apply N.leb_le; lia).
  replace (65536 <=? v) with true by (symmetry; apply N.leb_le; lia).
  replace (v <=? 1114111) with true by (symmetry; apply N.leb_le; lia).
  reflexivity.
Qed.


(** *** Percent signs *)

Lemma utf8_octets (v : N) : v <= 1114111 -> Forall (fun b => b < 256) (utf8 v).
Proof.
  intros Hmax. destruct (shiftr_bounds v) as (E6 & E12 & E18 & Hl & Hm & Hh).
  assert (C : forall x, x < 64 -> N.lor 128 x < 256).
  { intros x Hx. destruct (@lead_bits 128 64 x) as [-> _]; [auto | assumption | lia]. }
  unfold utf8.
  destruct (N.ltb_spec v 128); [repeat constructor; lia|].
  destruct (N.ltb_spec v 2048).
  { assert (N.shiftr v 6 < 32) by (rewrite E6; apply N.Div0.div_lt_upper_bound; lia).
    destruct (@lead_bits 192 32 (N.shiftr v 6)) as [-> _]; [auto | assumption|].
    repeat constructor; [lia | now apply C]. }
  destruct (N.ltb_spec v 65536).
  { assert (N.shiftr v 12 < 16) by (rewrite E12; apply N.Div0.div_lt_upper_bound; lia).
    destruct (@lead_bits 224 16 (N.shiftr v 12)) as [-> _]; [auto | assumption|].
    repeat constructor; [lia | now apply C | now apply C]. }
  assert (N.shiftr v 18 < 5) by (rewrite E18; apply N.Div0.div_lt_upper_bound; lia).
  destruct (@lead_bits 240 8 (N.shiftr v 18)) as [-> _]; [auto | lia|].
  repeat constructor; [lia | now apply C | now apply C | now apply C].
Qed.

Lemma tokens_percent (b : N) (r : jsstring) :
  b < 256 -> tokens (percent b ++ r) = option_map (cons (Octet b)) (tokens r).
Proof.
  intros Hb. unfold percent. cbn [app tokens]. rewrite N.eqb_refl.
  rewrite !hex_roundtrip.
  - now rewrite <- (N.div_mod b 16) by discriminate.
  - apply N.mod_upper_bound. discriminate.
  - apply N.Div0.div_lt_upper_bound. lia.
Qed.

Lemma tokens_octets (bs : list N) (r : jsstring) :
  Forall (fun b => b < 256) bs ->
  tokens (concat (map percent bs) ++ r) = option_map (app (map Octet bs)) (tokens r).
Proof.
  induction 1 as [|b bs Hb _ IH]; cbn [concat map].
  - simpl. now destruct (tokens r).
  - rewrite <- app_assoc, tokens_percent, IH by assumption. now destruct (tokens r).
Qed.

Lemma tokens_unreserved (c : N) (r : jsstring) :
  is_unreserved c = true -> tokens (c :: r) = option_map (cons (Lit c)) (tokens r).
Proof.
  intros Hc. cbn [tokens]. destruct (N.eqb_spec c 37) as [->|_]; [discriminate | reflexivity].
Qed.

(** *** A surrogate pair *)

Lemma surrogate_pair (c c2 : N) :
  is_high_surrogate c = true -> is_low_surrogate c2 = true ->
  let v := (c - 55296) * 1024 + (c2 - 56320) + 65536 in
  v <= 1114111 /\ ~ (55296 <= v /\ v <= 57343) /\ units v = [c; c2].
Proof.
  intros Hc Hc2. apply andb_true_iff in Hc as [H1 H2]. apply andb_true_iff in Hc2 as [H3 H4].
  apply N.leb_le in H1, H2, H3, H4. intros v.
  split; [unfold v; lia|]. split; [unfold v; lia|].
  unfold units. replace (v <? 65536) with false by (symmetry; apply N.ltb_ge; unfold v; lia).
  replace (v - 65536) with ((c - 55296) * 1024 + (c2 - 56320)) by (unfold v; lia).
  rewrite N.shiftr_div_pow2. change 1023 with (N.ones 10). rewrite N.land_ones.
  change (2 ^ 10) with 1024.
  rewrite N.div_add_l by discriminate. rewrite (N.div_small (c2 - 56320)) by lia.
  replace ((c - 55296) * 1024 + (c2 - 56320)) with ((c2 - 56320) + (c - 55296) * 1024)
    by lia.
  rewrite N.Div0.mod_add, N.mod_small by lia.
  f_equal; [lia|]. f_equal. lia.
Qed.

(** *** The round trip *)

Lemma decode_encode_bounded (n : nat) :
  forall s e,
    (List.length s <= n)%nat -> well_formed s ->
    encodeURIComponent s = Some e ->
    exists ts, tokens e = Some ts /\ decode_tokens ts = Some s.
Proof.
  induction n as [|n IH]; intros s e Hn Hwf He.
  - destruct s; [|simpl in Hn; lia]. injection He as <-. exists []. split; reflexivity.
  - destruct s as [|c rest]; [injection He as <-; exists []; split; reflexivity|].
    inversion Hwf as [|? ? Hc Hrest]; subst. cbn [encodeURIComponent] in He.
    destruct (is_unreserved c) eqn:Eu.
    { destruct (encodeURIComponent rest) as [e'|] eqn:Ee; [|discriminate].
      injection He as <-.
      destruct (IH rest e') as (ts & Ht & Hd); [simpl in Hn; lia | assumption | assumption |].
      exists (Lit c :: ts). rewrite tokens_unreserved, Ht by assumption. split; [reflexivity|].
      cbn [decode_tokens]. now rewrite Hd. }
    destruct (is_low_surrogate c) eqn:El; [discriminate|].
    destruct (is_high_surrogate c) eqn:Eh.
    { destruct rest as [|c2 rest']; [discriminate|].
      destruct (is_low_surrogate c2) eqn:El2; [|discriminate].
      destruct (encodeURIComponent rest') as [e'|] eqn:Ee; [|discriminate].
      injection He as <-.
      inversion Hrest as [|? ? Hc2 Hrest']; subst.
      destruct (IH rest' e') as (ts & Ht & Hd); [simpl in Hn; lia | assumption | assumption |].
      destruct (surrogate_pair c c2 Eh El2) as (Hmax & Hsur & Hu).
      set (v := (c - 55296) * 1024 + (c2 - 56320) + 65536) in *.
      exists (map Octet (utf8 v) ++ ts). unfold escape.
      rewrite tokens_octets, Ht by (apply utf8_octets; assumption). split; [reflexivity|].
      rewrite decode_utf8, Hd, Hu by assumption. reflexivity. }
    destruct (encodeURIComponent rest) as [e'|] eqn:Ee; [|discriminate].
    injection He as <-.
    destruct (IH rest e') as (ts & Ht & Hd); [simpl in Hn; lia | assumption | assumption |].
    assert (Hsur : ~ (55296 <= c /\ c <= 57343)).
    { intros [Ha Hb]. unfold is_low_surrogate, is_high_surrogate in El, Eh.
      apply andb_false_iff in El, Eh.
      destruct El as [El|El], Eh as [Eh|Eh];
        try apply N.leb_gt in El; try apply N.leb_gt in Eh; lia. }
    exists (map Octet (utf8 c) ++ ts). unfold escape.
    rewrite tokens_octets, Ht by (apply utf8_octets; lia). split; [reflexivity|].
    rewrite decode_utf8, Hd by (assumption || lia). unfold units.
    rewrite (proj2 (N.ltb_lt c 65536) Hc). reflexivity.
Qed.

(** What [encodeURIComponent] produces, [decodeURIComponent] reads
    back. *)
Lemma decode_encode (s e : jsstring) :
  well_formed s -> encodeURIComponent s = Some e -> decodeURIComponent e = Some s.
Proof.
  intros Hwf He. destruct (@decode_encode_bounded (List.length s) s e) as (ts & Ht & Hd);
    [lia | assumption | assumption |].
  unfold decodeURIComponent. now rewrite Ht.
Qed.

End UriFacts.

(** ** The selection and run-consistency controller *)

Module ControllerFacts.

Import App Spec.
Local Open Scope nat_scope.

(** *** What each event does to the run identifier and to the requests *)

Lemma issued_since_same (P : Request -> Prop) (s s' : State) :
  sent s' = sent s -> issued_since P s s'.
Proof. intros E. exists []. split; [now rewrite app_nil_r | constructor]. Qed.

Lemma issued_since_refl (P : Request -> Prop) (s : State) : issued_since P s s.
Proof. now apply issued_since_same. Qed.

Lemma issued_since_trans (P : Request -> Prop) (s1 s2 s3 : State) :
  issued_since P s1 s2 -> issued_since P s2 s3 -> issued_since P s1 s3.
Proof.
  intros (n1 & E1 & F1) (n2 & E2 & F2). exists (n1 ++ n2). split.
  - now rewrite E2, E1, app_assoc.
  - apply Forall_app; split; assumption.
Qed.

Lemma loadCounty_runId (h : Host) (s : State) (f n : jsstring) :
  runId (loadCounty h s f n) = runId s /\
  listPending (loadCounty h s f n) = listPending s /\
  countiesMeta (loadCounty h s f n) = countiesMeta s.
Proof. unfold loadCounty. destruct (run_suffix (runId s)); simpl; auto. Qed.

Lemma loadCounty_issued (h : Host) (s : State) (f n : jsstring) (P : Request -> Prop) :
  (forall q, run_suffix (runId s) = Some q ->
             P {| url := series_url h f q; req_fips := f; req_name := n |}) ->
  issued_since P s (loadCounty h s f n).
Proof.
  intros HP. unfold loadCounty. destruct (run_suffix (runId s)) as [q|] eqn:E; simpl.
  - exists [{| url := series_url h f q; req_fips := f; req_name := n |}].
    split; [reflexivity|]. constructor; [apply HP; reflexivity | constructor].
  - now apply issued_since_same.
Qed.

(** Every event other than the list response leaves [runId] alone. *)
Lemma step_runId (h : Host) (s s' : State) (e : Event) :
  listPending s = false -> step h s e = Some s' ->
  listPending s' = false /\ runId s' = runId s.
Proof.
  intros Hl Hs. destruct e; simpl in Hs.
  - rewrite Hl in Hs. discriminate.
  - rewrite Hl in Hs. discriminate.
  - injection Hs as <-. unfold selectWithoutZoom.
    destruct (loadCounty_runId h s fips0 (shown_name s fips0 fallbackName))
      as (-> & -> & _). auto.
  - destruct (nth_error (pending s) i); [|discriminate]. injection Hs as <-.
    destruct data; simpl; auto.
  - destruct (nth_error (pending s) i); [|discriminate]. injection Hs as <-.
    simpl. auto.
Qed.

Lemma step_issued (h : Host) (s s' : State) (e : Event) (P : Request -> Prop) :
  (forall f n q, run_suffix (runId s) = Some q ->
                 P {| url := series_url h f q; req_fips := f; req_name := n |}) ->
  step h s e = Some s' -> issued_since P s s'.
Proof.
  intros HP Hs. destruct e; simpl in Hs.
  - destruct (listPending s); [|discriminate]. injection Hs as <-.
    now apply issued_since_same.
  - destruct (listPending s); [|discriminate]. injection Hs as <-.
    now apply issued_since_same.
  - injection Hs as <-. apply loadCounty_issued. intros q Hq. apply HP. assumption.
  - destruct (nth_error (pending s) i); [|discriminate]. injection Hs as <-.
    apply issued_since_same. destruct data; reflexivity.
  - destruct (nth_error (pending s) i); [|discriminate]. injection Hs as <-.
    now apply issued_since_same.
Qed.

(** Once the list response has arrived, the run identifier is fixed:
    whatever follows keeps it and issues requests with the suffix it
    determines. *)
Lemma steps_pinned (h : Host) (P : Request -> Prop) (es : list Event) :
  forall s s',
    listPending s = false ->
    (forall f n q, run_suffix (runId s) = Some q ->
                   P {| url := series_url h f q; req_fips := f; req_name := n |}) ->
    steps h s es = Some s' ->
    runId s' = runId s /\ issued_since P s s'.
Proof.
  induction es as [|e es IH]; intros s s' Hl HP Hs; simpl in Hs.
  - injection Hs as <-. split; [reflexivity | apply issued_since_refl].
  - destruct (step h s e) as [s1|] eqn:E; [|discriminate].
    destruct (step_runId h s e Hl E) as [Hl1 Hr1].
    pose proof (step_issued h s e P HP E) as Hi1.
    destruct (IH s1 s' Hl1) as [Hr Hi]; [|assumption|].
    + intros f n q Hq. apply HP. rewrite <- Hr1. assumption.
    + split; [congruence | eapply issued_since_trans; eassumption].
Qed.


(** *** Strings inside the error message *)






(** *** Requests in flight *)

Lemma nth_error_middle (A : Type) (l : list A) (x : A) (t : list A) :
  nth_error (l ++ x :: t) (List.length l) = Some x.
Proof. induction l as [|a l IH]; simpl; [reflexivity | assumption]. Qed.

Lemma remove_nth_middle (A : Type) (l : list A) (x : A) (t : list A) :
  remove_nth (List.length l) (l ++ x :: t) = l ++ t.
Proof.
  induction l as [|a l IH]; [reflexivity|].
  unfold remove_nth in *. simpl in *. now rewrite IH.
Qed.

(** *** A selection and its request *)

(** A selection sets the selection, clears series and error, and puts
    one request in flight, with the fips and the name of the selection. *)
Lemma select_issues_request (h : Host) (s : State) (f : jsstring) (fb : StrField)
    (q : jsstring) :
  run_suffix (runId s) = Some q ->
  let s1 := selectWithoutZoom h s f fb in
  let rq := {| url := series_url h f q; req_fips := f; req_name := shown_name s f fb |} in
  pending s1 = pending s ++ [rq] /\
  selected s1 = Some {| sel_fips := req_fips rq; sel_name := req_name rq |} /\
  series s1 = None /\ error s1 = [].
Proof.
  intros Hq. unfold selectWithoutZoom, loadCounty. rewrite Hq. simpl. auto.
Qed.

(** *** Two selections in a row *)

Lemma race_unfold (h : Host) (s : State) (fA : jsstring) (nA : StrField)
    (fB : jsstring) (nB : StrField) (oA oB : Outcome) (a_first : bool) (q : jsstring) :
  run_suffix (runId s) = Some q ->
  let rqA := {| url := series_url h fA q; req_fips := fA; req_name := shown_name s fA nA |} in
  let rqB := {| url := series_url h fB q; req_fips := fB; req_name := shown_name s fB nB |} in
  let s2 :=
    {| countiesMeta := countiesMeta s; runId := runId s;
       selected := Some {| sel_fips := fB; sel_name := shown_name s fB nB |};
       series := None; loading := loading s; error := [];
       listPending := listPending s;
       pending := pending s; sent := (sent s ++ [rqA]) ++ [rqB] |} in
  let commit (s' : State) (rq : Request) (o : Outcome) : State :=
    match o with
    | Succeeds b => set_series s' (Some (series_of b))
    | Fails => set_error s' (no_timeseries (req_name rq) (req_fips rq))
    end in
  race h s fA nA fB nB oA oB a_first =
  Some (if a_first then commit (commit s2 rqA oA) rqB oB
        else commit (commit s2 rqB oB) rqA oA).
Proof.
  intros Hq. unfold race. cbn [steps step]. unfold selectWithoutZoom.
  unfold loadCounty at 2. rewrite Hq. cbn [countiesMeta runId selected series loading
    error listPending pending sent]. unfold loadCounty. cbn [runId]. rewrite Hq.
  cbn [countiesMeta runId selected series loading error listPending pending sent].
  change (shown_name _ fB nB) with (shown_name s fB nB).
  set (rqA := {| url := series_url h fA q; req_fips := fA; req_name := shown_name s fA nA |}).
  set (rqB := {| url := series_url h fB q; req_fips := fB; req_name := shown_name s fB nB |}).
  assert (EA : nth_error ((pending s ++ [rqA]) ++ [rqB]) (List.length (pending s)) = Some rqA).
  { rewrite <- app_assoc. apply nth_error_middle. }
  assert (EB : nth_error ((pending s ++ [rqA]) ++ [rqB]) (S (List.length (pending s))) = Some rqB).
  { replace (S (List.length (pending s))) with (List.length (pending s ++ [rqA]))
      by (rewrite length_app; simpl; lia). apply nth_error_middle. }
  assert (RA : remove_nth (List.length (pending s)) ((pending s ++ [rqA]) ++ [rqB])
               = pending s ++ [rqB]).
  { rewrite <- app_assoc. apply remove_nth_middle. }
  assert (RB : remove_nth (S (List.length (pending s))) ((pending s ++ [rqA]) ++ [rqB])
               = pending s ++ [rqA]).
  { replace (S (List.length (pending s))) with (List.length (pending s ++ [rqA]))
      by (rewrite length_app; simpl; lia).
    rewrite remove_nth_middle. apply app_nil_r. }
  assert (E1 : forall (l : list Request) (r : Request),
             nth_error (l ++ [r]) (List.length l) = Some r)
    by (intros; apply nth_error_middle).
  assert (R1 : forall (l : list Request) (r : Request),
             remove_nth (List.length l) (l ++ [r]) = l)
    by (intros; rewrite remove_nth_middle; apply app_nil_r).
  destruct a_first; cbn [steps step arrival].
  - destruct oA, oB; cbn [steps step arrival pending]; rewrite EA; cbn [steps step];
      unfold series_resolved, series_rejected, set_pending, set_series, set_error;
      cbn [countiesMeta runId selected series loading error listPending pending sent];
      rewrite RA, E1; cbn [steps step]; rewrite R1; reflexivity.
  - destruct oA, oB; cbn [steps step arrival pending]; rewrite EB; cbn [steps step];
      unfold series_resolved, series_rejected, set_pending, set_series, set_error;
      cbn [countiesMeta runId selected series loading error listPending pending sent];
      rewrite RB, E1; cbn [steps step]; rewrite R1; reflexivity.
Qed.

End ControllerFacts.

(** ** The derived views: ranking, suggestions, cumulative series *)

Module ViewFacts.

Import JsNumber App Spec.

(** *** The stable sort *)

Section SortFacts.

Variable A : Type.
Variable comparefn : A -> A -> JsNum.
Variable key : A -> Q.

(** The comparator is consistent: it orders by a key, descending. *)
Hypothesis comparefn_spec :
  forall x y, gtb (comparefn x y) (Fin 0) = true <-> key x < key y.

Lemma insert_perm (x : A) (l : list A) : Permutation (insert comparefn x l) (x :: l).
Proof.
  induction l as [|y l IH]; simpl; [reflexivity|].
  destruct (gtb (comparefn x y) (Fin 0)); [|reflexivity].
  rewrite IH. apply perm_swap.
Qed.

Lemma sort_perm (l : list A) : Permutation (sort comparefn l) l.
Proof.
  induction l as [|x l IH]; simpl; [reflexivity|].
  rewrite insert_perm. now constructor.
Qed.

Lemma insert_sorted (x : A) (l : list A) :
  StronglySorted (descending key) l -> StronglySorted (descending key) (insert comparefn x l).
Proof.
  induction l as [|y l IH]; intros Hs; simpl.
  - constructor; constructor.
  - inversion Hs as [|? ? Hl Hy]; subst.
    destruct (gtb (comparefn x y) (Fin 0)) eqn:E.
    + apply comparefn_spec in E. constructor; [apply IH; assumption|].
      rewrite (Forall_forall (descending key y)). intros z Hz.
      apply (Permutation_in _ (insert_perm x l)) in Hz. destruct Hz as [<-|Hz].
      * unfold descending. lra.
      * rewrite Forall_forall in Hy. apply Hy. assumption.
    + assert (Hxy : key y <= key x).
      { apply Qnot_lt_le. intros H. apply comparefn_spec in H. congruence. }
      constructor; [assumption|]. constructor; [assumption|].
      rewrite Forall_forall in Hy |- *. intros z Hz. specialize (Hy z Hz).
      unfold descending in *. lra.
Qed.

Lemma sort_sorted (l : list A) : StronglySorted (descending key) (sort comparefn l).
Proof.
  induction l as [|x l IH]; simpl; [constructor | now apply insert_sorted].
Qed.

(** Insertion never moves [x] behind an element of the same key. *)
Lemma insert_same_key (k : Q) (x : A) (l : list A) :
  filter (has_key key k) (insert comparefn x l) = filter (has_key key k) (x :: l).
Proof.
  induction l as [|y l IH]; [reflexivity|]. simpl insert.
  destruct (gtb (comparefn x y) (Fin 0)) eqn:E; [|reflexivity].
  apply comparefn_spec in E. simpl in *. rewrite IH.
  unfold has_key. destruct (Qeq_bool (key x) k) eqn:Ex; [|reflexivity].
  destruct (Qeq_bool (key y) k) eqn:Ey; [|reflexivity].
  apply Qeq_bool_iff in Ex, Ey. exfalso. lra.
Qed.

Lemma sort_stable (k : Q) (l : list A) :
  filter (has_key key k) (sort comparefn l) = filter (has_key key k) l.
Proof.
  induction l as [|x l IH]; [reflexivity|]. simpl sort.
  rewrite insert_same_key. simpl. now rewrite IH.
Qed.

(** Two descending lists with the same elements of each key, in the same
    order, are the same list: the result of a stable sort is determined
    by its input. *)
Lemma sorted_stable_unique (l1 : list A) :
  forall l2,
    StronglySorted (descending key) l1 -> StronglySorted (descending key) l2 ->
    (forall k, filter (has_key key k) l1 = filter (has_key key k) l2) ->
    l1 = l2.
Proof.
  assert (Hd : forall x, has_key key (key x) x = true)
    by (intros x; apply Qeq_bool_iff; reflexivity).
  assert (Hhead : forall x l y l',
             StronglySorted (descending key) (x :: l) ->
             (forall k, filter (has_key key k) (x :: l) = filter (has_key key k) (y :: l')) ->
             key y <= key x).
  { intros x l y l' Hs He. specialize (He (key y)).
    assert (Hy : In y (filter (has_key key (key y)) (x :: l))).
    { rewrite He. simpl. rewrite Hd. now left. }
    apply filter_In in Hy as [[<-|Hy] _]; [lra|].
    inversion Hs as [|? ? _ Hall]; subst. rewrite Forall_forall in Hall.
    apply (Hall y Hy). }
  induction l1 as [|x l1 IH]; intros l2 H1 H2 He.
  - destruct l2 as [|y l2]; [reflexivity|]. specialize (He (key y)). simpl in He.
    rewrite Hd in He. discriminate.
  - destruct l2 as [|y l2].
    { specialize (He (key x)). simpl in He. rewrite Hd in He. discriminate. }
    assert (Hxy : key x == key y).
    { pose proof (Hhead x l1 y l2 H1 He).
      pose proof (Hhead y l2 x l1 H2 (fun k => eq_sym (He k))). lra. }
    assert (E : x = y).
    { specialize (He (key x)). simpl in He. rewrite Hd in He.
      assert (Hy : has_key key (key x) y = true)
        by (apply Qeq_bool_iff; symmetry; assumption).
      rewrite Hy in He. now injection He. }
    subst y. f_equal. inversion H1; inversion H2; subst. apply IH; try assumption.
    intros k. specialize (He k). simpl in He.
    destruct (has_key key k x); [now injection He | assumption].
Qed.

Lemma sort_unique (l l' : list A) :
  StronglySorted (descending key) l' ->
  (forall k, filter (has_key key k) l' = filter (has_key key k) l) ->
  l' = sort comparefn l.
Proof.
  intros Hs He. apply sorted_stable_unique; [assumption | apply sort_sorted |].
  intros k. rewrite sort_stable. apply He.
Qed.

End SortFacts.

Lemma StronglySorted_firstn (A : Type) (R : A -> A -> Prop) (n : nat) (l : list A) :
  StronglySorted R l -> StronglySorted R (firstn n l).
Proof.
  revert l. induction n as [|n IH]; intros l Hs; [constructor|].
  destruct l as [|x l]; [constructor|]. inversion Hs; subst. simpl.
  constructor; [now apply IH|].
  rewrite Forall_forall in *. intros y Hy. match goal with H : forall _, In _ l -> _ |- _ => apply H end.
  rewrite <- (firstn_skipn n l). apply in_or_app. now left.
Qed.

Lemma In_firstn (A : Type) (n : nat) (l : list A) (x : A) : In x (firstn n l) -> In x l.
Proof. intros H. rewrite <- (firstn_skipn n l). apply in_or_app. now left. Qed.

(** *** The key of the ranking *)

Lemma loss_fin (c : County) : loss c = Fin (loss_q c).
Proof.
  unfold loss_q, loss, field_or, or_else. destruct (el_total_sum c) as [| |[|q]]; simpl; try reflexivity.
  destruct (negb (Qeq_bool q 0)); reflexivity.
Qed.

Lemma by_loss_desc_spec (x y : County) :
  gtb (by_loss_desc x y) (Fin 0) = true <-> loss_q x < loss_q y.
Proof.
  unfold by_loss_desc, sub, lift2. rewrite !loss_fin. simpl.
  rewrite negb_true_iff. rewrite <- not_true_iff_false, Qle_bool_iff.
  pose proof (Binary64Facts.fl_sign (loss_q y - loss_q x)) as Hs.
  split; intros H.
  - apply Qnot_le_lt in H. apply Qgt_alt in H. rewrite Hs in H. apply Qgt_alt in H. lra.
  - apply Qlt_not_le. apply Qgt_alt. rewrite Hs. apply Qgt_alt. lra.
Qed.

(** *** Whitespace *)

Lemma trimStart_all_ws (q : jsstring) :
  forallb JsString.is_ws q = true -> JsString.trimStart q = [].
Proof.
  induction q as [|c q IH]; simpl; [reflexivity|].
  intros H. apply andb_true_iff in H as [-> H]. now apply IH.
Qed.

Lemma trim_all_ws (q : jsstring) :
  forallb JsString.is_ws q = true -> JsString.trim q = [].
Proof. intros H. unfold JsString.trim. now rewrite trimStart_all_ws. Qed.

(** *** The running sum *)

Lemma cumulative_from_cum (l : list RawPoint) :
  forall c,
    map cum (cumulative_from c l) =
    map (fun i => fold_left add (firstn (S i) (map step_of l)) c) (seq 0 (List.length l)).
Proof.
  induction l as [|s l IH]; intros c; [reflexivity|].
  simpl cumulative_from. cbn [map List.length seq]. f_equal.
  rewrite <- seq_shift, map_map. rewrite IH. reflexivity.
Qed.

Lemma cumulative_from_steps (l : list RawPoint) :
  forall c, map el_total (cumulative_from c l) = map step_of l.
Proof. induction l as [|s l IH]; intros c; simpl; [reflexivity | now rewrite IH]. Qed.

Lemma cumulative_from_dt (l : list RawPoint) :
  forall c, map dt (cumulative_from c l) = map (fun s => NewDate (raw_dt s)) l.
Proof. induction l as [|s l IH]; intros c; simpl; [reflexivity | now rewrite IH]. Qed.

End ViewFacts.

(** ** Formatting *)

Module FormatFacts.

Import JsNumber Helpers Forms Binary64Facts.

Lemma field_or_fin (n : JsVal) (d : Q) :
  exists q, field_or n (Fin d) = Fin q /\
            (q == d \/ (n = Num (Fin q) /\ ~ q == 0)).
Proof.
  destruct n as [| |[|q]]; simpl; try (exists d; split; [reflexivity | left; reflexivity]).
  unfold or_else, truthy. destruct (Qeq_bool q 0) eqn:E; simpl.
  - exists d. split; [reflexivity | left; reflexivity].
  - exists q. split; [reflexivity|]. right. split; [reflexivity|].
    intros H. apply Qeq_bool_iff in H. congruence.
Qed.

Lemma amount_spec (n : JsVal) : Number (Num (field_or n (Fin 0))) = Fin (amount n).
Proof.
  unfold amount. destruct (field_or_fin n 0) as (q & -> & _). reflexivity.
Qed.


Lemma geb_fin (a : Q) (z : Z) : geb (Fin a) (of_Z z) = Qle_bool (inject_Z z) a.
Proof. reflexivity. Qed.

Lemma div_fin (a : Q) (z : Z) :
  z <> 0%Z -> div (Fin a) (of_Z z) = Fin (Binary64.fl (a / inject_Z z)).
Proof.
  intros Hz. unfold div, of_Z. destruct (Qeq_bool (inject_Z z) 0) eqn:E; [|reflexivity].
  apply Qeq_bool_iff in E. unfold Qeq in E. simpl in E. lia.
Qed.

Lemma Qle_bool_false (a b : Q) : Qle_bool a b = false <-> b < a.
Proof.
  rewrite <- not_true_iff_false, Qle_bool_iff. split; [apply Qnot_le_lt | apply Qlt_not_le].
Qed.

(** The quotient of an amount of a bucket by the unit of the bucket is
    at least 1. *)
Lemma quotient_ge_1 (v : Q) (z : Z) :
  (0 < z)%Z -> inject_Z z <= v -> 1 <= Binary64.fl (v / inject_Z z).
Proof.
  intros Hz Hv. change 1 with (Binary64.fl 1). apply fl_mono.
  apply Qle_shift_div_l; [|lra]. change 0 with (inject_Z 0). rewrite <- Zlt_Qlt. assumption.
Qed.

Lemma toFixed_nonneg (h : Host) (x : Q) (f : nat) :
  0 <= x -> toFixed h (Fin x) f = render_mantissa h (mantissa x f).
Proof.
  intros Hx. unfold toFixed. apply Qle_bool_iff in Hx. rewrite Hx. cbn [negb].
  unfold toFixed_abs, mantissa. destruct (Qle_bool (inject_Z (10 ^ 21)) x); reflexivity.
Qed.

(** The output is the rendering of the form of the amount. *)
Lemma fmtCurrencyShort_form (h : Host) (n : JsVal) :
  fmtCurrencyShort h n = render h (short_form (amount n)).
Proof.
  unfold fmtCurrencyShort, short_form. rewrite amount_spec. set (v := amount n).
  unfold e9, e6, e3. rewrite !geb_fin.
  destruct (Qle_bool (inject_Z 1000000000) v) eqn:E9.
  { apply Qle_bool_iff in E9. rewrite div_fin by discriminate. cbn [render].
    rewrite toFixed_nonneg; [reflexivity|].
    pose proof (@quotient_ge_1 v 1000000000 eq_refl E9). lra. }
  destruct (Qle_bool (inject_Z 1000000) v) eqn:E6.
  { apply Qle_bool_iff in E6. rewrite div_fin by discriminate. cbn [render].
    rewrite toFixed_nonneg; [reflexivity|].
    pose proof (@quotient_ge_1 v 1000000 eq_refl E6). lra. }
  destruct (Qle_bool (inject_Z 1000) v) eqn:E3.
  { apply Qle_bool_iff in E3. rewrite div_fin by discriminate. cbn [render].
    rewrite toFixed_nonneg; [reflexivity|].
    pose proof (@quotient_ge_1 v 1000 eq_refl E3). lra. }
  reflexivity.
Qed.



(** *** The amount denoted grows with the amount *)

Lemma pow10_pos (f : nat) : 0 < pow10 f.
Proof.
  unfold pow10. change 0 with (inject_Z 0). rewrite <- Zlt_Qlt.
  apply Z.pow_pos_nonneg; lia.
Qed.

Lemma fixed_scaled_mono (x y : Q) (f : nat) :
  x <= y -> (fixed_scaled x f <= fixed_scaled y f)%Z.
Proof.
  intros H. unfold fixed_scaled. apply Qfloor_resp_le.
  pose proof (pow10_pos f). nra.
Qed.

Lemma fixed_scaled_Z (z : Z) (f : nat) :
  fixed_scaled (inject_Z z) f = (z * 10 ^ Z.of_nat f)%Z.
Proof.
  unfold fixed_scaled, pow10. rewrite <- inject_Z_mult.
  set (k := (z * 10 ^ Z.of_nat f)%Z).
  assert (Hlo : (k <= Qfloor (inject_Z k + (1 # 2)))%Z).
  { rewrite <- (Qfloor_Z k) at 1. apply Qfloor_resp_le. lra. }
  assert (Hhi : (Qfloor (inject_Z k + (1 # 2)) < k + 1)%Z).
  { rewrite Zlt_Qlt. eapply Qle_lt_trans; [apply Qfloor_le|].
    rewrite inject_Z_plus. change (inject_Z 1) with 1. lra. }
  lia.
Qed.

Lemma mantissa_value_mono (x y : Q) (f : nat) :
  x <= y -> mantissa_value (mantissa x f) <= mantissa_value (mantissa y f).
Proof.
  intros Hxy. unfold mantissa. pose proof (pow10_pos f) as Hp.
  destruct (Qle_bool (inject_Z (10 ^ 21)) x) eqn:Ex;
    destruct (Qle_bool (inject_Z (10 ^ 21)) y) eqn:Ey; simpl mantissa_value.
  - assumption.
  - apply Qle_bool_iff in Ex. apply Qle_bool_false in Ey. exfalso. lra.
  - apply Qle_bool_false in Ex. apply Qle_bool_iff in Ey.
    apply Qle_trans with (inject_Z (10 ^ 21)); [|assumption].
    apply Qle_shift_div_r; [assumption|].
    pose proof (@fixed_scaled_mono x (inject_Z (10 ^ 21)) f (Qlt_le_weak _ _ Ex)) as H.
    rewrite fixed_scaled_Z in H. rewrite Zle_Qle, inject_Z_mult in H. exact H.
  - apply Qmult_le_compat_r; [|apply Qlt_le_weak, Qinv_lt_0_compat; assumption].
    rewrite <- Zle_Qle. now apply fixed_scaled_mono.
Qed.

Lemma mantissa_value_Z (z : Z) (f : nat) :
  mantissa_value (mantissa (inject_Z z) f) == inject_Z z.
Proof.
  unfold mantissa. destruct (Qle_bool _ _); simpl; [reflexivity|].
  rewrite fixed_scaled_Z, inject_Z_mult. fold (pow10 f).
  pose proof (pow10_pos f). field. lra.
Qed.

Lemma mantissa_value_ge (x : Q) (z : Z) (f : nat) :
  inject_Z z <= x -> inject_Z z <= mantissa_value (mantissa x f).
Proof.
  intros H. apply Qle_trans with (mantissa_value (mantissa (inject_Z z) f));
    [rewrite mantissa_value_Z; apply Qle_refl | now apply mantissa_value_mono].
Qed.

Lemma mantissa_value_le (x : Q) (z : Z) (f : nat) :
  x <= inject_Z z -> mantissa_value (mantissa x f) <= inject_Z z.
Proof.
  intros H. apply Qle_trans with (mantissa_value (mantissa (inject_Z z) f));
    [now apply mantissa_value_mono | rewrite mantissa_value_Z; apply Qle_refl].
Qed.

(** The quotient of an amount below the next bucket by the unit of its
    bucket is at most 1000. *)
Lemma quotient_le_1000 (v : Q) (z : Z) :
  (0 < z)%Z -> v <= inject_Z (1000 * z) -> Binary64.fl (v / inject_Z z) <= 1000.
Proof.
  intros Hz Hv. change 1000 with (Binary64.fl 1000). apply fl_mono.
  assert (0 < inject_Z z) by (change 0 with (inject_Z 0); now rewrite <- Zlt_Qlt).
  apply Qle_shift_div_r; [assumption|].
  rewrite inject_Z_mult in Hv. exact Hv.
Qed.

Lemma Math_round_nonneg (v : Q) : 0 <= v -> Math_round (Fin v) = RInt (Qfloor (v + (1 # 2))).
Proof.
  intros H. unfold Math_round. apply Qle_bool_iff in H. now rewrite H.
Qed.

Lemma units_le_1000 (v : Q) :
  0 <= v -> v < 1000 -> rounded_value (Math_round (Fin v)) <= 1000.
Proof.
  intros H0 H. rewrite Math_round_nonneg by assumption. cbn [rounded_value].
  change 1000 with (inject_Z 1000). rewrite <- Zle_Qle.
  assert (Qfloor (v + (1 # 2)) < 1000 + 1)%Z; [|lia].
  rewrite Zlt_Qlt. eapply Qle_lt_trans; [apply Qfloor_le|].
  change (inject_Z (1000 + 1)) with 1001. lra.
Qed.

(** Below a boundary the denoted amount is at most the boundary; from a
    boundary on it is at least the boundary. *)
Lemma denoted_below (v : Q) (b : Q) :
  0 <= v -> (b = 1000 \/ b = 1000000 \/ b = 1000000000) ->
  v < b -> denoted (short_form v) <= b.
Proof.
  intros H0 Hb Hv. unfold short_form.
  destruct (Qle_bool (inject_Z 1000000000) v) eqn:E9.
  { apply Qle_bool_iff in E9. change (inject_Z 1000000000) with 1000000000 in E9.
    exfalso. destruct Hb as [->|[->| ->]]; lra. }
  apply Qle_bool_false in E9. change (inject_Z 1000000000) with 1000000000 in E9.
  destruct (Qle_bool (inject_Z 1000000) v) eqn:E6.
  { apply Qle_bool_iff in E6. change (inject_Z 1000000) with 1000000 in E6.
    cbn [denoted].
    assert (H : mantissa_value (mantissa (Binary64.fl (v / inject_Z 1000000)) 2) <= 1000).
    { apply (@mantissa_value_le _ 1000). apply quotient_le_1000; [reflexivity|].
      change (inject_Z (1000 * 1000000)) with 1000000000. lra. }
    change (inject_Z 1000000) with 1000000 in *.
    set (m := mantissa_value _) in *. clearbody m.
    destruct Hb as [->|[->| ->]]; lra. }
  apply Qle_bool_false in E6. change (inject_Z 1000000) with 1000000 in E6.
  destruct (Qle_bool (inject_Z 1000) v) eqn:E3.
  { apply Qle_bool_iff in E3. change (inject_Z 1000) with 1000 in E3.
    cbn [denoted].
    assert (H : mantissa_value (mantissa (Binary64.fl (v / inject_Z 1000)) 1) <= 1000).
    { apply (@mantissa_value_le _ 1000). apply quotient_le_1000; [reflexivity|].
      change (inject_Z (1000 * 1000)) with 1000000. lra. }
    change (inject_Z 1000) with 1000 in *.
    set (m := mantissa_value _) in *. clearbody m.
    destruct Hb as [->|[->| ->]]; lra. }
  apply Qle_bool_false in E3. change (inject_Z 1000) with 1000 in E3.
  cbn [denoted]. pose proof (units_le_1000 H0 E3).
  set (m := rounded_value _) in *. clearbody m.
  destruct Hb as [->|[->| ->]]; lra.
Qed.

Lemma denoted_from (v : Q) (b : Q) :
  (b = 1000 \/ b = 1000000 \/ b = 1000000000) ->
  b <= v -> b <= denoted (short_form v).
Proof.
  intros Hb Hv. unfold short_form.
  destruct (Qle_bool (inject_Z 1000000000) v) eqn:E9.
  { apply Qle_bool_iff in E9. cbn [denoted].
    pose proof (@mantissa_value_ge _ 1 2%nat (@quotient_ge_1 v 1000000000 eq_refl E9)) as H.
    change (inject_Z 1) with 1 in H. change (inject_Z 1000000000) with 1000000000 in *.
    set (m := mantissa_value _) in *. clearbody m.
    destruct Hb as [->|[->| ->]]; lra. }
  apply Qle_bool_false in E9. change (inject_Z 1000000000) with 1000000000 in E9.
  destruct (Qle_bool (inject_Z 1000000) v) eqn:E6.
  { apply Qle_bool_iff in E6. cbn [denoted].
    pose proof (@mantissa_value_ge _ 1 2%nat (@quotient_ge_1 v 1000000 eq_refl E6)) as H.
    change (inject_Z 1) with 1 in H. change (inject_Z 1000000) with 1000000 in *.
    set (m := mantissa_value _) in *. clearbody m.
    destruct Hb as [->|[->| ->]]; lra. }
  apply Qle_bool_false in E6. change (inject_Z 1000000) with 1000000 in E6.
  destruct (Qle_bool (inject_Z 1000) v) eqn:E3.
  { apply Qle_bool_iff in E3. cbn [denoted].
    pose proof (@mantissa_value_ge _ 1 1%nat (@quotient_ge_1 v 1000 eq_refl E3)) as H.
    change (inject_Z 1) with 1 in H. change (inject_Z 1000) with 1000 in *.
    set (m := mantissa_value _) in *. clearbody m.
    destruct Hb as [->|[->| ->]]; lra. }
  apply Qle_bool_false in E3. change (inject_Z 1000) with 1000 in E3.
  exfalso. destruct Hb as [->|[->| ->]]; lra.
Qed.

Lemma denoted_same_bucket (v1 v2 : Q) :
  0 <= v1 -> v1 <= v2 ->
  (v2 < 1000 \/ (1000 <= v1 /\ v2 < 1000000) \/ (1000000 <= v1 /\ v2 < 1000000000)
   \/ 1000000000 <= v1) ->
  denoted (short_form v1) <= denoted (short_form v2).
Proof.
  intros H0 H12 Hb. unfold short_form.
  assert (P9 : 0 < inject_Z 1000000000) by reflexivity.
  assert (P6 : 0 < inject_Z 1000000) by reflexivity.
  assert (P3 : 0 < inject_Z 1000) by reflexivity.
  assert (M : forall u f, 0 < u ->
            mantissa_value (mantissa (Binary64.fl (v1 / u)) f)
            <= mantissa_value (mantissa (Binary64.fl (v2 / u)) f)).
  { intros u f Hu. apply mantissa_value_mono, fl_mono.
    apply Qmult_le_compat_r; [assumption|]. apply Qlt_le_weak, Qinv_lt_0_compat, Hu. }
  destruct (Qle_bool (inject_Z 1000000000) v1) eqn:A9;
    destruct (Qle_bool (inject_Z 1000000000) v2) eqn:B9;
    try apply Qle_bool_iff in A9; try apply Qle_bool_iff in B9;
    try apply Qle_bool_false in A9; try apply Qle_bool_false in B9;
    change (inject_Z 1000000000) with 1000000000 in A9, B9;
    try (exfalso; lra).
  { cbn [denoted]. specialize (M (inject_Z 1000000000) 2%nat P9).
    change (inject_Z 1000000000) with 1000000000 in *.
    set (m1 := mantissa_value (mantissa (Binary64.fl (v1 / _)) _)) in *.
    set (m2 := mantissa_value (mantissa (Binary64.fl (v2 / _)) _)) in *.
    clearbody m1 m2. lra. }
  destruct (Qle_bool (inject_Z 1000000) v1) eqn:A6;
    destruct (Qle_bool (inject_Z 1000000) v2) eqn:B6;
    try apply Qle_bool_iff in A6; try apply Qle_bool_iff in B6;
    try apply Qle_bool_false in A6; try apply Qle_bool_false in B6;
    change (inject_Z 1000000) with 1000000 in A6, B6;
    try (exfalso; lra).
  { cbn [denoted]. specialize (M (inject_Z 1000000) 2%nat P6).
    change (inject_Z 1000000) with 1000000 in *.
    set (m1 := mantissa_value (mantissa (Binary64.fl (v1 / _)) _)) in *.
    set (m2 := mantissa_value (mantissa (Binary64.fl (v2 / _)) _)) in *.
    clearbody m1 m2. lra. }
  destruct (Qle_bool (inject_Z 1000) v1) eqn:A3;
    destruct (Qle_bool (inject_Z 1000) v2) eqn:B3;
    try apply Qle_bool_iff in A3; try apply Qle_bool_iff in B3;
    try apply Qle_bool_false in A3; try apply Qle_bool_false in B3;
    change (inject_Z 1000) with 1000 in A3, B3;
    try (exfalso; lra).
  { cbn [denoted]. specialize (M (inject_Z 1000) 1%nat P3).
    change (inject_Z 1000) with 1000 in *.
    set (m1 := mantissa_value (mantissa (Binary64.fl (v1 / _)) _)) in *.
    set (m2 := mantissa_value (mantissa (Binary64.fl (v2 / _)) _)) in *.
    clearbody m1 m2. lra. }
  cbn [denoted]. rewrite !Math_round_nonneg by lra. cbn [rounded_value].
  rewrite <- Zle_Qle. apply Qfloor_resp_le. lra.
Qed.

Lemma denoted_mono (v1 v2 : Q) :
  0 <= v1 -> v1 <= v2 -> denoted (short_form v1) <= denoted (short_form v2).
Proof.
  intros H0 H12.
  assert (T : forall b, (b = 1000 \/ b = 1000000 \/ b = 1000000000) ->
              v1 < b -> b <= v2 -> denoted (short_form v1) <= denoted (short_form v2)).
  { intros b Hb H1 H2. apply Qle_trans with b;
      [now apply denoted_below | now apply denoted_from]. }
  destruct (Qlt_le_dec v2 1000) as [L3|G3];
    [apply denoted_same_bucket; auto|].
  destruct (Qlt_le_dec v1 1000) as [L3'|G3']; [apply (T 1000); auto|].
  destruct (Qlt_le_dec v2 1000000) as [L6|G6];
    [apply denoted_same_bucket; auto|].
  destruct (Qlt_le_dec v1 1000000) as [L6'|G6']; [apply (T 1000000); auto|].
  destruct (Qlt_le_dec v2 1000000000) as [L9|G9];
    [apply denoted_same_bucket; auto 6|].
  destruct (Qlt_le_dec v1 1000000000) as [L9'|G9']; [apply (T 1000000000); auto|].
  apply denoted_same_bucket; auto 6.
Qed.


(** *** The decimal point *)


(** *** The parameter of [shade] *)









End FormatFacts.

(** ** The county index, the maximum, the ranking and its views *)

Module LayerFacts.

Import JsNumber Helpers App Views Spec Props Forms Binary64Facts ViewFacts FormatFacts.
Local Open Scope list_scope.

(** *** Strings *)

Lemma eqb_eq (a b : jsstring) : JsString.eqb a b = true <-> a = b.
Proof.
  revert b. induction a as [|x a IH]; intros [|y b]; simpl;
    try (split; [discriminate | discriminate]); [tauto|].
  rewrite andb_true_iff, N.eqb_eq, IH. split; [intros [-> ->]; reflexivity|].
  intros E. injection E. auto.
Qed.

Lemma eqb_refl (a : jsstring) : JsString.eqb a a = true.
Proof. now apply eqb_eq. Qed.

Lemma eqb_neq (a b : jsstring) : JsString.eqb a b = false <-> a <> b.
Proof.
  split.
  - intros H E. apply eqb_eq in E. congruence.
  - intros H. destruct (JsString.eqb a b) eqn:E; [|reflexivity].
    apply eqb_eq in E. contradiction.
Qed.

(** *** The index *)

Lemma find_app (A : Type) (p : A -> bool) (l1 l2 : list A) :
  find p (l1 ++ l2) = match find p l1 with Some x => Some x | None => find p l2 end.
Proof. induction l1 as [|x l1 IH]; simpl; [reflexivity|]. now destruct (p x). Qed.

Lemma countyIndex_get_from_app (found : option County) (l1 l2 : list County) (f : jsstring) :
  countyIndex_get_from found (l1 ++ l2) f
  = countyIndex_get_from (countyIndex_get_from found l1 f) l2 f.
Proof. revert found. induction l1 as [|c l1 IH]; intros found; simpl; [reflexivity | apply IH]. Qed.

Lemma countyIndex_get_from_find (cs : list County) (f : jsstring) (found : option County) :
  countyIndex_get_from found cs f
  = match find (fun c => JsString.eqb (fips c) f) (rev cs) with
    | Some c => Some c
    | None => found
    end.
Proof.
  revert found. induction cs as [|c cs IH]; intros found; simpl; [reflexivity|].
  rewrite IH, find_app. destruct (find _ (rev cs)); [reflexivity|].
  simpl. destruct (JsString.eqb (fips c) f); reflexivity.
Qed.

Lemma countyIndex_get_find (cm : option CountiesResponse) (cs : list County) (f : jsstring) :
  counties_of cm = Some cs ->
  countyIndex_get cm f = find (fun c => JsString.eqb (fips c) f) (rev cs).
Proof.
  intros H. unfold countyIndex_get. rewrite H, countyIndex_get_from_find.
  destruct (find _ _); reflexivity.
Qed.


Lemma countyIndex_get_none (cm : option CountiesResponse) (cs : list County) (f : jsstring) :
  counties_of cm = Some cs ->
  (countyIndex_get cm f = None <-> forall c, In c cs -> fips c <> f).
Proof.
  intros H. rewrite (countyIndex_get_find cm f H). split.
  - intros F c Hin. apply eqb_neq. apply (find_none _ _ F). now apply in_rev in Hin.
  - intros Hall. destruct (find _ _) eqn:F; [|reflexivity].
    apply find_some in F as [Hin Hf]. apply eqb_eq in Hf.
    exfalso. apply (Hall c); [now apply in_rev | assumption].
Qed.

Lemma find_unique (cs : list County) (c : County) :
  NoDup (map fips cs) -> In c cs ->
  find (fun d => JsString.eqb (fips d) (fips c)) cs = Some c.
Proof.
  induction cs as [|d cs IH]; simpl; [tauto|]. intros Hnd Hin.
  inversion Hnd as [|? ? Hnotin Hnd']; subst.
  destruct Hin as [->|Hin]; [now rewrite eqb_refl|].
  destruct (JsString.eqb (fips d) (fips c)) eqn:E; [|now apply IH].
  apply eqb_eq in E. exfalso. apply Hnotin. rewrite E. now apply in_map.
Qed.

Lemma countyIndex_get_unique (cm : option CountiesResponse) (cs : list County) (c : County) :
  counties_of cm = Some cs -> NoDup (map fips cs) -> In c cs ->
  countyIndex_get cm (fips c) = Some c.
Proof.
  intros H Hnd Hin. rewrite (countyIndex_get_find cm _ H). apply find_unique.
  - rewrite map_rev. apply NoDup_rev. assumption.
  - now apply in_rev in Hin.
Qed.

(** *** The maximum *)




(** *** Sorting and filtering *)

Lemma StronglySorted_filter (A : Type) (R : A -> A -> Prop) (p : A -> bool) (l : list A) :
  StronglySorted R l -> StronglySorted R (filter p l).
Proof.
  induction 1 as [|x l Hs IH Hall]; simpl; [constructor|].
  destruct (p x); [|assumption]. constructor; [assumption|].
  rewrite Forall_forall in *. intros y Hy. apply filter_In in Hy as [Hy _]. auto.
Qed.

Lemma filter_comm (A : Type) (p r : A -> bool) (l : list A) :
  filter p (filter r l) = filter r (filter p l).
Proof.
  induction l as [|x l IH]; simpl; [reflexivity|].
  destruct (r x) eqn:Er, (p x) eqn:Ep; simpl; rewrite ?Er, ?Ep, IH; reflexivity.
Qed.

Lemma sort_filter (p : County -> bool) (l : list County) :
  filter p (sort by_loss_desc l) = sort by_loss_desc (filter p l).
Proof.
  apply (@sort_unique _ by_loss_desc loss_q by_loss_desc_spec).
  - apply StronglySorted_filter.
    apply (@sort_sorted _ by_loss_desc loss_q by_loss_desc_spec).
  - intros k. rewrite filter_comm.
    rewrite (@sort_stable _ by_loss_desc loss_q by_loss_desc_spec).
    apply filter_comm.
Qed.

Lemma suggestions_ranking (h : Host) (q : jsstring) (cm : option CountiesResponse) :
  suggestions h q cm
  = match JsString.trim q with
    | [] => []
    | _ :: _ => firstn 3 (filter (query_matches h q) (topSorted cm))
    end.
Proof.
  unfold suggestions, topSorted. destruct (JsString.trim q) eqn:T; [reflexivity|].
  destruct (counties_of cm) as [cs|]; [|reflexivity].
  rewrite sort_filter. unfold query_matches. rewrite T. reflexivity.
Qed.

(** *** The rows *)

Lemma amount_loss (c : County) : amount (el_total_sum c) = loss_q c.
Proof. reflexivity. Qed.

Lemma StronglySorted_map (A B : Type) (R : B -> B -> Prop) (f : A -> B) (l : list A) :
  StronglySorted (fun x y => R (f x) (f y)) l -> StronglySorted R (map f l).
Proof.
  induction 1 as [|x l Hs IH Hall]; simpl; constructor; [assumption|].
  rewrite Forall_forall in *. intros y Hy. apply in_map_iff in Hy as (z & <- & Hz). auto.
Qed.

Lemma StronglySorted_weaken (A : Type) (R R' : A -> A -> Prop) (l : list A) :
  (forall x y, In x l -> In y l -> R x y -> R' x y) ->
  StronglySorted R l -> StronglySorted R' l.
Proof.
  intros H Hs. induction Hs as [|x l Hs IH Hall]; constructor.
  - apply IH. intros a b Ha Hb. apply H; now right.
  - rewrite Forall_forall in *. intros y Hy. apply H; [now left | now right | auto].
Qed.

Lemma topSorted_In (cm : option CountiesResponse) (c : County) :
  In c (topSorted cm) -> exists cs, counties_of cm = Some cs /\ In c cs.
Proof.
  unfold topSorted. intros H.
  apply (Permutation_in _ (@sort_perm _ by_loss_desc _)) in H.
  destruct (counties_of cm) as [cs|]; [|contradiction]. now exists cs.
Qed.

Lemma topSorted_sorted (cm : option CountiesResponse) :
  StronglySorted (descending loss_q) (topSorted cm).
Proof. apply (@sort_sorted _ by_loss_desc loss_q by_loss_desc_spec). Qed.

End LayerFacts.

(** ** The colour scale and the fill of the map *)

Module ColourFacts.

Import JsNumber Helpers App Views Spec Props Forms Binary64Facts ViewFacts FormatFacts LayerFacts.




Section Channel.

Variables a b : Z.
Hypothesis ends : (0 <= b <= a)%Z.
Hypothesis fl_diff : Binary64.fl (inject_Z b - inject_Z a) == inject_Z b - inject_Z a.
Hypothesis fl_a : Binary64.fl (inject_Z a) == inject_Z a.
Hypothesis fl_b : Binary64.fl (inject_Z b) == inject_Z b.






End Channel.








(** *** The fill of a polygon *)






End ColourFacts.

(** ** The running sum and the query *)

Module SeriesFacts.

Import JsNumber Helpers App Views Spec Props Binary64Facts ViewFacts.
Local Open Scope list_scope.

Lemma step_of_fin (s : RawPoint) : step_of s = Fin (num_q (step_of s)).
Proof.
  unfold step_of, or_else. destruct (Number (raw_el_total s)) as [|q]; [reflexivity|].
  simpl. destruct (Qeq_bool q 0); reflexivity.
Qed.

Lemma cumulative_from_mono (l : list RawPoint) :
  forall c,
    0 <= c -> Binary64.fl c = c ->
    (forall s, In s l -> 0 <= num_q (step_of s)) ->
    StronglySorted (fun a b => num_q (cum a) <= num_q (cum b)) (cumulative_from (Fin c) l) /\
    Forall (fun p => c <= num_q (cum p)) (cumulative_from (Fin c) l).
Proof.
  induction l as [|s l IH]; intros c Hc Hfl Hs; simpl.
  - split; constructor.
  - rewrite step_of_fin. cbn [add lift2].
    set (c' := Binary64.fl (c + num_q (step_of s))).
    assert (Hcc : c <= c').
    { rewrite <- Hfl at 1. apply fl_mono.
      specialize (Hs s (or_introl eq_refl)). lra. }
    destruct (IH c') as [Hsorted Hall].
    + lra.
    + apply fl_idempotent.
    + intros x Hx. apply Hs. now right.
    + split.
      * constructor; [assumption|]. simpl.
        eapply Forall_impl; [|exact Hall]. simpl. intros p Hp. exact Hp.
      * constructor; [simpl; assumption|].
        eapply Forall_impl; [|exact Hall]. simpl. intros p Hp. lra.
Qed.

(** *** White space around the query *)

Lemma trimStart_ws_app (a x : jsstring) :
  forallb JsString.is_ws a = true -> JsString.trimStart (a ++ x) = JsString.trimStart x.
Proof.
  induction a as [|c a IH]; simpl; [reflexivity|].
  intros H. apply andb_true_iff in H as [-> H]. now apply IH.
Qed.

Lemma trimEnd_app_ws (x b : jsstring) :
  forallb JsString.is_ws b = true -> JsString.trimEnd (x ++ b) = JsString.trimEnd x.
Proof.
  intros H. unfold JsString.trimEnd. rewrite rev_app_distr, trimStart_ws_app; [reflexivity|].
  rewrite forallb_forall in *. intros c Hc. apply H. now apply in_rev.
Qed.

Lemma trimStart_app (x b : jsstring) :
  JsString.trimStart x <> [] -> JsString.trimStart (x ++ b) = JsString.trimStart x ++ b.
Proof.
  induction x as [|c x IH]; simpl; [congruence|].
  destruct (JsString.is_ws c); [assumption | reflexivity].
Qed.

Lemma trimStart_nil_ws (x : jsstring) :
  JsString.trimStart x = [] -> forallb JsString.is_ws x = true.
Proof.
  induction x as [|c x IH]; simpl; [reflexivity|].
  destruct (JsString.is_ws c); [assumption | discriminate].
Qed.

Lemma trim_padding (a q b : jsstring) :
  forallb JsString.is_ws a = true -> forallb JsString.is_ws b = true ->
  JsString.trim (a ++ q ++ b) = JsString.trim q.
Proof.
  intros Ha Hb. unfold JsString.trim. rewrite trimStart_ws_app by assumption.
  destruct (JsString.trimStart q) eqn:T.
  - apply trimStart_nil_ws in T.
    rewrite trimStart_all_ws; [reflexivity|].
    rewrite forallb_app. now rewrite T, Hb.
  - rewrite trimStart_app by (rewrite T; discriminate).
    rewrite T. now apply trimEnd_app_ws.
Qed.

Lemma suggestions_padding (h : Host) (a q b : jsstring) (cm : option CountiesResponse) :
  forallb JsString.is_ws a = true -> forallb JsString.is_ws b = true ->
  suggestions h (a ++ q ++ b) cm = suggestions h q cm.
Proof. intros Ha Hb. unfold suggestions. now rewrite trim_padding. Qed.

End SeriesFacts.

(** ** The run qualifier of the series URL *)

Module RunFacts.

Import App Spec Props Uri UriFacts.
Local Open Scope N_scope.
Local Open Scope list_scope.

Lemma percent_safe (b : N) : b < 256 -> Forall (fun c => url_safe c = true) (percent b).
Proof.
  intros Hb.
  pose proof (@forall_below 256 (fun b => forallb url_safe (percent b)) eq_refl b Hb) as H.
  cbv beta in H. rewrite forallb_forall in H. now apply Forall_forall.
Qed.

Lemma escape_safe (v : N) : v <= 1114111 -> Forall (fun c => url_safe c = true) (escape v).
Proof.
  intros Hv. unfold escape. pose proof (utf8_octets Hv) as H.
  induction H as [|b l Hb Hl IH]; cbn [map concat]; [constructor|].
  apply Forall_app. split; [now apply percent_safe | assumption].
Qed.

Lemma encode_safe_bounded (n : nat) :
  forall s e,
    (List.length s <= n)%nat -> well_formed s -> encodeURIComponent s = Some e ->
    Forall (fun c => url_safe c = true) e.
Proof.
  induction n as [|n IH]; intros s e Hn Hwf He.
  - destruct s; [|simpl in Hn; lia]. injection He as <-. constructor.
  - destruct s as [|c rest]; [injection He as <-; constructor|].
    inversion Hwf as [|? ? Hc Hrest]; subst. cbn [encodeURIComponent] in He.
    destruct (is_unreserved c) eqn:Eu.
    { destruct (encodeURIComponent rest) as [e'|] eqn:Ee; [|discriminate].
      injection He as <-. constructor.
      - unfold url_safe. now rewrite Eu.
      - apply (IH rest); [simpl in Hn; lia | assumption | assumption]. }
    destruct (is_low_surrogate c) eqn:El; [discriminate|].
    destruct (is_high_surrogate c) eqn:Eh.
    { destruct rest as [|c2 rest']; [discriminate|].
      destruct (is_low_surrogate c2) eqn:El2; [|discriminate].
      destruct (encodeURIComponent rest') as [e'|] eqn:Ee; [|discriminate].
      injection He as <-. inversion Hrest as [|? ? Hc2 Hrest']; subst.
      destruct (surrogate_pair c c2 Eh El2) as (Hmax & _ & _).
      apply Forall_app. split; [now apply escape_safe|].
      apply (IH rest'); [simpl in Hn; lia | assumption | assumption]. }
    destruct (encodeURIComponent rest) as [e'|] eqn:Ee; [|discriminate].
    injection He as <-. apply Forall_app. split; [apply escape_safe; lia|].
    apply (IH rest); [simpl in Hn; lia | assumption | assumption].
Qed.

Lemma encode_safe (s e : jsstring) :
  well_formed s -> encodeURIComponent s = Some e -> Forall (fun c => url_safe c = true) e.
Proof. intros Hwf He. now apply (@encode_safe_bounded (List.length s) s e). Qed.

(** *** When the encoding throws *)

Lemma unreserved_ascii (c : N) : is_unreserved c = true -> c < 128.
Proof.
  intros H. destruct (N.lt_ge_cases c 128) as [L|G]; [assumption|]. exfalso.
  revert H. unfold is_unreserved.
  repeat match goal with
         | |- context [c <=? ?k] =>
             replace (c <=? k) with false by (symmetry; apply N.leb_gt; lia)
         | |- context [c =? ?k] =>
             replace (c =? k) with false by (symmetry; apply N.eqb_neq; lia)
         end.
  rewrite ?andb_false_r. simpl. discriminate.
Qed.

Lemma encode_throws_bounded (n : nat) :
  forall s, (List.length s <= n)%nat ->
            (encodeURIComponent s = None <-> isWellFormed s = false).
Proof.
  induction n as [|n IH]; intros s Hn.
  - destruct s; [|simpl in Hn; lia]. simpl. split; discriminate.
  - destruct s as [|c rest]; [simpl; split; discriminate|].
    cbn [encodeURIComponent isWellFormed].
    assert (R : (List.length rest <= n)%nat) by (simpl in Hn; lia).
    destruct (is_unreserved c) eqn:Eu.
    { assert (El : is_low_surrogate c = false /\ is_high_surrogate c = false).
      { apply unreserved_ascii in Eu. unfold is_low_surrogate, is_high_surrogate.
        replace (56320 <=? c) with false by (symmetry; apply N.leb_gt; lia).
        replace (55296 <=? c) with false by (symmetry; apply N.leb_gt; lia).
        split; reflexivity. }
      destruct El as [-> ->]. rewrite <- (IH rest R).
      destruct (encodeURIComponent rest); simpl; split; intros H; solve [discriminate H | reflexivity]. }
    destruct (is_low_surrogate c); [tauto|].
    destruct (is_high_surrogate c).
    { destruct rest as [|c2 rest']; [tauto|].
      destruct (is_low_surrogate c2); simpl; [|tauto].
      rewrite <- (IH rest') by (simpl in R; lia).
      destruct (encodeURIComponent rest'); simpl; split; intros H; solve [discriminate H | reflexivity]. }
    rewrite <- (IH rest R).
    destruct (encodeURIComponent rest); simpl; split; intros H; solve [discriminate H | reflexivity].
Qed.

Lemma encode_throws (s : jsstring) :
  encodeURIComponent s = None <-> isWellFormed s = false.
Proof. now apply (@encode_throws_bounded (List.length s)). Qed.

(** *** Different runs, different URLs *)

Lemma encode_injective (a b e : jsstring) :
  well_formed a -> well_formed b ->
  encodeURIComponent a = Some e -> encodeURIComponent b = Some e -> a = b.
Proof.
  intros Ha Hb Ea Eb. apply decode_encode in Ea, Eb; try assumption. congruence.
Qed.

Lemma series_url_suffix (h : Host) (f q1 q2 : jsstring) :
  series_url h f q1 = series_url h f q2 -> q1 = q2.
Proof.
  unfold series_url. intros H. repeat apply app_inv_head in H. exact H.
Qed.

End RunFacts.

(** ** Sessions of the component *)

Module SessionFacts.

Import JsNumber Helpers App Views Spec Props ControllerFacts LayerFacts.
Local Open Scope list_scope.
Local Open Scope nat_scope.

Lemma loadCounty_fields (h : Host) (s : State) (f n : jsstring) :
  let s' := loadCounty h s f n in
  countiesMeta s' = countiesMeta s /\ runId s' = runId s /\
  loading s' = loading s /\ listPending s' = listPending s /\
  selected s' = Some {| sel_fips := f; sel_name := n |} /\ series s' = None.
Proof.
  unfold loadCounty. destruct (run_suffix (runId s)); simpl; repeat split; reflexivity.
Qed.

Lemma loadCounty_sent (h : Host) (s : State) (f n : jsstring) :
  (exists q, run_suffix (runId s) = Some q /\
             sent (loadCounty h s f n)
             = sent s ++ [{| url := series_url h f q; req_fips := f; req_name := n |}] /\
             pending (loadCounty h s f n)
             = pending s ++ [{| url := series_url h f q; req_fips := f; req_name := n |}] /\
             error (loadCounty h s f n) = []) \/
  (run_suffix (runId s) = None /\
   sent (loadCounty h s f n) = sent s /\ pending (loadCounty h s f n) = pending s /\
   error (loadCounty h s f n) = no_timeseries n f).
Proof.
  unfold loadCounty. destruct (run_suffix (runId s)) as [q|]; simpl.
  - left. exists q. repeat split; reflexivity.
  - right. repeat split; reflexivity.
Qed.

Lemma step_consistent (h : Host) (s s' : State) (e : Event) :
  step h s e = Some s' -> consistent s -> consistent s'.
Proof.
  intros Hstep (Hl & Hp & Hs). destruct e as [data| |f fb|i data|i]; simpl in Hstep.
  - destruct (listPending s) eqn:E; [|discriminate]. injection Hstep as <-.
    repeat split; simpl; try reflexivity; try discriminate; now apply Hs.
  - destruct (listPending s) eqn:E; [|discriminate]. injection Hstep as <-.
    repeat split; simpl; try reflexivity; try discriminate; now apply Hs.
  - injection Hstep as <-. unfold selectWithoutZoom.
    destruct (loadCounty_fields h s f (shown_name s f fb)) as (E1 & E2 & E3 & E4 & E5 & E6).
    unfold consistent. rewrite E1, E2, E3, E4, E5. repeat split; try tauto; discriminate.
  - destruct (nth_error (pending s) i) as [rq|] eqn:E; [|discriminate]. injection Hstep as <-.
    assert (Hsel : selected s <> None).
    { intros N. destruct (Hs N) as (_ & _ & P). rewrite P in E. now destruct i. }
    destruct data; repeat split; simpl; try assumption; try tauto.
  - destruct (nth_error (pending s) i) as [rq|] eqn:E; [|discriminate]. injection Hstep as <-.
    assert (Hsel : selected s <> None).
    { intros N. destruct (Hs N) as (_ & _ & P). rewrite P in E. now destruct i. }
    repeat split; simpl; try assumption; try tauto.
Qed.

Lemma steps_consistent (h : Host) (es : list Event) :
  forall s s', steps h s es = Some s' -> consistent s -> consistent s'.
Proof.
  induction es as [|e es IH]; intros s s' H Hc; simpl in H.
  - injection H as <-. assumption.
  - destruct (step h s e) as [s1|] eqn:E; [|discriminate].
    apply (IH s1 s' H). eapply step_consistent; eassumption.
Qed.

Lemma init_consistent : consistent init.
Proof. repeat split; reflexivity. Qed.

(** *** The selection and the run along a session *)

Lemma step_selected (h : Host) (s s' : State) (e : Event) :
  step h s e = Some s' -> not_select e -> selected s' = selected s.
Proof.
  intros Hstep Hn. destruct e as [data| |f fb|i data|i]; simpl in Hstep, Hn;
    try contradiction.
  - destruct (listPending s); [|discriminate]. now injection Hstep as <-.
  - destruct (listPending s); [|discriminate]. now injection Hstep as <-.
  - destruct (nth_error (pending s) i); [|discriminate]. injection Hstep as <-.
    now destruct data.
  - destruct (nth_error (pending s) i); [|discriminate]. now injection Hstep as <-.
Qed.

Lemma step_selected_some (h : Host) (s s' : State) (e : Event) :
  step h s e = Some s' -> selected s <> None -> selected s' <> None.
Proof.
  intros Hstep Hsel. destruct e as [data| |f fb|i data|i].
  - rewrite (@step_selected h s s' _ Hstep I). assumption.
  - rewrite (@step_selected h s s' _ Hstep I). assumption.
  - simpl in Hstep. injection Hstep as <-. unfold selectWithoutZoom.
    destruct (loadCounty_fields h s f (shown_name s f fb)) as (_ & _ & _ & _ & -> & _).
    discriminate.
  - rewrite (@step_selected h s s' _ Hstep I). assumption.
  - rewrite (@step_selected h s s' _ Hstep I). assumption.
Qed.

Lemma steps_selected_some (h : Host) (es : list Event) :
  forall s s', steps h s es = Some s' -> selected s <> None -> selected s' <> None.
Proof.
  induction es as [|e es IH]; intros s s' H Hsel; simpl in H.
  - injection H as <-. assumption.
  - destruct (step h s e) as [s1|] eqn:E; [|discriminate].
    apply (IH s1 s' H). eapply step_selected_some; eassumption.
Qed.

Lemma steps_selected (h : Host) (es : list Event) :
  forall s s',
    steps h s es = Some s' ->
    (Forall not_select es -> selected s' = selected s) /\
    (~ Forall not_select es -> selected s' <> None).
Proof.
  induction es as [|e es IH]; intros s s' H; simpl in H.
  - injection H as <-. split; [reflexivity|]. intros N. exfalso. apply N. constructor.
  - destruct (step h s e) as [s1|] eqn:E; [|discriminate].
    destruct (IH s1 s' H) as [IH1 IH2]. split.
    + intros F. inversion F as [|? ? He Hes]; subst.
      rewrite (IH1 Hes). eapply step_selected; eassumption.
    + intros N. destruct e as [data| |f fb|i data|i];
        try (apply IH2; intros F; apply N; constructor; [exact I | assumption]).
      eapply steps_selected_some; [eassumption|].
      simpl in E. injection E as <-. unfold selectWithoutZoom.
      destruct (loadCounty_fields h s f (shown_name s f fb)) as (_ & _ & _ & _ & -> & _).
      discriminate.
Qed.

Lemma step_no_run (h : Host) (s s' : State) (e : Event) :
  step h s e = Some s' -> not_list_resolve e -> runId s = None ->
  runId s' = None /\ exists new, sent s' = sent s ++ new /\ Forall (carries_no_run h) new.
Proof.
  intros Hstep Hn Hr. destruct e as [data| |f fb|i data|i]; simpl in Hstep, Hn;
    try contradiction.
  - destruct (listPending s); [|discriminate]. injection Hstep as <-.
    split; [assumption|]. exists []. split; [simpl; now rewrite app_nil_r | constructor].
  - injection Hstep as <-. unfold selectWithoutZoom.
    destruct (loadCounty_fields h s f (shown_name s f fb)) as (_ & -> & _).
    split; [assumption|].
    destruct (loadCounty_sent h s f (shown_name s f fb)) as [(q & Hq & -> & _)|(Hq & _)].
    + rewrite Hr in Hq. injection Hq as <-. eexists. split; [reflexivity|].
      constructor; [|constructor]. unfold carries_no_run, series_url. simpl.
      now rewrite app_nil_r.
    + rewrite Hr in Hq. discriminate.
  - destruct (nth_error (pending s) i); [|discriminate]. injection Hstep as <-.
    split; [now destruct data|]. exists [].
    split; [destruct data; simpl; now rewrite app_nil_r | constructor].
  - destruct (nth_error (pending s) i); [|discriminate]. injection Hstep as <-.
    split; [assumption|]. exists []. split; [simpl; now rewrite app_nil_r | constructor].
Qed.

Lemma steps_no_run (h : Host) (es : list Event) :
  forall s s',
    steps h s es = Some s' -> Forall not_list_resolve es -> runId s = None ->
    runId s' = None /\ exists new, sent s' = sent s ++ new /\ Forall (carries_no_run h) new.
Proof.
  induction es as [|e es IH]; intros s s' H F Hr; simpl in H.
  - injection H as <-. split; [assumption|]. exists [].
    split; [now rewrite app_nil_r | constructor].
  - destruct (step h s e) as [s1|] eqn:E; [|discriminate].
    inversion F as [|? ? He Hes]; subst.
    destruct (@step_no_run h s s1 e E He Hr) as (Hr1 & new1 & S1 & F1).
    destruct (IH s1 s' H Hes Hr1) as (Hr2 & new2 & S2 & F2).
    split; [assumption|]. exists (new1 ++ new2). split.
    + rewrite S2, S1. now rewrite app_assoc.
    + apply Forall_app. now split.
Qed.

(** *** Names *)

Lemma shown_name_order (s : State) (f : jsstring) (fb : jsstring) :
  shown_name s f (SStr fb)
  = strfield_or (meta_name (countiesMeta s) f) (strfield_or (SStr fb) f).
Proof.
  unfold shown_name. destruct (meta_name (countiesMeta s) f) as [| |[|c n]]; simpl;
    try reflexivity; destruct fb; reflexivity.
Qed.

Lemma strfield_or_idem (v : StrField) (d : jsstring) :
  strfield_or v (strfield_or v d) = strfield_or v d.
Proof. destruct v as [| |[|c n]]; reflexivity. Qed.

Lemma strfield_or_nonempty (v : StrField) (d : jsstring) : d <> [] -> strfield_or v d <> [].
Proof. intros H. destruct v as [| |[|c n]]; simpl; try assumption. discriminate. Qed.

End SessionFacts.

(** ** The search box *)

Module SearchFacts.

Import JsNumber Helpers App Views Spec Props SessionFacts.
Local Open Scope list_scope.
Local Open Scope nat_scope.

Lemma selectWithoutZoom_meta (h : Host) (s : State) (f : jsstring) (fb : StrField) :
  countiesMeta (selectWithoutZoom h s f fb) = countiesMeta s /\
  listPending (selectWithoutZoom h s f fb) = listPending s.
Proof.
  unfold selectWithoutZoom.
  destruct (loadCounty_fields h s f (shown_name s f fb)) as (E1 & _ & _ & E4 & _).
  now split.
Qed.

Lemma step_meta (h : Host) (s s' : State) (e : Event) :
  step h s e = Some s' ->
  (countiesMeta s' = countiesMeta s /\ (listPending s' = true -> listPending s = true)) \/
  (listPending s = true /\ listPending s' = false).
Proof.
  intros Hstep. destruct e as [data| |f fb|i data|i]; simpl in Hstep.
  - destruct (listPending s); [|discriminate]. injection Hstep as <-. right. now split.
  - destruct (listPending s); [|discriminate]. injection Hstep as <-. right. now split.
  - injection Hstep as <-. left. destruct (selectWithoutZoom_meta h s f fb) as [-> ->].
    now split.
  - destruct (nth_error (pending s) i); [|discriminate]. injection Hstep as <-.
    left. destruct data; now split.
  - destruct (nth_error (pending s) i); [|discriminate]. injection Hstep as <-.
    left. now split.
Qed.

Lemma highlight_same (h : Host) (u u' : Ui) :
  countiesMeta (ctl u') = countiesMeta (ctl u) ->
  (listPending (ctl u') = true -> listPending (ctl u) = true) ->
  q u' = q u -> activeSug u' = activeSug u ->
  highlight_valid h u -> highlight_valid h u'.
Proof.
  intros Em El Eq Ea (H1 & H2 & H3). unfold highlight_valid, ui_suggestions in *.
  rewrite Em, Eq, Ea. repeat split; auto.
Qed.

Lemma suggestions_no_list (h : Host) (q : jsstring) : suggestions h q None = [].
Proof. unfold suggestions. simpl. now destruct (JsString.trim q). Qed.

Lemma highlight_app_step (h : Host) (u : Ui) (e : Event) (a : State) :
  step h (ctl u) e = Some a -> highlight_valid h u -> highlight_valid h (set_app u a).
Proof.
  intros Hstep Hv. destruct (@step_meta h (ctl u) a e Hstep) as [[Em El]|[Ep Ep']].
  - apply (@highlight_same h u (set_app u a)); auto.
  - destruct Hv as (H1 & H2 & H3). specialize (H2 (H1 Ep)).
    unfold highlight_valid. simpl. rewrite Ep', H2. repeat split; auto. discriminate.
Qed.

Lemma highlight_select (h : Host) (u : Ui) (f : jsstring) (fb : StrField) :
  highlight_valid h u -> highlight_valid h (set_app u (selectWithoutZoom h (ctl u) f fb)).
Proof. apply (@highlight_app_step h u (Select f fb) _). reflexivity. Qed.

Lemma highlight_open (h : Host) (u : Ui) (o : bool) :
  highlight_valid h u -> highlight_valid h (set_open u o).
Proof. apply highlight_same; reflexivity || auto. Qed.

Lemma highlight_keyDown (h : Host) (u : Ui) (key : Key) :
  highlight_valid h u -> highlight_valid h (fst (onSearchKeyDown h u key)).
Proof.
  intros Hv. unfold onSearchKeyDown.
  destruct (negb (openSug u) && match key with ArrowDown | Enter => true | _ => false end).
  { simpl. now apply highlight_open. }
  destruct (openSug u && negb (List.length (ui_suggestions h u) =? 0)) eqn:E;
    [|assumption].
  apply andb_true_iff in E as [_ E]. apply negb_true_iff, Nat.eqb_neq in E.
  destruct Hv as (H1 & H2 & H3).
  assert (M : countiesMeta (ctl u) <> None).
  { intros N. apply E. unfold ui_suggestions. now rewrite N, suggestions_no_list. }
  destruct key; simpl.
  - repeat split; simpl; auto; try tauto. right.
    change (ui_suggestions h (set_active u _)) with (ui_suggestions h u). lia.
  - repeat split; simpl; auto; try tauto.
    change (ui_suggestions h (set_active u _)) with (ui_suggestions h u). lia.
  - match goal with
    | |- context [match ?x with Some _ => _ | None => (u, false) end] => destruct x
    end; simpl; [|exact (conj H1 (conj H2 H3))].
    apply highlight_open. apply highlight_select. exact (conj H1 (conj H2 H3)).
  - apply highlight_open. exact (conj H1 (conj H2 H3)).
  - exact (conj H1 (conj H2 H3)).
Qed.

Lemma ui_step_highlight (h : Host) (u u' : Ui) (e : UiEvent) :
  ui_step h u e = Some u' -> highlight_valid h u -> highlight_valid h u'.
Proof.
  intros Hstep Hv. destruct e; cbn [ui_step] in Hstep.
  - injection Hstep as <-. destruct Hv as (H1 & H2 & H3). repeat split; simpl; auto.
  - injection Hstep as <-. now apply highlight_keyDown.
  - injection Hstep as <-. revert Hv. apply highlight_same; reflexivity || auto.
  - destruct (blurTimers u); [discriminate|]. injection Hstep as <-.
    revert Hv. apply highlight_same; reflexivity || auto.
  - destruct (openSug u); [|discriminate].
    destruct (nth_error (ui_suggestions h u) i); [|discriminate]. injection Hstep as <-.
    unfold suggestion_mouseDown. now apply highlight_open, highlight_select.
  - destruct (nth_error (top_counties (countiesMeta (ctl u))) i); [|discriminate].
    injection Hstep as <-. unfold row_click. now apply highlight_select.
  - destruct (JsString.startsWith (geo_fips g) (str "48")); [|discriminate].
    injection Hstep as <-. unfold geo_click. now apply highlight_select.
  - unfold lift_app in Hstep.
    destruct (step h (ctl u) (ListResolve data)) eqn:E; [|discriminate].
    injection Hstep as <-. eapply highlight_app_step; eassumption.
  - unfold lift_app in Hstep.
    destruct (step h (ctl u) ListReject) eqn:E; [|discriminate].
    injection Hstep as <-. eapply highlight_app_step; eassumption.
  - unfold lift_app in Hstep.
    destruct (step h (ctl u) (SeriesResolve i data)) eqn:E; [|discriminate].
    injection Hstep as <-. eapply highlight_app_step; eassumption.
  - unfold lift_app in Hstep.
    destruct (step h (ctl u) (SeriesReject i)) eqn:E; [|discriminate].
    injection Hstep as <-. eapply highlight_app_step; eassumption.
Qed.

Lemma ui_steps_highlight (h : Host) (es : list UiEvent) :
  forall u u', ui_steps h u es = Some u' -> highlight_valid h u -> highlight_valid h u'.
Proof.
  induction es as [|e es IH]; intros u u' H Hv; simpl in H.
  - injection H as <-. assumption.
  - destruct (ui_step h u e) as [u1|] eqn:E; [|discriminate].
    apply (IH u1 u' H). eapply ui_step_highlight; eassumption.
Qed.

Lemma ui_init_highlight (h : Host) : highlight_valid h ui_init.
Proof. repeat split; auto. Qed.

Lemma highlight_pick (h : Host) (u : Ui) :
  highlight_valid h u -> ui_suggestions h u <> [] ->
  exists pick, nth_error (ui_suggestions h u) (activeSug u) = Some pick.
Proof.
  intros (_ & _ & H3) Hne.
  destruct (nth_error (ui_suggestions h u) (activeSug u)) as [c|] eqn:E; [now exists c|].
  apply nth_error_None in E. destruct H3 as [H3|H3]; [|lia].
  rewrite H3 in E. destruct (ui_suggestions h u); [contradiction | simpl in E; lia].
Qed.

(** *** The arrows *)

Lemma arrowDown_once (h : Host) (u : Ui) :
  openSug u = true -> ui_suggestions h u <> [] ->
  ui_step h u (KeyDown ArrowDown)
  = Some (set_active u (Nat.min (activeSug u + 1) (List.length (ui_suggestions h u) - 1))).
Proof.
  intros Ho Hne. simpl. unfold onSearchKeyDown. rewrite Ho. simpl.
  destruct (ui_suggestions h u) eqn:E; [contradiction | reflexivity].
Qed.

Lemma arrowUp_once (h : Host) (u : Ui) :
  openSug u = true -> ui_suggestions h u <> [] ->
  ui_step h u (KeyDown ArrowUp) = Some (set_active u (activeSug u - 1)).
Proof.
  intros Ho Hne. simpl. unfold onSearchKeyDown. rewrite Ho. simpl.
  destruct (ui_suggestions h u) eqn:E; [contradiction|]. simpl.
  now rewrite Nat.max_0_r.
Qed.

Lemma set_active_twice (u : Ui) (i j : nat) : set_active (set_active u i) j = set_active u j.
Proof. reflexivity. Qed.

Lemma set_active_same (u : Ui) : set_active u (activeSug u) = u.
Proof. now destruct u. Qed.

Lemma arrowDown_many (h : Host) (n : nat) :
  forall u,
    openSug u = true -> activeSug u < List.length (ui_suggestions h u) ->
    ui_steps h u (repeat (KeyDown ArrowDown) n)
    = Some (set_active u (Nat.min (activeSug u + n) (List.length (ui_suggestions h u) - 1))).
Proof.
  induction n as [|n IH]; intros u Ho Hlt.
  - simpl. rewrite Nat.add_0_r, Nat.min_l by lia. now rewrite set_active_same.
  - cbn [repeat ui_steps]. rewrite arrowDown_once;
      [|assumption | destruct (ui_suggestions h u); [simpl in Hlt; lia | discriminate]].
    rewrite IH; [|assumption|];
      change (ui_suggestions h (set_active u _)) with (ui_suggestions h u);
      cbn [activeSug set_active]; [|lia].
    rewrite set_active_twice. do 2 f_equal. lia.
Qed.

Lemma arrowUp_many (h : Host) (n : nat) :
  forall u,
    openSug u = true -> ui_suggestions h u <> [] ->
    ui_steps h u (repeat (KeyDown ArrowUp) n) = Some (set_active u (activeSug u - n)).
Proof.
  induction n as [|n IH]; intros u Ho Hne.
  - simpl. rewrite Nat.sub_0_r. now rewrite set_active_same.
  - cbn [repeat ui_steps]. rewrite arrowUp_once by assumption.
    rewrite IH; [|assumption|assumption].
    cbn [activeSug set_active]. rewrite set_active_twice. do 2 f_equal. lia.
Qed.

(** *** What does not reach the controller *)

Lemma passive_app (h : Host) (u u' : Ui) (e : UiEvent) :
  ui_step h u e = Some u' -> passive u e -> ctl u' = ctl u.
Proof.
  intros Hstep Hp. destruct e; cbn [ui_step] in Hstep; simpl in Hp; try contradiction.
  - now injection Hstep as <-.
  - injection Hstep as <-. unfold onSearchKeyDown.
    destruct key; try rewrite Hp; simpl;
      repeat match goal with
             | |- context [if ?b then _ else _] => destruct b
             end; reflexivity.
  - now injection Hstep as <-.
  - destruct (blurTimers u); [discriminate|]. now injection Hstep as <-.
Qed.

End SearchFacts.

(** ** Digits, dates and the polygons of the map *)

Module MapFacts.

Import JsNumber Helpers App Views Spec Props JsHost DigitsFacts UriFacts LayerFacts.
Local Open Scope list_scope.

(** *** The digits of a number *)

Lemma digits_fuel_acc (fuel : nat) :
  forall n acc, JsString.digits_fuel fuel n acc = JsString.digits_fuel fuel n [] ++ acc.
Proof.
  induction fuel as [|fuel IH]; intros n acc; [reflexivity|].
  cbn [JsString.digits_fuel]. destruct (n <? 10)%N; [reflexivity|].
  rewrite (IH _ (_ :: acc)), (IH _ [_]), <- app_assoc. reflexivity.
Qed.

Lemma digits_fuel_more (fuel : nat) :
  forall n acc,
    (1 <= fuel)%nat -> (n < 10 ^ N.of_nat fuel)%N ->
    JsString.digits_fuel (S fuel) n acc = JsString.digits_fuel fuel n acc.
Proof.
  induction fuel as [|fuel IH]; intros n acc Hf Hn; [lia|].
  cbn [JsString.digits_fuel]. destruct (N.ltb_spec n 10) as [Hs|Hs]; [reflexivity|].
  rewrite Nat2N.inj_succ, N.pow_succ_r' in Hn.
  assert (Hd : (n / 10 < 10 ^ N.of_nat fuel)%N) by (apply N.Div0.div_lt_upper_bound; lia).
  destruct fuel as [|fuel'].
  - simpl in Hn. lia.
  - pose proof (IH (n / 10)%N ((48 + n mod 10)%N :: acc) ltac:(lia) Hd) as E.
    cbn [JsString.digits_fuel] in E. exact E.
Qed.

Lemma digits_fuel_enough (k : nat) :
  forall fuel n acc,
    (1 <= fuel)%nat -> (n < 10 ^ N.of_nat fuel)%N ->
    JsString.digits_fuel (k + fuel) n acc = JsString.digits_fuel fuel n acc.
Proof.
  induction k as [|k IH]; intros fuel n acc Hf Hn; [reflexivity|].
  change (S k + fuel)%nat with (S (k + fuel)). rewrite digits_fuel_more.
  - now apply IH.
  - lia.
  - apply N.lt_le_trans with (10 ^ N.of_nat fuel)%N; [assumption|].
    apply N.pow_le_mono_r; lia.
Qed.

Lemma digits_fuel_agree (f1 f2 : nat) (n : N) (acc : jsstring) :
  (1 <= f1)%nat -> (1 <= f2)%nat ->
  (n < 10 ^ N.of_nat f1)%N -> (n < 10 ^ N.of_nat f2)%N ->
  JsString.digits_fuel f1 n acc = JsString.digits_fuel f2 n acc.
Proof.
  intros H1 H2 N1 N2. destruct (Nat.le_ge_cases f1 f2) as [L|L].
  - replace f2 with ((f2 - f1) + f1)%nat by lia. symmetry. now apply digits_fuel_enough.
  - replace f1 with ((f1 - f2) + f2)%nat by lia. now apply digits_fuel_enough.
Qed.

Lemma log2_fuel (n : N) : (n < 10 ^ N.of_nat (S (N.to_nat (N.log2 n))))%N.
Proof.
  rewrite Nat2N.inj_succ, N2Nat.id.
  destruct (N.eq_dec n 0) as [->|Hn]; [reflexivity|].
  apply N.lt_le_trans with (2 ^ N.succ (N.log2 n))%N.
  - apply N.log2_spec. lia.
  - apply N.pow_le_mono_l. lia.
Qed.

Lemma of_N_small (n : N) : (n < 10)%N -> JsString.of_N n = [(48 + n)%N].
Proof.
  intros H. unfold JsString.of_N. cbn [JsString.digits_fuel].
  rewrite (proj2 (N.ltb_lt n 10) H), N.mod_small by assumption. reflexivity.
Qed.

Lemma of_N_step (n : N) :
  (10 <= n)%N -> JsString.of_N n = JsString.of_N (n / 10) ++ [(48 + n mod 10)%N].
Proof.
  intros H. unfold JsString.of_N at 1. cbn [JsString.digits_fuel].
  rewrite (proj2 (N.ltb_ge n 10) H), digits_fuel_acc. f_equal.
  unfold JsString.of_N. apply digits_fuel_agree.
  - assert (3 <= N.log2 n)%N; [|lia].
    change 3%N with (N.log2 8). apply N.log2_le_mono. lia.
  - lia.
  - pose proof (log2_fuel n) as L. rewrite Nat2N.inj_succ, N.pow_succ_r' in L.
    apply N.Div0.div_lt_upper_bound. exact L.
  - apply log2_fuel.
Qed.

Lemma of_N_digits (n : N) : Forall (fun c => is_digit c = true) (JsString.of_N n).
Proof.
  induction n as [n IH] using (well_founded_induction N.lt_wf_0).
  assert (D : forall d, (d < 10)%N -> is_digit (48 + d) = true).
  { intros d Hd. unfold is_digit. apply andb_true_iff. split; apply N.leb_le; lia. }
  destruct (N.lt_ge_cases n 10) as [Hs|Hs].
  - rewrite of_N_small by assumption. constructor; [now apply D | constructor].
  - rewrite of_N_step by assumption. apply Forall_app. split.
    + apply IH. apply N.Div0.div_lt_upper_bound. lia.
    + constructor; [|constructor]. apply D. apply N.mod_upper_bound. lia.
Qed.

Lemma of_N_length (k : nat) :
  forall n, (n < 10 ^ N.of_nat (S k))%N -> (List.length (JsString.of_N n) <= S k)%nat.
Proof.
  induction k as [|k IH]; intros n Hn.
  - rewrite of_N_small by exact Hn. simpl. lia.
  - destruct (N.lt_ge_cases n 10) as [Hs|Hs].
    + rewrite of_N_small by assumption. simpl. lia.
    + rewrite of_N_step by assumption. rewrite length_app. simpl.
      assert ((n / 10 < 10 ^ N.of_nat (S k))%N).
      { apply N.Div0.div_lt_upper_bound.
        rewrite (Nat2N.inj_succ (S k)), N.pow_succ_r' in Hn. exact Hn. }
      specialize (IH _ H). lia.
Qed.

Lemma of_N_last_two (n : N) :
  (10 <= n)%N ->
  exists pre,
    JsString.of_N n = pre ++ [(48 + (n / 10) mod 10)%N; (48 + n mod 10)%N].
Proof.
  intros H. rewrite of_N_step by assumption.
  destruct (N.lt_ge_cases (n / 10) 10) as [Hs|Hs].
  - rewrite of_N_small by assumption. rewrite (N.mod_small (n / 10) 10) by assumption.
    now exists [].
  - rewrite of_N_step by assumption. exists (JsString.of_N (n / 10 / 10)).
    now rewrite <- app_assoc.
Qed.

(** *** Padding and slicing *)

Lemma padStart_zero (s : jsstring) (n : nat) :
  padStart s n (str "0") = repeat 48%N (n - List.length s) ++ s.
Proof.
  unfold padStart. destruct (Nat.leb_spec n (List.length s)) as [L|L].
  - replace (n - List.length s)%nat with 0%nat by lia. reflexivity.
  - change (str "0") with [48%N]. cbv beta iota zeta.
    set (k := (n - List.length s)%nat). clearbody k.
    assert (E : forall j, concat (repeat [48%N] j) = repeat 48%N j).
    { induction j as [|j IHj]; simpl; [reflexivity | now rewrite IHj]. }
    rewrite E. rewrite <- (repeat_length 48%N k) at 1. now rewrite firstn_all.
Qed.

Lemma padStart_length (s : jsstring) (n : nat) :
  (List.length s <= n)%nat -> List.length (padStart s n (str "0")) = n.
Proof. intros H. rewrite padStart_zero, length_app, repeat_length. lia. Qed.

Lemma slice_last_two (pre : jsstring) (a b : N) :
  slice_from (pre ++ [a; b]) (-2) = [a; b].
Proof.
  unfold slice_from. rewrite length_app. cbn [List.length].
  change (-2 <? 0)%Z with true. cbv iota.
  replace (Z.to_nat (Z.max (Z.of_nat (List.length pre + 2) + -2) 0)) with (List.length pre)
    by lia.
  rewrite skipn_app, skipn_all, Nat.sub_diag. reflexivity.
Qed.

(** *** The months and the years *)

Lemma month_digits (m : Z) :
  (0 <= m <= 11)%Z ->
  exists a b,
    padStart (JsString.of_Z (1 + m)) 2 (str "0") = [a; b] /\
    is_digit a = true /\ is_digit b = true /\
    JsString.digits_value [a; b] = Z.to_N (1 + m).
Proof.
  intros H.
  assert (C : (m = 0 \/ m = 1 \/ m = 2 \/ m = 3 \/ m = 4 \/ m = 5 \/ m = 6 \/ m = 7 \/
               m = 8 \/ m = 9 \/ m = 10 \/ m = 11)%Z) by lia.
  repeat (destruct C as [->|C]; [eexists; eexists; split; [vm_compute; reflexivity|];
                                 repeat split; reflexivity|]).
  subst. eexists; eexists; split; [vm_compute; reflexivity|]. repeat split; reflexivity.
Qed.

Lemma year_digits (y : Z) :
  (10 <= y)%Z ->
  exists c d,
    slice_from (JsString.of_Z y) (-2) = [c; d] /\
    is_digit c = true /\ is_digit d = true /\
    JsString.digits_value [c; d] = Z.to_N (y mod 100).
Proof.
  intros H. unfold JsString.of_Z. replace (y <? 0)%Z with false by (symmetry; lia).
  set (n := Z.to_N y). assert (Hn : (10 <= n)%N) by (unfold n; lia).
  destruct (of_N_last_two Hn) as (pre & ->). rewrite slice_last_two.
  assert (D : forall d, (d < 10)%N -> is_digit (48 + d) = true).
  { intros d Hd. unfold is_digit. apply andb_true_iff. split; apply N.leb_le; lia. }
  pose proof (N.mod_upper_bound (n / 10) 10 ltac:(discriminate)) as M1.
  pose proof (N.mod_upper_bound n 10 ltac:(discriminate)) as M0.
  do 2 eexists. split; [reflexivity|]. split; [now apply D|]. split; [now apply D|].
  unfold JsString.digits_value. cbn [fold_left].
  replace (Z.to_N (y mod 100)) with (n mod 100)%N.
  2:{ unfold n. rewrite Z2N.inj_mod by lia. reflexivity. }
  assert (E : (n mod 100 = 10 * ((n / 10) mod 10) + n mod 10)%N).
  { pose proof (N.div_mod n 10 ltac:(discriminate)) as E1.
    pose proof (N.div_mod (n / 10) 10 ltac:(discriminate)) as E2.
    set (a0 := (n mod 10)%N) in *. set (a1 := ((n / 10) mod 10)%N) in *.
    set (r := (n / 10 / 10)%N) in *. clearbody a0 a1 r.
    assert (E3 : n = (r * 100 + (10 * a1 + a0))%N) by lia.
    rewrite E3 at 1. rewrite N.add_comm, N.Div0.mod_add. apply N.mod_small. lia. }
  rewrite E. set (a0 := (n mod 10)%N). set (a1 := ((n / 10) mod 10)%N).
  clearbody a0 a1. lia.
Qed.

(** *** The fips of a polygon *)

Lemma geo_fips_num (n : N) (name : StrField) :
  (n < 100000)%N ->
  let f := geo_fips {| geo_id := IdNum n; geo_NAME := name |} in
  List.length f = 5%nat /\ Forall (fun c => is_digit c = true) f /\
  JsString.digits_value f = n.
Proof.
  intros Hn f. unfold f, geo_fips. cbn [geo_id].
  pose proof (@of_N_length 4 n Hn) as L. split; [now apply padStart_length|].
  rewrite padStart_zero. split.
  - apply Forall_app. split; [|apply of_N_digits].
    apply Forall_forall. intros c Hc. apply repeat_spec in Hc. now subst.
  - rewrite digits_value_zeros. apply digits_value_of_N.
Qed.

Lemma five_digits (f : jsstring) :
  List.length f = 5%nat -> Forall (fun c => is_digit c = true) f ->
  (JsString.startsWith f (str "48") = true <->
   (48000 <= JsString.digits_value f <= 48999)%N).
Proof.
  intros L D. destruct f as [|a [|b [|c [|d [|e [|]]]]]]; try discriminate.
  repeat match goal with
         | H : Forall _ (_ :: _) |- _ => inversion H; clear H; subst
         end.
  repeat match goal with
         | H : is_digit _ = true |- _ =>
             apply andb_true_iff in H as [?%N.leb_le ?%N.leb_le]
         end.
  change (str "48") with [52%N; 56%N]. cbn [JsString.startsWith].
  unfold JsString.digits_value. cbn [fold_left].
  rewrite !andb_true_iff, !N.eqb_eq. split.
  - intros (-> & -> & _). lia.
  - intros R. repeat split; lia.
Qed.

Lemma texas_num (n : N) (name : StrField) :
  (n < 100000)%N ->
  (JsString.startsWith (geo_fips {| geo_id := IdNum n; geo_NAME := name |}) (str "48") = true
   <-> (48000 <= n <= 48999)%N).
Proof.
  intros Hn. destruct (geo_fips_num name Hn) as (L & D & V).
  rewrite (@five_digits _ L D), V. reflexivity.
Qed.

(** *** The cache of the centroids *)

Section Cache.

Variable C : Type.
Variable geoCentroid : Geo -> C.

Lemma map_get_set (m : JsMap C) (k k' : jsstring) (v : C) :
  map_get (map_set m k v) k' = if JsString.eqb k k' then Some v else map_get m k'.
Proof.
  induction m as [|[k0 v0] m IH]; simpl.
  - reflexivity.
  - destruct (JsString.eqb k0 k) eqn:E0; simpl.
    + apply eqb_eq in E0. subst k0. destruct (JsString.eqb k k'); reflexivity.
    + rewrite IH. destruct (JsString.eqb k0 k') eqn:E1; [|reflexivity].
      destruct (JsString.eqb k k') eqn:E2; [|reflexivity].
      apply eqb_eq in E1, E2. subst. rewrite eqb_refl in E0. discriminate.
Qed.

Lemma visit_keeps (c : JsMap C) (g : Geo) (k : jsstring) (v : C) :
  map_get c k = Some v -> map_get (cache_visit geoCentroid c g) k = Some v.
Proof.
  intros H. unfold cache_visit, map_has. destruct (map_get c (geo_fips g)) eqn:E; [assumption|].
  rewrite map_get_set. destruct (JsString.eqb (geo_fips g) k) eqn:Ek; [|assumption].
  apply eqb_eq in Ek. congruence.
Qed.

Lemma visit_has (c : JsMap C) (g : Geo) : map_has (cache_visit geoCentroid c g) (geo_fips g) = true.
Proof.
  unfold cache_visit. destruct (map_has c (geo_fips g)) eqn:E; [assumption|].
  unfold map_has. now rewrite map_get_set, eqb_refl.
Qed.

Lemma fold_keeps (gs : list Geo) :
  forall c k v, map_get c k = Some v -> map_get (fold_left (cache_visit geoCentroid) gs c) k = Some v.
Proof.
  induction gs as [|g gs IH]; intros c k v H; simpl; [assumption|].
  apply IH. now apply visit_keeps.
Qed.

Lemma has_get (c : JsMap C) (k : jsstring) :
  map_has c k = true <-> exists v, map_get c k = Some v.
Proof.
  unfold map_has. destruct (map_get c k) as [v|]; split.
  - intros _. now exists v.
  - reflexivity.
  - discriminate.
  - intros [v H]. discriminate.
Qed.

Lemma fold_has (gs : list Geo) :
  forall c g, In g gs -> map_has (fold_left (cache_visit geoCentroid) gs c) (geo_fips g) = true.
Proof.
  induction gs as [|g0 gs IH]; intros c g Hin; [contradiction|]. simpl.
  destruct Hin as [->|Hin]; [|now apply IH].
  pose proof (visit_has c g) as H. apply has_get in H as [v Hv].
  apply has_get. exists v. now apply fold_keeps.
Qed.

Lemma fold_fixed (gs : list Geo) :
  forall c, (forall g, In g gs -> map_has c (geo_fips g) = true) -> fold_left (cache_visit geoCentroid) gs c = c.
Proof.
  induction gs as [|g gs IH]; intros c H; simpl; [reflexivity|].
  unfold cache_visit at 2. rewrite (H g (or_introl eq_refl)). apply IH.
  intros g' Hg'. apply H. now right.
Qed.

Lemma fold_first (gs : list Geo) (g : Geo) :
  forall c,
    map_get c (geo_fips g) = None ->
    (forall g', In g' gs -> geo_fips g' <> geo_fips g) ->
    forall rest,
      map_get (fold_left (cache_visit geoCentroid) (gs ++ g :: rest) c) (geo_fips g) = Some (geoCentroid g).
Proof.
  induction gs as [|g0 gs IH]; intros c Hc Hne rest.
  - simpl. apply fold_keeps. unfold cache_visit, map_has. rewrite Hc.
    now rewrite map_get_set, eqb_refl.
  - simpl. apply IH.
    + unfold cache_visit. destruct (map_has c (geo_fips g0)); [assumption|].
      rewrite map_get_set. replace (JsString.eqb (geo_fips g0) (geo_fips g)) with false;
        [assumption|].
      symmetry. apply eqb_neq. apply Hne. now left.
    + intros g' Hg'. apply Hne. now right.
Qed.

End Cache.

End MapFacts.

(** ** How far a short form is from the amount *)

Module AccuracyFacts.

Import JsNumber Helpers Forms Props Binary64Facts FormatFacts.







End AccuracyFacts.

(** * Properties of the specification *)

Import App Helpers Spec Fixtures ControllerFacts.

(** ** C1: a response is committed whatever the selection is *)

(** C1, as the specification states it, at one input: Collin is
    selected, then Dallas; the response for Dallas arrives, then the one
    for Collin.  The selection is Dallas and the series on display is the
    one of Collin. *)
Lemma C1_stale_response_is_committed :
  exists s',
    race host0 (list_resolved init (Some counties0))
         (str "48085") SUndefined (str "48113") SUndefined
         (Succeeds body_collin) (Succeeds body_dallas) false = Some s' /\
    selected s' = Some {| sel_fips := str "48113"; sel_name := str "Dallas" |} /\
    series s' = Some (series_of body_collin) /\
    series s' <> Some (series_of body_dallas).
Proof.
  eexists. split; [vm_compute; reflexivity|].
  split; [reflexivity|]. split; [reflexivity|]. vm_compute. discriminate.
Qed.

(** C1, amended.  County A is selected, then county B before the
    response for A arrives.  No response is discarded: each one is
    committed when it arrives, a success as the series and a failure as
    the error.  After both, the selection is B; the series is the one of
    the success that arrived last, or none; the error is the one of the
    failure that arrived last, or empty. *)
Theorem C1_last_arrival_wins (h : Host) (s : State) (fA : jsstring) (nA : StrField)
    (fB : jsstring) (nB : StrField) (oA oB : Outcome) (a_first : bool) (q : jsstring) :
  run_suffix (runId s) = Some q ->
  exists s',
    race h s fA nA fB nB oA oB a_first = Some s' /\
    selected s' = Some {| sel_fips := fB; sel_name := shown_name s fB nB |} /\
    series s' =
      (let '(o1, o2) := if a_first then (oA, oB) else (oB, oA) in
       match o2, o1 with
       | Succeeds b, _ => Some (series_of b)
       | Fails, Succeeds b => Some (series_of b)
       | Fails, Fails => None
       end) /\
    error s' =
      (let eA := no_timeseries (shown_name s fA nA) fA in
       let eB := no_timeseries (shown_name s fB nB) fB in
       let '(o1, e1, o2, e2) := if a_first then (oA, eA, oB, eB) else (oB, eB, oA, eA) in
       match o2, o1 with
       | Fails, _ => e2
       | Succeeds _, Fails => e1
       | Succeeds _, Succeeds _ => []
       end).
Proof.
  intros Hq. eexists. split; [apply (race_unfold h s fA nA fB nB oA oB a_first Hq)|].
  destruct a_first, oA, oB; repeat split; reflexivity.
Qed.

Lemma C1_last_arrival_wins_witness :
  exists s',
    race host0 init (str "48085") (SStr (str "Collin")) (str "48113") (SStr (str "Dallas"))
         Fails (Succeeds body_dallas) false = Some s' /\
    series s' = Some (series_of body_dallas) /\
    error s' = str "No timeseries for Collin (48085)".
Proof.
  destruct (@C1_last_arrival_wins host0 init (str "48085") (SStr (str "Collin"))
              (str "48113") (SStr (str "Dallas")) Fails (Succeeds body_dallas) false []
              eq_refl) as (s' & Hr & _ & Hs & He).
  exists s'. split; [exact Hr|]. split; [exact Hs | exact He].
Defined.

(** ** C2: the run of the list is the run of every series request *)

(** C2.  In a session, once the list response has arrived with a
    non-empty run (a string of 16-bit code units), every series request
    issued afterwards has the URL
    [API/loss/county?fips=<fips>&run=<encodeURIComponent(run)>], whose run
    qualifier decodes to that run; and the stored run identifier stays
    the run of the list. *)
Theorem C2_run_pinned (h : Host) (es0 es : list Event) (s0 s1 s2 : State)
    (d : CountiesResponse) (r : jsstring) :
  steps h init es0 = Some s0 ->
  step h s0 (ListResolve (Some d)) = Some s1 ->
  run d = SStr r -> r <> [] -> Uri.well_formed r ->
  steps h s1 es = Some s2 ->
  runId s1 = Some r /\ runId s2 = Some r /\ issued_since (carries_run h r) s1 s2.
Proof.
  intros _ H1 Hr Hne Hwf H2. simpl in H1.
  destruct (listPending s0); [|discriminate]. injection H1 as <-.
  assert (E : runId (list_resolved s0 (Some d)) = Some r).
  { simpl. rewrite Hr. destruct r; [contradiction | reflexivity]. }
  destruct (@steps_pinned h (carries_run h r) es (list_resolved s0 (Some d)) s2)
    as [Hk Hi]; [reflexivity | | assumption | ].
  - intros f n q Hq. rewrite E in Hq. unfold run_suffix in Hq.
    destruct r as [|c r]; [contradiction|].
    destruct (Uri.encodeURIComponent (c :: r)) as [e|] eqn:Ee; [|discriminate].
    injection Hq as <-. exists e. split; [assumption|].
    split; [now apply UriFacts.decode_encode | reflexivity].
  - split; [assumption|]. split; [congruence | assumption].
Qed.

Lemma C2_run_pinned_witness :
  exists s2,
    steps host0 (list_resolved init (Some counties0))
          [Select (str "48085") SUndefined; SeriesReject 0;
           Select (str "48113") SUndefined] = Some s2 /\
    runId s2 = Some (str "run_dt=20240101T000000Z") /\
    issued_since (carries_run host0 (str "run_dt=20240101T000000Z"))
                 (list_resolved init (Some counties0)) s2 /\
    map url (sent s2) =
      [str "https://api.example/loss/county?fips=48085&run=run_dt%3D20240101T000000Z";
       str "https://api.example/loss/county?fips=48113&run=run_dt%3D20240101T000000Z"].
Proof.
  eexists. split; [vm_compute; reflexivity|].
  match goal with
  | |- runId ?s2 = _ /\ _ =>
      destruct (@C2_run_pinned host0 []
                  [Select (str "48085") SUndefined; SeriesReject 0;
                   Select (str "48113") SUndefined]
                  init (list_resolved init (Some counties0)) s2 counties0
                  (str "run_dt=20240101T000000Z") eq_refl eq_refl eq_refl)
        as (_ & Hr & Hi);
        [discriminate | repeat constructor | vm_compute; reflexivity |]
  end.
  split; [exact Hr|]. split; [exact Hi|]. vm_compute. reflexivity.
Defined.

(** ** C8: a failed series fetch *)


(** ** C10: no run in the list response *)

(** C10.  When the list response has no run, [runId] is [null], and
    every series request issued afterwards has the URL
    [API/loss/county?fips=<fips>] with nothing behind the fips. *)
Theorem C10_no_run_parameter (h : Host) (es0 es : list Event) (s0 s1 s2 : State)
    (data : option CountiesResponse) :
  steps h init es0 = Some s0 ->
  step h s0 (ListResolve data) = Some s1 ->
  run_missing data ->
  steps h s1 es = Some s2 ->
  runId s1 = None /\ runId s2 = None /\ issued_since (carries_no_run h) s1 s2.
Proof.
  intros _ H1 Hm H2. simpl in H1.
  destruct (listPending s0); [|discriminate]. injection H1 as <-.
  assert (E : runId (list_resolved s0 data) = None).
  { simpl. destruct data as [d|]; [|reflexivity].
    destruct Hm as [-> | [-> | ->]]; reflexivity. }
  destruct (@steps_pinned h (carries_no_run h) es (list_resolved s0 data) s2)
    as [Hk Hi]; [reflexivity | | assumption | ].
  - intros f n q Hq. rewrite E in Hq. injection Hq as <-.
    unfold carries_no_run, series_url. simpl. now rewrite app_nil_r.
  - split; [assumption|]. split; [congruence | assumption].
Qed.


Lemma C10_no_run_parameter_witness :
  exists s2,
    steps host0 (list_resolved init (Some {| run := SStr []; counties := Some [collin] |}))
          [Select (str "48085") SUndefined] = Some s2 /\
    runId s2 = None /\
    map url (sent s2) = [str "https://api.example/loss/county?fips=48085"].
Proof.
  eexists. split; [vm_compute; reflexivity|].
  match goal with
  | |- runId ?s2 = _ /\ _ =>
      destruct (@C10_no_run_parameter host0 [] [Select (str "48085") SUndefined]
                  init (list_resolved init (Some {| run := SStr []; counties := Some [collin] |}))
                  s2 (Some {| run := SStr []; counties := Some [collin] |})
                  eq_refl eq_refl)
        as (_ & Hr & _); [right; right; reflexivity | vm_compute; reflexivity |]
  end.
  split; [exact Hr|]. vm_compute. reflexivity.
Defined.

Import ViewFacts.

(** ** C3: the cumulative series *)

(** C3.  The series committed on load has one point per raw point, in
    the same order; the [cum] of its i-th point is the sum, from zero and
    from the left, of the [el_total] of its points 0 to i; and the steps
    100, 200, 50 give 100, 300, 350. *)
Theorem C3_cumulative_series (l : list RawPoint) :
  List.length (cumulative l) = List.length l /\
  map dt (cumulative l) = map (fun s => NewDate (raw_dt s)) l /\
  map el_total (cumulative l) = map step_of l /\
  map cum (cumulative l) =
    map (fun i => fold_left JsNumber.add (firstn (S i) (map el_total (cumulative l))) (Fin 0))
        (seq 0 (List.length l)) /\
  (forall (s : State) (rq : Request),
      series (series_resolved s rq (Some {| body_series := Some l |})) = Some (cumulative l)) /\
  map cum (cumulative (raw [100; 200; 50]%Z)) = [Fin 100; Fin 300; Fin 350].
Proof.
  unfold cumulative. split.
  - rewrite <- (length_map dt), cumulative_from_dt. apply length_map.
  - split; [apply cumulative_from_dt|]. split; [apply cumulative_from_steps|].
    split; [rewrite cumulative_from_steps; apply cumulative_from_cum|].
    split; [reflexivity | vm_compute; reflexivity].
Qed.

(** ** C4: suggestions *)

(** C4, as the specification states it, at one input: the query is
    [" col"], which is not blank; Collin is suggested, and its name does
    not contain the query, in any letter case. *)
Lemma C4_query_is_trimmed :
  JsString.trim (str " col") <> [] /\
  In collin (suggestions host0 (str " col") (Some counties0)) /\
  JsString.includes (toLowerCase host0 (strfield_or (name collin) []))
                    (toLowerCase host0 (str " col")) = false.
Proof.
  split; [vm_compute; discriminate|]. split; [vm_compute; auto | vm_compute; reflexivity].
Qed.

(** C4, amended.  A query that is empty or blank has no suggestion.
    Otherwise there are at most three suggestions; each is a county of
    the list whose lower-cased name contains the lower-cased query with
    the white space at its two ends removed; and they are in descending
    order of [el_total_sum]. *)
Theorem C4_suggestions (h : Host) (q : jsstring) (cm : option CountiesResponse) :
  (forallb JsString.is_ws q = true -> suggestions h q cm = []) /\
  (List.length (suggestions h q cm) <= 3)%nat /\
  Forall (fun c =>
            In c (match counties_of cm with Some cs => cs | None => [] end) /\
            JsString.includes (toLowerCase h (strfield_or (name c) []))
                              (toLowerCase h (JsString.trim q)) = true)
         (suggestions h q cm) /\
  StronglySorted (fun a b => loss_q b <= loss_q a) (suggestions h q cm).
Proof.
  unfold suggestions. split; [|split; [|split]].
  - intros H. now rewrite (trim_all_ws q H).
  - destruct (JsString.trim q), (counties_of cm); try apply firstn_le_length; simpl; lia.
  - destruct (JsString.trim q) as [|c t] eqn:Et, (counties_of cm) as [cs|]; try constructor.
    rewrite Forall_forall. intros x Hx. apply In_firstn in Hx.
    apply (Permutation_in _ (sort_perm by_loss_desc _)) in Hx.
    apply filter_In in Hx. assumption.
  - destruct (JsString.trim q), (counties_of cm); try constructor.
    apply StronglySorted_firstn. apply (sort_sorted by_loss_desc loss_q by_loss_desc_spec).
Qed.

Lemma C4_suggestions_witness :
  suggestions host0 (str "  ") (Some counties0) = [] /\
  map fips (suggestions host0 (str " CO ") (Some counties0)) = [str "48085"; str "48083"].
Proof.
  split.
  - apply (proj1 (C4_suggestions host0 (str "  ") (Some counties0))). reflexivity.
  - vm_compute. reflexivity.
Defined.

(** ** C5: the ranked list *)

(** C5.  [topSorted] is a permutation of the county list, in
    descending order of [el_total_sum] (an absent one counting as 0), and
    the counties of any one [el_total_sum] are in the order they have in
    the list.  These three properties determine the ranking: whatever
    list has them is [topSorted], so computing the ranking again on the
    same list gives the same ranking. *)
Theorem C5_ranked_list (cm : option CountiesResponse) :
  let cs := match counties_of cm with Some cs => cs | None => [] end in
  Permutation (topSorted cm) cs /\
  StronglySorted (fun a b => loss_q b <= loss_q a) (topSorted cm) /\
  (forall k : Q,
      filter (fun c => Qeq_bool (loss_q c) k) (topSorted cm) =
      filter (fun c => Qeq_bool (loss_q c) k) cs) /\
  (forall ranked : list County,
      StronglySorted (fun a b => loss_q b <= loss_q a) ranked ->
      (forall k : Q,
          filter (fun c => Qeq_bool (loss_q c) k) ranked =
          filter (fun c => Qeq_bool (loss_q c) k) cs) ->
      ranked = topSorted cm).
Proof.
  unfold topSorted. split; [apply sort_perm|]. split; [|split].
  - apply (sort_sorted by_loss_desc loss_q by_loss_desc_spec).
  - intros k. apply (sort_stable by_loss_desc loss_q by_loss_desc_spec).
  - intros ranked Hs He. now apply (@sort_unique _ by_loss_desc loss_q by_loss_desc_spec).
Qed.

Lemma C5_ranked_list_witness :
  topSorted (Some counties0) = [dallas; collin; coleman].
Proof.
  symmetry. apply (proj2 (proj2 (proj2 (C5_ranked_list (Some counties0))))).
  - repeat constructor; vm_compute; discriminate.
  - intros k. simpl. unfold loss_q. simpl.
    destruct (Qeq_bool 5 k) eqn:E5, (Qeq_bool 9 k) eqn:E9; try reflexivity.
    apply Qeq_bool_iff in E5, E9. rewrite <- E5 in E9. discriminate.
Defined.

Import JsNumber Forms FormatFacts.

(** ** C6: the short currency format *)



(** ** C7: the colour scale *)




(** ** C9: the output grows with the amount *)




(** * Further properties of the views *)

Import JsNumber Helpers App Views Spec Props Forms Fixtures JsHost.
Import ViewFacts FormatFacts LayerFacts ColourFacts SeriesFacts.

(** X1.  The index of the counties gives, for a fips, the last county of
    the list with that fips; it gives nothing exactly when no county of
    the list has the fips; and when no two counties share a fips, the
    lookup of the fips of a county of the list gives that county. *)
Theorem X1_county_index (cm : option CountiesResponse) (cs : list County) (f : jsstring) :
  counties_of cm = Some cs ->
  countyIndex_get cm f = find (fun c => JsString.eqb (fips c) f) (rev cs) /\
  (countyIndex_get cm f = None <-> forall c, In c cs -> fips c <> f) /\
  (forall c, NoDup (map fips cs) -> In c cs -> countyIndex_get cm (fips c) = Some c).
Proof.
  intros H. split; [now apply countyIndex_get_find|].
  split; [now apply countyIndex_get_none|].
  intros c Hnd Hin. now apply (@countyIndex_get_unique cm cs c).
Qed.

Lemma X1_county_index_witness :
  countyIndex_get (Some counties0) (str "48113") = Some dallas /\
  countyIndex_get
    (Some {| run := SNull;
             counties := Some [collin;
                               {| fips := str "48085"; name := SStr (str "Collin County");
                                  el_total_sum := Num (Fin 7) |}] |})
    (str "48085")
  = Some {| fips := str "48085"; name := SStr (str "Collin County");
            el_total_sum := Num (Fin 7) |}.
Proof.
  split.
  - apply (proj2 (proj2 (X1_county_index (Some counties0) (str "48113") eq_refl)) dallas).
    + repeat constructor; simpl; intuition discriminate.
    + simpl. tauto.
  - rewrite (proj1 (X1_county_index (Some {| run := SNull; counties := Some _ |})
                                    (str "48085") eq_refl)).
    reflexivity.
Defined.







(** X6.  The suggestions are the first three counties of the ranking
    [topSorted] whose lower-cased name contains the lower-cased, trimmed
    query; there is none when the trimmed query is empty. *)
Theorem X6_suggestions_from_ranking (h : Host) (q : jsstring)
    (cm : option CountiesResponse) :
  suggestions h q cm
  = match JsString.trim q with
    | [] => []
    | _ :: _ => firstn 3 (filter (query_matches h q) (topSorted cm))
    end.
Proof. apply suggestions_ranking. Qed.

(** X7.  White space in front of the query and behind it does not
    change the suggestions. *)
Theorem X7_suggestions_padding (h : Host) (a q b : jsstring)
    (cm : option CountiesResponse) :
  forallb JsString.is_ws a = true -> forallb JsString.is_ws b = true ->
  suggestions h (a ++ q ++ b) cm = suggestions h q cm.
Proof. apply suggestions_padding. Qed.

Lemma X7_suggestions_padding_witness :
  suggestions host0 (str "  " ++ str "col" ++ str " ") (Some counties0)
  = suggestions host0 (str "col") (Some counties0).
Proof. apply X7_suggestions_padding; reflexivity. Defined.

(** X8.  The list of the top counties has at most twelve rows, the
    first counties of the ranking; the amount of a row is the short form
    of the loss of its county; and when no loss of these counties is
    negative, the amount that a row prints is never above the one of a
    row before it. *)
Theorem X8_top_rows (h : Host) (cm : option CountiesResponse) :
  (List.length (top_rows h cm) <= 12)%nat /\
  top_counties cm = firstn 12 (topSorted cm) /\
  map row_amount (top_rows h cm)
  = map (fun c => render h (short_form (loss_q c))) (top_counties cm) /\
  StronglySorted (fun a b => loss_q b <= loss_q a) (top_counties cm) /\
  ((forall c, In c (top_counties cm) -> 0 <= loss_q c) ->
   StronglySorted
     (fun a b => denoted (short_form (loss_q b)) <= denoted (short_form (loss_q a)))
     (top_counties cm)).
Proof.
  assert (S : StronglySorted (fun a b => loss_q b <= loss_q a) (top_counties cm)).
  { apply StronglySorted_firstn. apply topSorted_sorted. }
  split; [|split; [reflexivity|split; [|split; [exact S|]]]].
  - unfold top_rows. rewrite length_map. apply firstn_le_length.
  - unfold top_rows. rewrite map_map. apply map_ext. intros c. cbn [row_amount].
    rewrite fmtCurrencyShort_form. reflexivity.
  - intros Hpos. revert S. apply StronglySorted_weaken.
    intros x y Hx Hy Hxy. apply denoted_mono; [now apply Hpos | assumption].
Qed.

Lemma X8_top_rows_witness :
  map row_amount (top_rows host0 (Some counties0)) = [str "$9"; str "$5"; str "$5"] /\
  StronglySorted
    (fun a b => denoted (short_form (loss_q b)) <= denoted (short_form (loss_q a)))
    (top_counties (Some counties0)).
Proof.
  split; [vm_compute; reflexivity|].
  apply (proj2 (proj2 (proj2 (proj2 (X8_top_rows host0 (Some counties0)))))).
  intros c [<-|[<-|[<-|[]]]]; vm_compute; discriminate.
Defined.

(** X9.  When no two counties of the list share a fips, a click on a
    row of the list of the top counties selects the county of the row,
    under the label of the row: its name, or its fips when it has no
    name. *)
Theorem X9_row_click (h : Host) (s : State) (cs : list County) (i : nat) (c : County) :
  counties_of (countiesMeta s) = Some cs -> NoDup (map fips cs) ->
  nth_error (top_counties (countiesMeta s)) i = Some c ->
  selected (row_click h s c)
  = Some {| sel_fips := fips c; sel_name := strfield_or (name c) (fips c) |}.
Proof.
  intros Hcs Hnd Hi. unfold row_click, selectWithoutZoom.
  destruct (SessionFacts.loadCounty_fields h s (fips c)
              (shown_name s (fips c) (SStr (strfield_or (name c) (fips c)))))
    as (_ & _ & _ & _ & -> & _).
  do 2 f_equal. rewrite SessionFacts.shown_name_order. unfold meta_name.
  assert (Hin : In c cs).
  { apply nth_error_In in Hi. apply In_firstn in Hi.
    apply topSorted_In in Hi as (cs' & E & Hin). congruence. }
  rewrite (@countyIndex_get_unique _ cs c Hcs Hnd Hin).
  destruct (name c) as [| |[|x n]]; simpl; try reflexivity; now destruct (fips c).
Qed.

Lemma X9_row_click_witness :
  selected (row_click host0 (list_resolved init (Some counties0)) dallas)
  = Some {| sel_fips := str "48113"; sel_name := str "Dallas" |}.
Proof.
  apply (@X9_row_click host0 (list_resolved init (Some counties0))
                       [collin; dallas; coleman] 0 dallas).
  - reflexivity.
  - repeat constructor; simpl; intuition discriminate.
  - vm_compute. reflexivity.
Defined.

(** X10.  When no step of a series is negative, its cumulative values
    never decrease from a point to a later one, and none is negative. *)
Theorem X10_cumulative_monotone (l : list RawPoint) :
  (forall s, In s l -> 0 <= num_q (step_of s)) ->
  StronglySorted (fun a b => num_q (cum a) <= num_q (cum b)) (cumulative l) /\
  Forall (fun p => 0 <= num_q (cum p)) (cumulative l).
Proof.
  intros H. apply cumulative_from_mono; [lra | reflexivity | assumption].
Qed.

Lemma X10_cumulative_monotone_witness :
  StronglySorted (fun a b => num_q (cum a) <= num_q (cum b))
                 (cumulative (raw [100; 0; 50]%Z)) /\
  Forall (fun p => 0 <= num_q (cum p)) (cumulative (raw [100; 0; 50]%Z)).
Proof.
  apply X10_cumulative_monotone.
  intros s [<-|[<-|[<-|[]]]]; vm_compute; discriminate.
Defined.



(** * Further properties of the controller *)

Import ControllerFacts RunFacts SessionFacts.

(** X11.  The run qualifier of a series URL is [&run=] followed by
    unreserved characters, [%] and upper-case hexadecimal digits only:
    the encoded run holds no [&], [=], [#], [?], [/], [+] and no space,
    whatever the run of the list is. *)
Theorem X11_run_qualifier_safe (r q : jsstring) :
  Uri.well_formed r -> r <> [] -> run_suffix (Some r) = Some q ->
  exists e,
    q = str "&run=" ++ e /\ Uri.encodeURIComponent r = Some e /\
    Forall (fun c => url_safe c = true) e /\
    Forall (fun c => ~ In c (str "&=#?/+ ")) e.
Proof.
  intros Hwf Hne Hq. destruct r as [|c r]; [contradiction|].
  unfold run_suffix in Hq.
  destruct (Uri.encodeURIComponent (c :: r)) as [e|] eqn:E; [|discriminate].
  injection Hq as <-. exists e. split; [reflexivity|]. split; [reflexivity|].
  pose proof (encode_safe Hwf E) as S. split; [assumption|].
  eapply Forall_impl; [|exact S]. intros x Hx Hin. simpl in Hin.
  repeat (destruct Hin as [<-|Hin]; [discriminate Hx|]). contradiction.
Qed.

Lemma X11_run_qualifier_safe_witness :
  exists e,
    run_suffix (Some (str "run_dt=2024&x")) = Some (str "&run=" ++ e) /\
    Forall (fun c => ~ In c (str "&=#?/+ ")) e.
Proof.
  destruct (@X11_run_qualifier_safe (str "run_dt=2024&x") (str "&run=run_dt%3D2024%26x"))
    as (e & E & _ & _ & S).
  - repeat constructor.
  - discriminate.
  - vm_compute. reflexivity.
  - exists e. split; [now rewrite <- E | exact S].
Defined.

(** X12.  [encodeURIComponent] throws exactly on a text with a lone
    surrogate.  When the stored run is such a text, the activation of a
    county sets the selection, issues no request and shows the error
    message; when its surrogates are paired, the activation issues one
    request for the fips and clears the error. *)
Theorem X12_lone_surrogate (h : Host) (s : State) (f : jsstring) (fb : StrField)
    (r : jsstring) :
  runId s = Some r -> r <> [] ->
  let s' := selectWithoutZoom h s f fb in
  let sel := {| sel_fips := f; sel_name := shown_name s f fb |} in
  (Uri.encodeURIComponent r = None <-> isWellFormed r = false) /\
  selected s' = Some sel /\
  (isWellFormed r = false ->
   sent s' = sent s /\ pending s' = pending s /\
   error s' = no_timeseries (shown_name s f fb) f /\ series s' = None) /\
  (isWellFormed r = true ->
   exists rq, sent s' = sent s ++ [rq] /\ pending s' = pending s ++ [rq] /\
              req_fips rq = f /\ error s' = []).
Proof.
  intros Hr Hne s' sel. split; [apply encode_throws|].
  unfold s', selectWithoutZoom.
  destruct (loadCounty_fields h s f (shown_name s f fb)) as (_ & _ & _ & _ & E5 & E6).
  split; [exact E5|].
  assert (Q : run_suffix (runId s) = None <-> isWellFormed r = false).
  { rewrite Hr. destruct r as [|c r]; [contradiction|]. unfold run_suffix.
    rewrite <- encode_throws. destruct (Uri.encodeURIComponent (c :: r)); simpl;
      split; intros H; solve [discriminate H | reflexivity]. }
  destruct (loadCounty_sent h s f (shown_name s f fb))
    as [(q & Hq & S & P & Er)|(Hq & S & P & Er)].
  - split.
    + intros W. apply Q in W. congruence.
    + intros _. eexists. split; [exact S|]. split; [exact P|]. now split.
  - split.
    + intros _. repeat split; assumption.
    + intros W. apply Q in Hq. congruence.
Qed.

Lemma X12_lone_surrogate_witness :
  let s := list_resolved init (Some {| run := SStr [55357%N]; counties := None |}) in
  sent (selectWithoutZoom host0 s (str "48085") SUndefined) = [] /\
  error (selectWithoutZoom host0 s (str "48085") SUndefined)
  = str "No timeseries for 48085 (48085)".
Proof.
  intros s.
  destruct (@X12_lone_surrogate host0 s (str "48085") SUndefined [55357%N] eq_refl
              ltac:(discriminate)) as (_ & _ & H & _).
  destruct (H eq_refl) as (S & _ & E & _). split; [exact S | exact E].
Defined.

(** X13.  The run qualifier determines the run: under two different
    runs, the series URLs of one fips are different. *)
Theorem X13_run_determined (h : Host) (f r1 r2 q1 q2 : jsstring) :
  Uri.well_formed r1 -> Uri.well_formed r2 -> r1 <> [] -> r2 <> [] ->
  run_suffix (Some r1) = Some q1 -> run_suffix (Some r2) = Some q2 ->
  r1 <> r2 -> series_url h f q1 <> series_url h f q2.
Proof.
  intros W1 W2 N1 N2 Q1 Q2 Hne U. apply Hne.
  apply series_url_suffix in U. subst q2.
  destruct r1 as [|c1 r1]; [contradiction|]. destruct r2 as [|c2 r2]; [contradiction|].
  unfold run_suffix in Q1, Q2.
  destruct (Uri.encodeURIComponent (c1 :: r1)) as [e1|] eqn:E1; [|discriminate].
  destruct (Uri.encodeURIComponent (c2 :: r2)) as [e2|] eqn:E2; [|discriminate].
  injection Q1 as <-. injection Q2 as Q2. subst e2.
  exact (encode_injective W1 W2 E1 E2).
Qed.

Lemma X13_run_determined_witness :
  series_url host0 (str "48085") (str "&run=a%20b")
  <> series_url host0 (str "48085") (str "&run=a%2Bb").
Proof.
  apply (@X13_run_determined host0 (str "48085") (str "a b") (str "a+b"));
    try (repeat constructor; fail); try discriminate; vm_compute; reflexivity.
Defined.

(** X14.  At every moment of a session the loading flag of the list is
    on exactly while the list request is in flight; while it is in flight
    there is no county list, no ranking and no run; and as long as no
    county is selected there is no series and no series request. *)
Theorem X14_session_invariant (h : Host) (es : list Event) (s : State) :
  steps h init es = Some s ->
  loading s = listPending s /\
  (listPending s = true ->
   countiesMeta s = None /\ runId s = None /\ topSorted (countiesMeta s) = []) /\
  (selected s = None -> series s = None /\ sent s = [] /\ pending s = []).
Proof.
  intros H. destruct (@steps_consistent h es init s H init_consistent) as (H1 & H2 & H3).
  split; [assumption|]. split; [|assumption].
  intros P. destruct (H2 P) as [M R]. rewrite M. repeat split; auto.
Qed.

Lemma X14_session_invariant_witness :
  exists s,
    steps host0 init [Select (str "48085") SUndefined; ListResolve (Some counties0)] = Some s /\
    loading s = listPending s.
Proof.
  eexists. split; [reflexivity|].
  apply (@X14_session_invariant host0
           [Select (str "48085") SUndefined; ListResolve (Some counties0)]).
  reflexivity.
Defined.

(** X15.  In a session in which the list has not arrived (its request
    is in flight or has failed), the run identifier is [null] and every
    series request issued has the URL [API/loss/county?fips=<fips>],
    without a run. *)
Theorem X15_no_list_no_run (h : Host) (es : list Event) (s : State) :
  Forall not_list_resolve es -> steps h init es = Some s ->
  runId s = None /\ Forall (carries_no_run h) (sent s).
Proof.
  intros F H. destruct (@steps_no_run h es init s H F eq_refl) as (R & new & S & Fn).
  split; [assumption|]. rewrite S. exact Fn.
Qed.

Lemma X15_no_list_no_run_witness :
  exists s,
    steps host0 init [Select (str "48085") SUndefined; ListReject;
                      Select (str "48113") SUndefined] = Some s /\
    Forall (carries_no_run host0) (sent s).
Proof.
  eexists. split; [reflexivity|].
  apply (@X15_no_list_no_run host0
           [Select (str "48085") SUndefined; ListReject; Select (str "48113") SUndefined]).
  - repeat constructor.
  - reflexivity.
Defined.

(** X16.  In a session, the selection is never cleared: before the
    first activation of a county there is no selection and no chart,
    and the placeholder is never [Loading...]; from the first activation
    on there is a selection, and the placeholder is never
    [Pick a county] again. *)
Theorem X16_selection_stays (h : Host) (es : list Event) (s : State) :
  steps h init es = Some s ->
  (Forall not_select es ->
   selected s = None /\ chart (chart_panel s) = None /\
   placeholder (chart_panel s) <> Some loading_text) /\
  (~ Forall not_select es ->
   selected s <> None /\ placeholder (chart_panel s) <> Some pick_text).
Proof.
  intros H. destruct (@steps_selected h es init s H) as [S1 S2].
  destruct (@steps_consistent h es init s H init_consistent) as (_ & _ & C). split.
  - intros F. specialize (S1 F). simpl in S1. split; [assumption|].
    destruct (C S1) as (Se & _ & _). unfold chart_panel. rewrite Se, S1. simpl.
    split; [reflexivity|]. destruct (error s); discriminate.
  - intros F. specialize (S2 F). split; [assumption|].
    unfold chart_panel. simpl. destruct (selected s); [|contradiction].
    destruct (series s); [discriminate|]. destruct (error s); discriminate.
Qed.

Lemma X16_selection_stays_witness :
  exists s,
    steps host0 init [Select (str "48085") SUndefined; SeriesReject 0; ListReject] = Some s /\
    selected s <> None /\ placeholder (chart_panel s) <> Some pick_text.
Proof.
  eexists. split; [reflexivity|].
  apply (@X16_selection_stays host0
           [Select (str "48085") SUndefined; SeriesReject 0; ListReject]).
  - reflexivity.
  - intros F. inversion F as [|? ? H _]. exact H.
Defined.

(** X17.  The chart panel along one activation.  After the activation
    it shows [Loading...] and nothing else.  When the request fails it
    shows the error message of the selection and nothing else.  When the
    request succeeds it shows the chart of the series, and nothing at
    all, no chart and no text, when the series of the response is empty
    or absent. *)
Theorem X17_chart_panel (h : Host) (s : State) (f : jsstring) (fb : StrField)
    (q : jsstring) :
  run_suffix (runId s) = Some q ->
  let s1 := selectWithoutZoom h s f fb in
  let i := List.length (pending s) in
  chart_panel s1
  = {| placeholder := Some loading_text; error_text := None; chart := None |} /\
  (exists s2,
      step h s1 (SeriesReject i) = Some s2 /\
      chart_panel s2
      = {| placeholder := None;
           error_text := Some (no_timeseries (shown_name s f fb) f);
           chart := None |}) /\
  (forall body,
      exists s2,
        step h s1 (SeriesResolve i (Some body)) = Some s2 /\
        chart_panel s2
        = {| placeholder := None; error_text := None;
             chart := match series_of body with [] => None | _ :: _ => Some (series_of body) end |}).
Proof.
  intros Hq s1 i. unfold s1, selectWithoutZoom, loadCounty. rewrite Hq.
  split; [reflexivity|]. split.
  - eexists. split.
    + cbn [step pending]. unfold i. rewrite nth_error_middle. reflexivity.
    + reflexivity.
  - intros body. eexists. split.
    + cbn [step pending]. unfold i. rewrite nth_error_middle. reflexivity.
    + unfold chart_panel. simpl. destruct (series_of body); reflexivity.
Qed.

Lemma X17_chart_panel_witness :
  exists s2,
    step host0 (selectWithoutZoom host0 init (str "48085") SUndefined)
         (SeriesResolve 0 (Some {| body_series := None |})) = Some s2 /\
    chart_panel s2 = {| placeholder := None; error_text := None; chart := None |}.
Proof.
  destruct (@X17_chart_panel host0 init (str "48085") SUndefined [] eq_refl)
    as (_ & _ & H).
  destruct (H {| body_series := None |}) as (s2 & E & P).
  exists s2. split; [exact E | exact P].
Defined.

(** * Further properties of the search box, the dates and the map *)

Import SearchFacts MapFacts.

(** X18.  At every moment of a session of the page the highlighted
    index is 0 or the index of a suggestion.  So when the popover is open
    with suggestions, Enter activates the highlighted suggestion (the
    fallback to the first one is never taken), closes the popover and
    suppresses the default action of the key. *)
Theorem X18_enter_picks_highlight (h : Host) (es : list UiEvent) (u : Ui) :
  ui_steps h ui_init es = Some u ->
  (activeSug u = 0%nat \/ (activeSug u < List.length (ui_suggestions h u))%nat) /\
  (openSug u = true -> ui_suggestions h u <> [] ->
   exists pick,
     nth_error (ui_suggestions h u) (activeSug u) = Some pick /\
     onSearchKeyDown h u Enter
     = (set_open (set_app u (selectWithoutZoom h (ctl u) (fips pick) (name pick))) false,
        true)).
Proof.
  intros H.
  pose proof (@ui_steps_highlight h es ui_init u H (ui_init_highlight h)) as Hv.
  split; [exact (proj2 (proj2 Hv))|]. intros Ho Hne.
  destruct (highlight_pick Hv Hne) as (pick & Hp). exists pick. split; [assumption|].
  unfold onSearchKeyDown. rewrite Ho, Hp. simpl.
  destruct (ui_suggestions h u); [contradiction | reflexivity].
Qed.

Lemma X18_enter_picks_highlight_witness :
  exists u,
    ui_steps host0 ui_init
             [ListResolved (Some counties0); Typed (str "co"); KeyDown ArrowDown] = Some u /\
    activeSug u = 1%nat /\
    selected (ctl (fst (onSearchKeyDown host0 u Enter)))
    = Some {| sel_fips := str "48083"; sel_name := str "Coleman" |}.
Proof.
  eexists. split; [reflexivity|]. split; [reflexivity|].
  destruct (@X18_enter_picks_highlight host0
              [ListResolved (Some counties0); Typed (str "co"); KeyDown ArrowDown] _ eq_refl)
    as (_ & H).
  destruct (H eq_refl ltac:(discriminate)) as (pick & Hp & ->).
  vm_compute in Hp. injection Hp as <-. reflexivity.
Defined.

(** X19.  With the popover open, [n] presses of ArrowDown move the
    highlight [n] rows down and stop at the last suggestion; [n] presses
    of ArrowUp move it [n] rows up and stop at the first.  The highlight
    never wraps around, and nothing else changes. *)
Theorem X19_arrows_clamp (h : Host) (u : Ui) (n : nat) :
  openSug u = true -> (activeSug u < List.length (ui_suggestions h u))%nat ->
  ui_steps h u (repeat (KeyDown ArrowDown) n)
  = Some (set_active u (Nat.min (activeSug u + n) (List.length (ui_suggestions h u) - 1))) /\
  ui_steps h u (repeat (KeyDown ArrowUp) n) = Some (set_active u (activeSug u - n)).
Proof.
  intros Ho Hlt. split; [now apply arrowDown_many|]. apply arrowUp_many; [assumption|].
  destruct (ui_suggestions h u); [simpl in Hlt; lia | discriminate].
Qed.

Lemma X19_arrows_clamp_witness :
  let u := {| ctl := list_resolved init (Some counties0); q := str "l";
              openSug := true; activeSug := 1; blurTimers := 0 |} in
  ui_steps host0 u (repeat (KeyDown ArrowDown) 5) = Some (set_active u 2) /\
  ui_steps host0 u (repeat (KeyDown ArrowUp) 5) = Some (set_active u 0).
Proof.
  intros u. apply (@X19_arrows_clamp host0 u 5); [reflexivity | vm_compute; lia].
Defined.

(** X20.  Typing, the keys other than Enter, Enter on the closed
    popover, the loss of focus and its timer never reach the controller:
    the selection, the series, the error and the requests are what they
    were. *)
Theorem X20_passive_events (h : Host) (u u' : Ui) (e : UiEvent) :
  passive u e -> ui_step h u e = Some u' -> ctl u' = ctl u.
Proof. intros Hp Hs. exact (passive_app h u e Hs Hp). Qed.

Lemma X20_passive_events_witness :
  ctl (onChange ui_init (str "col")) = ctl ui_init.
Proof.
  apply (@X20_passive_events host0 ui_init (onChange ui_init (str "col")) (Typed (str "col")));
    [exact I | reflexivity].
Defined.

(** X21.  For a valid date whose UTC year is at least 10, [fmtMonthYY]
    gives five characters: two digits that denote the UTC month counted
    from 1, a slash, and two digits that denote the UTC year modulo
    100. *)
Theorem X21_fmtMonthYY (y m : Z) :
  (0 <= m <= 11)%Z -> (10 <= y)%Z ->
  exists a b c d,
    fmtMonthYY (UtcDate y m) = [a; b; 47%N; c; d] /\
    forallb is_digit [a; b; c; d] = true /\
    JsString.digits_value [a; b] = Z.to_N (m + 1) /\
    JsString.digits_value [c; d] = Z.to_N (y mod 100).
Proof.
  intros Hm Hy. destruct (month_digits Hm) as (a & b & Em & Da & Db & Vm).
  destruct (year_digits Hy) as (c & d & Ey & Dc & Dd & Vy).
  exists a, b, c, d. unfold fmtMonthYY. cbn [getUTCMonth getUTCFullYear option_map String_of_int].
  rewrite Em, Ey. split; [reflexivity|]. split.
  - cbn [forallb]. now rewrite Da, Db, Dc, Dd.
  - split; [now rewrite Z.add_comm | assumption].
Qed.

Lemma X21_fmtMonthYY_witness :
  exists a b c d,
    fmtMonthYY (UtcDate 2024 0) = [a; b; 47%N; c; d] /\
    forallb is_digit [a; b; c; d] = true /\
    JsString.digits_value [a; b] = 1%N /\ JsString.digits_value [c; d] = 24%N.
Proof. apply (@X21_fmtMonthYY 2024 0); lia. Defined.

(** X22.  The short outputs of [fmtMonthYY]: an invalid date gives
    [NaN/aN]; a valid date whose UTC year is from 0 to 9 gives the two
    digits of the month, a slash, and the single digit of the year. *)
Theorem X22_fmtMonthYY_short (y m : Z) :
  fmtMonthYY InvalidDate = str "NaN/aN" /\
  ((0 <= m <= 11)%Z -> (0 <= y <= 9)%Z ->
   exists a b,
     fmtMonthYY (UtcDate y m) = [a; b; 47%N; (48 + Z.to_N y)%N] /\
     JsString.digits_value [a; b] = Z.to_N (m + 1)).
Proof.
  split; [reflexivity|]. intros Hm Hy.
  destruct (month_digits Hm) as (a & b & Em & _ & _ & Vm). exists a, b.
  unfold fmtMonthYY. cbn [getUTCMonth getUTCFullYear option_map String_of_int].
  rewrite Em. split; [|now rewrite Z.add_comm].
  assert (C : (y = 0 \/ y = 1 \/ y = 2 \/ y = 3 \/ y = 4 \/ y = 5 \/ y = 6 \/ y = 7 \/
               y = 8 \/ y = 9)%Z) by lia.
  repeat (destruct C as [->|C]; [reflexivity|]). subst. reflexivity.
Qed.

Lemma X22_fmtMonthYY_short_witness :
  exists a b,
    fmtMonthYY (UtcDate 7 11) = [a; b; 47%N; 55%N] /\
    JsString.digits_value [a; b] = 12%N.
Proof. apply (proj2 (X22_fmtMonthYY_short 7 11)); lia. Defined.

(** X23.  The fips of a polygon whose id is a number below 100000 is
    that number in five digits, zero-padded on the left; and the polygon
    is on the map of Texas exactly when the number is from 48000 to
    48999. *)
Theorem X23_texas_polygons (n : N) (nm : StrField) (gs1 gs2 : list Geo) :
  (n < 100000)%N ->
  let g := {| geo_id := IdNum n; geo_NAME := nm |} in
  List.length (geo_fips g) = 5%nat /\
  Forall (fun c => is_digit c = true) (geo_fips g) /\
  JsString.digits_value (geo_fips g) = n /\
  (In g (texas (gs1 ++ g :: gs2)) <-> (48000 <= n <= 48999)%N).
Proof.
  intros Hn g. destruct (geo_fips_num nm Hn) as (L & D & V).
  split; [exact L|]. split; [exact D|]. split; [exact V|].
  unfold texas. rewrite filter_In, <- (texas_num nm Hn). fold g.
  split; [tauto|]. intros H. split; [|assumption]. apply in_elt.
Qed.

Lemma X23_texas_polygons_witness :
  geo_fips {| geo_id := IdNum 1001; geo_NAME := SUndefined |} = str "01001" /\
  ~ In {| geo_id := IdNum 1001; geo_NAME := SUndefined |}
       (texas [{| geo_id := IdNum 1001; geo_NAME := SUndefined |}]).
Proof.
  split; [reflexivity|].
  destruct (@X23_texas_polygons 1001 SUndefined [] [] ltac:(reflexivity))
    as (_ & _ & _ & H).
  intros Hin. apply H in Hin. lia.
Defined.

(** X24.  A click on a polygon selects its fips, makes the polygon the
    active one, and selects the name of the county of the list with that
    fips when it has one, else the NAME of the polygon when it has one,
    else the fips; the selected name is empty only when the fips is. *)
Theorem X24_geo_click (h : Host) (s : State) (g : Geo) :
  let nm := strfield_or (meta_name (countiesMeta s) (geo_fips g))
                        (strfield_or (geo_NAME g) (geo_fips g)) in
  selected (geo_click h s g) = Some {| sel_fips := geo_fips g; sel_name := nm |} /\
  geo_active (geo_click h s g) g = true /\
  (nm = [] -> geo_fips g = []).
Proof.
  intros nm. unfold geo_click, selectWithoutZoom.
  assert (E : shown_name s (geo_fips g) (SStr (geo_name (countiesMeta s) g)) = nm).
  { rewrite shown_name_order. unfold nm, geo_name.
    destruct (meta_name (countiesMeta s) (geo_fips g)) as [| |[|x n]];
      destruct (geo_NAME g) as [| |[|x' n']]; simpl; try reflexivity;
      destruct (geo_fips g); reflexivity. }
  rewrite E. unfold geo_active.
  destruct (loadCounty_fields h s (geo_fips g) nm) as (_ & _ & _ & _ & -> & _).
  split; [reflexivity|]. split; [apply eqb_refl|].
  unfold nm. intros N. destruct (geo_fips g) as [|c f]; [reflexivity|]. exfalso.
  revert N. apply strfield_or_nonempty. apply strfield_or_nonempty. discriminate.
Qed.

Lemma X24_geo_click_witness :
  selected (geo_click host0 (list_resolved init (Some counties0))
                      {| geo_id := IdNum 48085; geo_NAME := SStr (str "Collin County") |})
  = Some {| sel_fips := str "48085"; sel_name := str "Collin" |}.
Proof.
  apply (proj1 (X24_geo_click host0 (list_resolved init (Some counties0))
                              {| geo_id := IdNum 48085;
                                 geo_NAME := SStr (str "Collin County") |})).
Defined.

(** X25.  The pass that caches the centroids never replaces an entry of
    the cache; after it every polygon of the map of Texas has an entry;
    a fips that had none gets the centroid of the first polygon with that
    fips; and a second pass over the same polygons changes nothing. *)
Theorem X25_centroid_cache (C : Type) (geoCentroid : Geo -> C) (cache : JsMap C)
    (geographies : list Geo) :
  let cache' := cache_centroids geoCentroid cache geographies in
  (forall k v, map_get cache k = Some v -> map_get cache' k = Some v) /\
  (forall g, In g (texas geographies) -> map_has cache' (geo_fips g) = true) /\
  (forall gs g rest,
      texas geographies = gs ++ g :: rest ->
      map_get cache (geo_fips g) = None ->
      (forall g', In g' gs -> geo_fips g' <> geo_fips g) ->
      map_get cache' (geo_fips g) = Some (geoCentroid g)) /\
  cache_centroids geoCentroid cache' geographies = cache'.
Proof.
  intros cache'. unfold cache', cache_centroids. split; [|split; [|split]].
  - intros k v. apply fold_keeps.
  - intros g. apply fold_has.
  - intros gs g rest -> Hc Hne. now apply fold_first.
  - apply fold_fixed. intros g. apply fold_has.
Qed.

Lemma X25_centroid_cache_witness :
  let g1 := {| geo_id := IdNum 48085; geo_NAME := SStr (str "Collin") |} in
  let g2 := {| geo_id := IdStr (str "48085"); geo_NAME := SStr (str "Collin again") |} in
  map_get (cache_centroids geo_NAME [] [g1; g2]) (str "48085") = Some (SStr (str "Collin")).
Proof.
  intros g1 g2.
  destruct (@X25_centroid_cache StrField geo_NAME [] [g1; g2]) as (_ & _ & H & _).
  apply (H [] g1 [g2]); [reflexivity | reflexivity | intros g' []].
Defined.

(** X27.  Without a county list, or with an empty one, the ranking, the
    rows of the top counties and the suggestions are empty, the index has
    no county, [maxSum] is 1 and every polygon has the neutral grey. *)
Theorem X27_empty_list (h : Host) (cm : option CountiesResponse) (q f : jsstring)
    (g : Geo) :
  counties_of cm = None \/ counties_of cm = Some [] ->
  topSorted cm = [] /\ top_rows h cm = [] /\ suggestions h q cm = [] /\
  countyIndex_get cm f = None /\ maxSum cm = Fin 1 /\ geo_fill cm g = baseFill.
Proof.
  intros H. unfold topSorted, top_rows, top_counties, topSorted, suggestions,
              countyIndex_get, maxSum, geo_fill, countyIndex_get.
  destruct H as [-> | ->]; simpl; destruct (JsString.trim q); repeat split; reflexivity.
Qed.

Lemma X27_empty_list_witness :
  top_rows host0 (Some {| run := SNull; counties := Some [] |}) = [] /\
  geo_fill None {| geo_id := IdNum 48085; geo_NAME := SUndefined |} = baseFill.
Proof.
  split.
  - apply (@X27_empty_list host0 (Some {| run := SNull; counties := Some [] |}) [] []
                           {| geo_id := IdNum 48085; geo_NAME := SUndefined |}).
    right. reflexivity.
  - apply (@X27_empty_list host0 None [] []
                           {| geo_id := IdNum 48085; geo_NAME := SUndefined |}).
    left. reflexivity.
Defined.

(** X28.  When no two counties of the list share a fips, a county of
    the list that has a name is activated in the same way by its row in
    the list of the top counties, by its polygon on the map, and by its
    suggestion (Enter or the mouse): each is [loadCounty] of its fips and
    its name. *)
Theorem X28_one_activation (h : Host) (s : State) (cs : list County) (c : County)
    (g : Geo) (n : jsstring) :
  counties_of (countiesMeta s) = Some cs -> NoDup (map fips cs) -> In c cs ->
  name c = SStr n -> n <> [] -> geo_fips g = fips c ->
  row_click h s c = loadCounty h s (fips c) n /\
  geo_click h s g = loadCounty h s (fips c) n /\
  selectWithoutZoom h s (fips c) (name c) = loadCounty h s (fips c) n.
Proof.
  intros Hcs Hnd Hin Hn Hne Hg.
  assert (M : meta_name (countiesMeta s) (fips c) = SStr n).
  { unfold meta_name. now rewrite (@countyIndex_get_unique _ cs c Hcs Hnd Hin). }
  assert (S : forall fb, shown_name s (fips c) fb = n).
  { intros fb. unfold shown_name. rewrite M. destruct n; [contradiction | reflexivity]. }
  unfold row_click, geo_click, selectWithoutZoom.
  rewrite Hg, !S. repeat split; reflexivity.
Qed.

Lemma X28_one_activation_witness :
  row_click host0 (list_resolved init (Some counties0)) collin
  = geo_click host0 (list_resolved init (Some counties0))
              {| geo_id := IdNum 48085; geo_NAME := SStr (str "Collin County") |}.
Proof.
  destruct (@X28_one_activation host0 (list_resolved init (Some counties0))
              [collin; dallas; coleman] collin
              {| geo_id := IdNum 48085; geo_NAME := SStr (str "Collin County") |}
              (str "Collin"))
    as (R & G & _).
  - reflexivity.
  - repeat constructor; simpl; intuition discriminate.
  - simpl. tauto.
  - reflexivity.
  - discriminate.
  - reflexivity.
  - now rewrite R, G.
Defined.
